(** * bdo_headless_scraper: a shallow embedding and its verified properties

    The development follows [src/bdo_headless_scraper.py]:

    - Python text ([str]) is a list of Unicode code points, with the
      whitespace class of [str.isspace] / the [\s] of [re];
    - the three regular expressions of [parse_profile] are written with
      backtracking combinators that try the repetition counts in the order
      Python's [re] tries them (greedy: longest first, lazy: shortest first);
    - code that can raise returns a [result]; the [while] loop of the
      character sub-parse runs on fuel;
    - [ProxyManager] is a record with its dictionary of counters, and
      [candidates] passes the state explicitly;
    - [scrape_one] runs in a state monad over the manager and an event trace
      of the browser engine, whose behaviour is an oracle;
    - delays are IEEE 754 binary64 floats, as Python's [float]. *)

From Stdlib Require Import ZArith NArith List String Ascii Bool Lia Permutation Floats.
From stdpp Require Import gmap list.

Set Warnings "-inexact-float,-register-all".
Set Default Proof Using "Type".

(* ================================================================== *)
(** * Part I: the embedding                                            *)
(* ================================================================== *)

(** ** Python text *)

(** A Python [str] is a sequence of code points. *)
Abbreviation pystr := (list N).

(** A literal: every byte of the Rocq string is one (ASCII) code point. *)
Definition str (s : string) : pystr :=
  List.map N_of_ascii (list_ascii_of_string s).
Arguments str s%_string.

(** Truth value of a [str] or a list: non-empty. *)
Definition truthy {A} (l : list A) : bool :=
  match l with [] => false | _ :: _ => true end.

(** [str.isspace] on one code point, which is also [\s] of a [str] pattern:
    CPython's [_PyUnicode_IsWhitespace]. *)
Definition isspace (c : N) : bool :=
  (((0x09 <=? c) && (c <=? 0x0D)) || ((0x1C <=? c) && (c <=? 0x20))
   || (c =? 0x85) || (c =? 0xA0) || (c =? 0x1680)
   || ((0x2000 <=? c) && (c <=? 0x200A))
   || (c =? 0x2028) || (c =? 0x2029) || (c =? 0x202F) || (c =? 0x205F)
   || (c =? 0x3000))%N.

Definition LF : N := 10%N.
Definition SPACE : N := 32%N.

(** [re.sub(r"\s+", " ", s)]: every maximal run of whitespace becomes one
    space. [in_run] tells that the previous code point was whitespace. *)
Fixpoint sub_ws (in_run : bool) (s : pystr) : pystr :=
  match s with
  | [] => []
  | c :: t =>
      if isspace c
      then (if in_run then sub_ws true t else SPACE :: sub_ws true t)
      else c :: sub_ws false t
  end.

Fixpoint lstrip (s : pystr) : pystr :=
  match s with
  | [] => []
  | c :: t => if isspace c then lstrip t else s
  end.

Definition rstrip (s : pystr) : pystr := rev (lstrip (rev s)).

(** [str.strip()] *)
Definition strip (s : pystr) : pystr := rstrip (lstrip s).

(** [_clean]: normalizes whitespace and trims. *)
Definition _clean (text : pystr) : pystr := strip (sub_ws false text).

(** [s.split("\n")]: always at least one piece. *)
Fixpoint split_lf (s : pystr) : list pystr :=
  match s with
  | [] => [[]]
  | c :: t =>
      if (c =? LF)%N then [] :: split_lf t
      else match split_lf t with
           | [] => [[c]]
           | h :: r => (c :: h) :: r
           end
  end.

(** [pat] is a prefix of [s]. *)
Fixpoint startswith (pat s : pystr) : bool :=
  match pat, s with
  | [], _ => true
  | _ :: _, [] => false
  | a :: pat', b :: s' => (a =? b)%N && startswith pat' s'
  end.

(** [pat in s] for strings. *)
Fixpoint contains (pat s : pystr) : bool :=
  startswith pat s || match s with [] => false | _ :: t => contains pat t end.

(** [s.replace(pat, "")] for a non-empty [pat]: the occurrences are removed
    from left to right, without overlap. [skip] counts the code points of
    the occurrence being removed that are still to be dropped. *)
Fixpoint remove_from (pat : pystr) (skip : nat) (s : pystr) : pystr :=
  match s with
  | [] => []
  | c :: t =>
      match skip with
      | S k => remove_from pat k t
      | O => if startswith pat s then remove_from pat (length pat - 1) t
             else c :: remove_from pat 0 t
      end
  end.

Definition remove_all (pat s : pystr) : pystr := remove_from pat 0 s.

(** ** Results of code that can raise *)

(** The exceptions of the class [Exception] that the modelled calls raise.
    What lies outside that class ([asyncio.CancelledError],
    [KeyboardInterrupt]) is not caught by the [except] clause of
    [scrape_one] and is not modelled: the embedding describes the runs in
    which no such exception is delivered. *)
Inductive exn :=
| ValueError
| IndexError
| KeyError
| OverflowError
| PWTimeoutError
| PlaywrightError (msg : pystr)
| ScrapingFailed (url : pystr) (last_error : option exn).
    (* RuntimeError(f"Scraping failed for {url}: {last_error}") *)

(** [Diverge] is the model's answer when a loop's fuel runs out. *)
Inductive result (A : Type) :=
| Ok (a : A)
| Raise (e : exn)
| Diverge.
Arguments Ok {A} a.
Arguments Raise {A} e.
Arguments Diverge {A}.

#[global] Instance result_ret : MRet result := fun A a => Ok a.
#[global] Instance result_bind : MBind result := fun A B f m =>
  match m with
  | Ok a => f a
  | Raise e => Raise e
  | Diverge => Diverge
  end.

(** [l[i]] for [0 <= i]. *)
Definition getitem {A} (l : list A) (i : nat) : result A :=
  match l !! i with
  | Some x => Ok x
  | None => Raise IndexError
  end.

(** [l.index(x)] *)
Fixpoint index (l : list pystr) (x : pystr) : result nat :=
  match l with
  | [] => Raise ValueError
  | y :: t => if bool_decide (y = x) then Ok 0 else n ← index t x; Ok (S n)
  end.

(** [x in l] for a list of strings. *)
Definition inlist (x : pystr) (l : list pystr) : bool := bool_decide (x ∈ l).

(** [l[lo:hi]] for [0 <= lo <= hi]. *)
Definition slice {A} (l : list A) (lo hi : nat) : list A := take (hi - lo) (drop lo l).

(** [range(lo, hi)] *)
Definition py_range (lo hi : Z) : list Z :=
  List.map (fun i => (lo + Z.of_nat i)%Z) (seq 0 (Z.to_nat (hi - lo))).

(** ** Backtracking, as [re] does it *)

(** The first repetition count, in the order tried, for which the rest of
    the pattern matches. *)
Fixpoint first_match {A} (rest : nat -> option A) (counts : list nat) : option A :=
  match counts with
  | [] => None
  | n :: more =>
      match rest n with
      | Some r => Some r
      | None => first_match rest more
      end
  end.

(** Counts [hi, hi - 1, ..., lo]: a greedy repetition. *)
Definition greedy (lo hi : nat) : list nat := rev (seq lo (S hi - lo)).

(** Counts [lo, lo + 1, ..., hi]: a lazy repetition. *)
Definition lazy (lo hi : nat) : list nat := seq lo (S hi - lo).

(** How many leading code points of [s] are in the class [p]. *)
Fixpoint run (p : N -> bool) (s : pystr) : nat :=
  match s with
  | [] => 0
  | c :: t => if p c then S (run p t) else 0
  end.

(** [.] without [re.DOTALL]: anything but a line feed. *)
Definition dot (c : N) : bool := negb (c =? LF)%N.

(** [$] without [re.MULTILINE]: at the end, or before a final line feed. *)
Definition at_eol (s : pystr) : bool :=
  match s with
  | [] => true
  | [c] => (c =? LF)%N
  | _ => false
  end.

(** [(.+)$] on the rest [s] of the subject: the capture. *)
Definition dot_plus_eol (s : pystr) : option pystr :=
  first_match (fun n => if at_eol (drop n s) then Some (take n s) else None)
              (greedy 1 (run dot s)).

(** [(?:\s{2,}|\s:\s)(.+)$] on the rest [s]: the capture of [(.+)]. *)
Definition COLON : N := 58%N.

Definition community_sep (s : pystr) : option pystr :=
  match first_match (fun j => dot_plus_eol (drop j s)) (greedy 2 (run isspace s)) with
  | Some g2 => Some g2
  | None =>
      match s with
      | w1 :: c :: w2 :: t =>
          if isspace w1 && (c =? COLON)%N && isspace w2 then dot_plus_eol t else None
      | _ => None
      end
  end.

(** [re.match(r"^(.*?)(?:\s{2,}|\s:\s)(.+)$", item)]: groups 1 and 2. *)
Definition community_re (item : pystr) : option (pystr * pystr) :=
  first_match (fun p => g2 ← community_sep (drop p item); Some (take p item, g2))
              (lazy 0 (run dot item)).

(** [L] and [v] under [re.I]. *)
Definition is_L (c : N) : bool := (c =? 76)%N || (c =? 108)%N.
Definition is_v (c : N) : bool := (c =? 118)%N || (c =? 86)%N.

(** [\s+(.+)$] on the rest [s]. *)
Definition ws_then_rest (s : pystr) : option pystr :=
  first_match (fun j => dot_plus_eol (drop j s)) (greedy 1 (run isspace s)).

(** [\s+Lv\s+(.+)$] on the rest [s], ignoring case. *)
Definition lv_tail (s : pystr) : option pystr :=
  first_match
    (fun j => match drop j s with
              | a :: b :: t => if is_L a && is_v b then ws_then_rest t else None
              | _ => None
              end)
    (greedy 1 (run isspace s)).

(** [re.match(r"^(.+?)\s+Lv\s+(.+)$", cls_line, re.I)]: groups 1 and 2. *)
Definition class_level_re (cls_line : pystr) : option (pystr * pystr) :=
  first_match (fun p => g2 ← lv_tail (drop p cls_line); Some (take p cls_line, g2))
              (lazy 1 (run dot cls_line)).

(** [re.fullmatch(r"[A-Z]{2,3}", s)] as a truth value. *)
Definition is_AZ (c : N) : bool := (65 <=? c)%N && (c <=? 90)%N.

Definition region_re (s : pystr) : bool :=
  match first_match (fun n => if truthy (drop n s) then None else Some n)
                    (greedy 2 (min 3 (run is_AZ s))) with
  | Some _ => true
  | None => false
  end.


(** ** The rendered page *)

(** What [parse_profile] asks of a Playwright page. Each query is awaited
    and can raise. The two section queries are the XPath locators of
    [_extract_section_list], by heading text. *)
Record Page := {
  body_inner_text : result pystr;
    (* page.locator("body").inner_text() *)
  heading_count : pystr -> result nat;
    (* heading.count() *)
  items_all_inner_texts : pystr -> result (list pystr)
    (* items.all_inner_texts() *)
}.

(** [_extract_section_list] *)
Definition _extract_section_list (page : Page) (heading_text : pystr)
  : result (list pystr) :=
  n ← heading_count page heading_text;
  if (n =? 0)%nat then Ok []
  else
    texts ← items_all_inner_texts page heading_text;
    Ok (List.map _clean (List.filter (fun t => truthy (_clean t)) texts)).

Record Character := {
  c_name : pystr;
  c_class : pystr;
  c_level : pystr;
  c_is_main : bool
}.

Record Profile := {
  source_url : pystr;
  region : option pystr;
  family_name : option pystr;
  community : gmap pystr pystr;
  life_raw : list pystr;
  characters : list Character
}.

Definition ADVENTURER_PROFILE : pystr := str "Adventurer Profile".
Definition MAIN_CHARACTER : pystr := str "Main Character".

(** The [for idx in range(len(window) - 1)] loop of the anchor scan, over
    the indices still to visit: the values of [region] and [family_name]
    at its end. *)
Fixpoint scan_window (window : list pystr) (idxs : list Z)
  : result (option pystr * option pystr) :=
  match idxs with
  | [] => Ok (None, None)
  | idx :: more =>
      w ← getitem window (Z.to_nat idx);
      if region_re w
      then
        f ← getitem window (Z.to_nat (idx + 1));
        Ok (Some w, Some f)
      else scan_window window more
  end.

(** The body of [for item in community_raw]. *)
Definition community_step (community : gmap pystr pystr) (item : pystr)
  : gmap pystr pystr :=
  match community_re item with
  | Some (g1, g2) => <[_clean g1 := _clean g2]> community
  | None => <[item := []]> community
  end.

Definition community_of (community_raw : list pystr) : gmap pystr pystr :=
  fold_left community_step community_raw ∅.

(** The [while i < len(created_raw)] loop of the character sub-parse. *)
Fixpoint characters_loop (fuel : nat) (created_raw : list pystr) (i : nat)
    (characters : list Character) : result (list Character) :=
  if negb (i <? length created_raw)%nat then Ok characters
  else
    match fuel with
    | O => Diverge
    | S fuel' =>
        name_line ← getitem created_raw i;
        let is_main := contains MAIN_CHARACTER name_line in
        let name := _clean (remove_all MAIN_CHARACTER name_line) in
        cl ← (if (i + 1 <? length created_raw)%nat
              then
                cls_line ← getitem created_raw (i + 1);
                match class_level_re cls_line with
                | Some (g1, g2) => Ok (_clean g1, _clean g2)
                | None => Ok ([], [])
                end
              else Ok ([], []));
        let characters' :=
          if truthy name
          then characters ++ [ {| c_name := name; c_class := cl.1;
                                  c_level := cl.2; c_is_main := is_main |} ]
          else characters in
        characters_loop fuel' created_raw (i + 2) characters'
    end.

(** The non-empty lines of the body text, as [parse_profile] computes them:
    [body_text = _clean(...)] and [[l for l in body_text.split("\n") if l]]. *)
Definition lines_of (inner_text : pystr) : list pystr :=
  List.filter truthy (split_lf (_clean inner_text)).

(** The heuristic extraction near "Adventurer Profile": [region] and
    [family_name] after the [if] block. *)
Definition anchor_scan (lines : list pystr) : result (option pystr * option pystr) :=
  if inlist ADVENTURER_PROFILE lines
  then
    i ← index lines ADVENTURER_PROFILE;
    let window := slice lines i (i + 15) in
    scan_window window (py_range 0 (Z.of_nat (length window) - 1))
  else Ok (None, None).

(** [parse_profile] *)
Definition parse_profile (page : Page) (url : pystr) : result Profile :=
  t ← body_inner_text page;
  rf ← anchor_scan (lines_of t);
  community_raw ← _extract_section_list page (str "Community Activities");
  life ← _extract_section_list page (str "Life");
  created_raw ← _extract_section_list page (str "Created Characters");
  let community := community_of community_raw in
  chars ← characters_loop (length created_raw) created_raw 0 [];
  Ok {| source_url := url; region := rf.1; family_name := rf.2;
        community := community; life_raw := life; characters := chars |}.

(** A page all of whose queries answer: [body] is the visible text, and
    [sections h] the inner texts of the list items the locator for the
    heading [h] finds, or [None] when no such heading exists. *)
Definition rendered (body : pystr) (sections : pystr -> option (list pystr)) : Page :=
  {| body_inner_text := Ok body;
     heading_count := fun h => Ok (match sections h with Some _ => 1 | None => 0 end);
     items_all_inner_texts := fun h => Ok (default [] (sections h)) |}.


(** ** Configuration *)

Record ProxyLayer := {
  name : pystr;
  proxies : list pystr
}.

Record Config := {
  headless : bool;
  timeout_ms : Z;
  navigation_wait : pystr;
  concurrency : Z;
  viewport : gmap pystr Z;
  locale : pystr;
  timezone_id : pystr;
  user_agent : pystr;
  retries : Z;
  backoff_seconds : float;
  max_backoff_seconds : float;
  proxy_layers : list ProxyLayer;
  targets : list pystr
}.

(** ** Proxy rotation *)

Record ProxyPick := {
  layer : pystr;
  proxy : option pystr   (* None = direct connection *)
}.

Record ProxyManager := {
  layers : list (pystr * list pystr);
  direct_fallback : bool;
  _indices : gmap pystr nat
}.

(** [d[k]] for a dictionary. *)
Definition getkey {V} (d : gmap pystr V) (k : pystr) : result V :=
  match d !! k with
  | Some v => Ok v
  | None => Raise KeyError
  end.

Section Init.
(** [random.shuffle] draws from the generator's state. *)
Context {rng : Type} (shuffle : rng -> list pystr -> list pystr * rng).

(** [for _, proxies in self.layers: random.shuffle(proxies)] *)
Fixpoint shuffle_layers (g : rng) (ls : list (pystr * list pystr))
  : list (pystr * list pystr) * rng :=
  match ls with
  | [] => ([], g)
  | (n, ps) :: more =>
      let '(ps', g') := shuffle g ps in
      let '(more', g'') := shuffle_layers g' more in
      ((n, ps') :: more', g'')
  end.

(** [ProxyManager.__init__] *)
Definition __init__ (declared : list ProxyLayer) (direct : bool) (g : rng)
  : ProxyManager * rng :=
  let copied := List.map (fun l => (name l, proxies l)) declared in
  let '(shuffled, g') := shuffle_layers g copied in
  ({| layers := shuffled;
      direct_fallback := direct;
      _indices := fold_left (fun d l => <[l.1 := 0]> d) shuffled ∅ |}, g').
End Init.

Definition DIRECT : ProxyPick := {| layer := str "direct"; proxy := None |}.

(** The [for name, proxies in self.layers] loop of [candidates], over the
    layers still to visit. *)
Fixpoint candidates_loop (ls : list (pystr * list pystr))
    (indices : gmap pystr nat) (picks : list ProxyPick)
  : result (list ProxyPick * gmap pystr nat) :=
  match ls with
  | [] => Ok (picks, indices)
  | (name, proxies) :: more =>
      if negb (truthy proxies) then candidates_loop more indices picks
      else
        n ← getkey indices name;
        let idx := n mod length proxies in
        n' ← getkey indices name;           (* [+= 1] reads the counter again *)
        let indices' := <[name := n' + 1]> indices in
        p ← getitem proxies idx;
        candidates_loop more indices' (picks ++ [ {| layer := name; proxy := Some p |} ])
  end.

(** [ProxyManager.candidates]: the picks and the manager after the call. *)
Definition candidates (pm : ProxyManager) : result (list ProxyPick * ProxyManager) :=
  r ← candidates_loop (layers pm) (_indices pm) [];
  let picks := if direct_fallback pm then r.1 ++ [DIRECT] else r.1 in
  Ok (picks, {| layers := layers pm;
                direct_fallback := direct_fallback pm;
                _indices := r.2 |}).

(** ** Backoff *)

(** A Python [int] converted for a [float] operation: rounded to the nearest
    binary64 (ties to even), [OverflowError] when it is out of range. *)
Definition float_of_int (z : Z) : result float :=
  let f := SF2Prim (binary_normalize prec emax z 0 false) in
  if is_infinity f then Raise OverflowError else Ok f.

(** [min(a, b)] *)
Definition py_min (a b : float) : float := if (b <? a)%float then b else a.

(** The delay [scrape_one] computes after attempt number [attempt >= 1]:
    [min(cfg.max_backoff_seconds, cfg.backoff_seconds * (2 ** (attempt - 1)))]. *)
Definition backoff (cfg : Config) (attempt : Z) : result float :=
  p ← float_of_int (2 ^ (attempt - 1));
  Ok (py_min (max_backoff_seconds cfg) (backoff_seconds cfg * p)%float).

(** ** The browser engine and [scrape_one] *)

(** How the engine serves one requested session: which of the awaited calls
    raises, and the page it would show after navigation. *)
Record Session := {
  on_new_context : option exn;
  on_new_page : option exn;
  on_goto : option exn;
  on_wait : option exn;
  on_close : option exn;
  the_page : Page
}.

(** The engine: the [k]-th call of [browser.new_context] is served by
    [browser k]; a context is named by the number of the call that made it. *)
Definition Browser := nat -> Session.

Inductive event :=
| Candidates (attempt : Z)                       (* pm.candidates() *)
| NewContext (ctx : nat) (proxy : option pystr)  (* browser.new_context returned ctx *)
| NewPage (ctx : nat)
| Goto (ctx : nat) (url : pystr)
| Wait (ctx : nat)
| Parse (ctx : nat)
| Close (ctx : nat)                              (* context.close() *)
| Sleep (delay : float).                         (* asyncio.sleep(delay) *)

Record World := {
  mgr : ProxyManager;
  requested : nat;       (* calls of browser.new_context so far *)
  trace : list event
}.

Definition M (A : Type) : Type := World -> result A * World.

#[global] Instance M_ret : MRet M := fun A a w => (Ok a, w).
#[global] Instance M_bind : MBind M := fun A B f m w =>
  match m w with
  | (Ok a, w') => f a w'
  | (Raise e, w') => (Raise e, w')
  | (Diverge, w') => (Diverge, w')
  end.

Definition lift {A} (r : result A) : M A := fun w => (r, w).

Definition log (e : event) : M unit := fun w =>
  (Ok tt, {| mgr := mgr w; requested := requested w; trace := trace w ++ [e] |}).

Definition raise_if (o : option exn) : M unit :=
  match o with
  | Some e => lift (Raise e)
  | None => mret tt
  end.

Record ScrapeData := {
  profile : Profile;
  _proxy_layer : pystr;
  _proxy : option pystr
}.

Section Scrape.
Variable cfg : Config.
Variable browser : Browser.
Variable url : pystr.

(** The engine's [browser.new_context], given the proxy argument. *)
Definition browser_new_context (proxy_arg : option pystr) : M nat := fun w =>
  let k := requested w in
  match on_new_context (browser k) with
  | Some e =>
      (Raise e, {| mgr := mgr w; requested := S k; trace := trace w |})
  | None =>
      (Ok k, {| mgr := mgr w; requested := S k;
                trace := trace w ++ [NewContext k proxy_arg] |})
  end.

(** [new_context]: the context it returns. *)
Definition new_context (pick : ProxyPick) : M nat :=
  _ ← lift (getkey (viewport cfg) (str "width"));
  _ ← lift (getkey (viewport cfg) (str "height"));
  browser_new_context
    match proxy pick with
    | Some p => if truthy p then Some p else None
    | None => None
    end.

(** The statements of the [try] block after [context] is bound. *)
Definition in_context (ctx : nat) (pick : ProxyPick) : M ScrapeData :=
  _ ← log (NewPage ctx);
  _ ← raise_if (on_new_page (browser ctx));
  _ ← log (Goto ctx url);
  _ ← raise_if (on_goto (browser ctx));
  _ ← log (Wait ctx);
  _ ← raise_if (on_wait (browser ctx));
  _ ← log (Parse ctx);
  data ← lift (parse_profile (the_page (browser ctx)) url);
  mret {| profile := data; _proxy_layer := layer pick; _proxy := proxy pick |}.

(** The [try] block: the value of [context] when it is left, and how it
    is left. *)
Definition try_block (pick : ProxyPick) (w : World)
  : option nat * result ScrapeData * World :=
  match new_context pick w with
  | (Ok ctx, w1) => let '(r, w2) := in_context ctx pick w1 in (Some ctx, r, w2)
  | (Raise e, w1) => (None, Raise e, w1)
  | (Diverge, w1) => (None, Diverge, w1)
  end.

(** The [finally] block. *)
Definition finally_block (context : option nat) : M unit :=
  match context with
  | Some ctx => _ ← log (Close ctx); raise_if (on_close (browser ctx))
  | None => mret tt
  end.

(** The [for pick in pm.candidates()] loop, over the picks still to try:
    the data when the function returns from inside it, and [last_error]. *)
Fixpoint picks_loop (picks : list ProxyPick) (last_error : option exn)
  : M (option ScrapeData * option exn) :=
  match picks with
  | [] => mret (None, last_error)
  | pick :: more => fun w =>
      let '(context, r, w1) := try_block pick w in
      match finally_block context w1 with
      | (Ok _, w2) =>
          match r with
          | Ok data => (Ok (Some data, last_error), w2)   (* return data *)
          | Raise e => picks_loop more (Some e) w2         (* last_error = e *)
          | Diverge => (Diverge, w2)
          end
      | (Raise e, w2) => (Raise e, w2)
      | (Diverge, w2) => (Diverge, w2)
      end
  end.

(** [pm.candidates()] on the shared manager. When the call raises, the
    manager is kept as it was before the call: what a failing call has done
    to the counters of the layers before the faulty one is not recorded (no
    call fails on a manager in which every layer has its counter). *)
Definition call_candidates (attempt : Z) : M (list ProxyPick) := fun w =>
  match candidates (mgr w) with
  | Ok (picks, pm') =>
      (Ok picks, {| mgr := pm'; requested := requested w;
                    trace := trace w ++ [Candidates attempt] |})
  | Raise e => (Raise e, w)
  | Diverge => (Diverge, w)
  end.

(** The [for attempt in range(1, cfg.retries + 1)] loop, over the attempts
    still to make, and the [raise] after it. *)
Fixpoint attempts_loop (attempts : list Z) (last_error : option exn)
  : M ScrapeData :=
  match attempts with
  | [] => lift (Raise (ScrapingFailed url last_error))
  | attempt :: more =>
      picks ← call_candidates attempt;
      r ← picks_loop picks last_error;
      match r.1 with
      | Some data => mret data
      | None =>
          delay ← lift (backoff cfg attempt);
          _ ← log (Sleep delay);
          attempts_loop more r.2
      end
  end.

(** [scrape_one] *)
Definition scrape_one : M ScrapeData :=
  attempts_loop (py_range 1 (retries cfg + 1)) None.
End Scrape.

(** ** Reading a trace *)

Definition is_sleep (e : event) : bool :=
  match e with Sleep _ => true | _ => false end.

Definition is_candidates (e : event) : bool :=
  match e with Candidates _ => true | _ => false end.

(** Suspensions for a backoff delay. *)
Definition sleeps (t : list event) : nat := length (List.filter is_sleep t).

(** Attempts made. *)
Definition attempts (t : list event) : nat := length (List.filter is_candidates t).

(** The discipline of sessions, read along a trace. The state is the
    context that is open, if any, and a bound above the numbers of the
    contexts made so far. A context is made when none is open, under a new
    number; a page is used only in the open context; only the open context
    is closed; the manager is asked and the task sleeps only while no
    context is open. *)
Definition session_step (st : option nat * nat) (e : event)
  : option (option nat * nat) :=
  match e, st.1 with
  | NewContext c _, None => if (st.2 <=? c)%nat then Some (Some c, S c) else None
  | (NewPage c | Goto c _ | Wait c | Parse c), Some o =>
      if (c =? o)%nat then Some st else None
  | Close c, Some o => if (c =? o)%nat then Some (None, st.2) else None
  | (Candidates _ | Sleep _), None => Some st
  | _, _ => None
  end.

Fixpoint sessions_run (st : option nat * nat) (t : list event)
  : option (option nat * nat) :=
  match t with
  | [] => Some st
  | e :: t' => st' ← session_step st e; sessions_run st' t'
  end.

(** Every context made was closed before anything else happened outside
    it, none is open at the end, and no number was used twice. *)
Definition sessions_ok (t : list event) : bool :=
  match sessions_run (None, 0) t with
  | Some (None, _) => true
  | _ => false
  end.

(** The events between two attempts' bookkeeping: those of sessions. *)
Definition is_session_event (e : event) : bool :=
  negb (is_sleep e) && negb (is_candidates e).

(** Page events of the context [ctx]. *)
Definition is_page_event (ctx : nat) (e : event) : bool :=
  match e with
  | NewPage c | Goto c _ | Wait c | Parse c => (c =? ctx)%nat
  | _ => false
  end.

(** Every session the engine is asked for fails at navigation: the context
    and the page are made, [goto] raises, and the context closes. *)
Definition navigation_fails (browser : Browser) : Prop :=
  ∀ k, on_new_context (browser k) = None
       ∧ on_new_page (browser k) = None
       ∧ is_Some (on_goto (browser k))
       ∧ on_close (browser k) = None.

Definition world0 (pm : ProxyManager) : World :=
  {| mgr := pm; requested := 0; trace := [] |}.

(** The configuration [load_config] builds from an empty document. *)
Definition default_config : Config :=
  {| headless := true; timeout_ms := 25000; navigation_wait := str "domcontentloaded";
     concurrency := 3;
     viewport := <[str "width" := 1280%Z]> (<[str "height" := 720%Z]> ∅);
     locale := str "en-US"; timezone_id := str "Europe/London";
     user_agent := str "Mozilla/5.0";
     retries := 8; backoff_seconds := 1.2; max_backoff_seconds := 10.0;
     proxy_layers := []; targets := [] |}.

(** ** Declarative readings, for the statements of Part II *)

(** The entry the character sub-parse records for one name line and the
    class/level line after it, if there is one: no entry when the stripped
    name is empty. *)
Definition character_of (name_line : pystr) (cls_line : option pystr)
  : list Character :=
  let name := _clean (remove_all MAIN_CHARACTER name_line) in
  let cl := match cls_line ≫= class_level_re with
            | Some (g1, g2) => (_clean g1, _clean g2)
            | None => ([], [])
            end in
  if truthy name
  then [ {| c_name := name; c_class := cl.1; c_level := cl.2;
            c_is_main := contains MAIN_CHARACTER name_line |} ]
  else [].

(** The lines consumed in pairs: line [2k] a name line, line [2k + 1] its
    class/level line. *)
Fixpoint characters_of (lines : list pystr) : list Character :=
  match lines with
  | [] => []
  | [name_line] => character_of name_line None
  | name_line :: cls_line :: more =>
      character_of name_line (Some cls_line) ++ characters_of more
  end.

(** What [_extract_section_list] returns for the heading [h] on a page
    whose heading [h] is followed by list items with the inner texts
    [sections h] ([None]: no such heading). *)
Definition section_of (sections : pystr → option (list pystr)) (h : pystr) : list pystr :=
  match sections h with
  | Some texts => List.map _clean (List.filter (fun t => truthy (_clean t)) texts)
  | None => []
  end.

(** ["\n".join(lines)]: a text whose lines are [lines]. *)
Fixpoint unlines (lines : list pystr) : pystr :=
  match lines with
  | [] => []
  | [l] => l
  | l :: more => l ++ LF :: unlines more
  end.

(** A layer's share of one [candidates] call, when its counter is read
    in the dictionary [indices]. *)
Definition pick_of (indices : gmap pystr nat) (l : pystr * list pystr) : ProxyPick :=
  {| layer := l.1;
     proxy := l.2 !! (default 0 (indices !! l.1) mod length l.2) |}.

Definition nonempty (l : pystr * list pystr) : bool := truthy l.2.

(** [k] calls of [candidates] in a row: what each returned, and the manager
    after the last. *)
Fixpoint calls (k : nat) (pm : ProxyManager)
  : result (list (list ProxyPick) * ProxyManager) :=
  match k with
  | O => Ok ([], pm)
  | S k' =>
      r ← candidates pm;
      rs ← calls k' r.2;
      Ok (r.1 :: rs.1, rs.2)
  end.

(** Every layer has its counter, as [__init__] arranges. *)
Definition counters_ok (pm : ProxyManager) : Prop :=
  ∀ l, l ∈ layers pm → is_Some (_indices pm !! l.1).

(** A pick comes from the layer [l]: it bears its name and one of its
    endpoints. *)
Definition picked_from (pick : ProxyPick) (l : pystr * list pystr) : Prop :=
  layer pick = l.1 ∧ ∃ e, proxy pick = Some e ∧ e ∈ l.2.

(** *** Shapes of lines, for the regular expressions *)

Definition all_space (s : pystr) : Prop := Forall (fun c => isspace c = true) s.

(** No line feed: what a run of [.] can cover. *)
Definition one_line (s : pystr) : Prop := Forall (fun c => dot c = true) s.

(** What [$] accepts after the match. *)
Definition line_end (tail : pystr) : Prop := tail = [] ∨ tail = [LF].

(** A separator of the community pattern: two or more whitespace code
    points, or whitespace, a colon, whitespace. *)
Definition is_separator (sep : pystr) : Prop :=
  (2 ≤ length sep ∧ all_space sep)
  ∨ (∃ w1 w2, sep = [w1; COLON; w2] ∧ isspace w1 = true ∧ isspace w2 = true).

(** [item] is [g1], a separator, a non-empty [g2], and the line's end. *)
Definition splits_at (item g1 sep g2 : pystr) : Prop :=
  ∃ tail, item = g1 ++ sep ++ g2 ++ tail
          ∧ one_line g1 ∧ is_separator sep
          ∧ g2 ≠ [] ∧ one_line g2 ∧ line_end tail.

(** [line] is a non-empty [g1], whitespace, "Lv" in any case, whitespace, a
    non-empty [g2], and the line's end. *)
Definition class_level_shape (line g1 g2 : pystr) : Prop :=
  ∃ ws1 a b ws2 tail,
    line = g1 ++ ws1 ++ [a; b] ++ ws2 ++ g2 ++ tail
    ∧ g1 ≠ [] ∧ one_line g1
    ∧ ws1 ≠ [] ∧ all_space ws1
    ∧ is_L a = true ∧ is_v b = true
    ∧ ws2 ≠ [] ∧ all_space ws2
    ∧ g2 ≠ [] ∧ one_line g2 ∧ line_end tail.

(** Label and value the community sub-parse stores for one line. *)
Definition community_entry (item : pystr) : pystr * pystr :=
  match community_re item with
  | Some (g1, g2) => (_clean g1, _clean g2)
  | None => (item, [])
  end.

(** No whitespace code point follows another one; [prev] tells that the
    code point before [s] is whitespace. *)
Fixpoint spaced (prev : bool) (s : pystr) : bool :=
  match s with
  | [] => true
  | c :: t => if isspace c then negb prev && spaced true t else spaced false t
  end.

(** ** Example inputs *)

(** A shuffle that reverses, on a generator without state. *)
Definition rev_shuffle (g : unit) (l : list pystr) : list pystr * unit := (rev l, g).

Definition layers_abc : list ProxyLayer :=
  [ {| name := str "residential"; proxies := [str "http://r1:8080"; str "http://r2:8080"] |};
    {| name := str "spare"; proxies := [] |};
    {| name := str "datacenter"; proxies := [str "http://d1:3128"] |} ].

(** A manager in mid-run: three endpoints in the first layer, whose counter
    holds 4, and an empty second layer. *)
Definition pm_mid_run : ProxyManager :=
  {| layers := [ (str "residential", [str "r1"; str "r2"; str "r3"]); (str "spare", []) ];
     direct_fallback := true;
     _indices := <[str "residential" := 4]> (<[str "spare" := 0]> ∅) |}.

(** Two layers under one name share one counter. *)
Definition pm_same_name : ProxyManager :=
  {| layers := [ (str "pool", [str "a1"; str "a2"]); (str "pool", [str "b1"; str "b2"]) ];
     direct_fallback := true;
     _indices := <[str "pool" := 0]> ∅ |}.

(** Two layers declared under one name; [rev_shuffle] makes the manager
    [pm_same_name] of them. *)
Definition layers_same_name : list ProxyLayer :=
  [ {| name := str "pool"; proxies := [str "a2"; str "a1"] |};
    {| name := str "pool"; proxies := [str "b2"; str "b1"] |} ].

(** No proxy layer is declared: every attempt has the direct pick only. *)
Definition pm_direct_only : ProxyManager :=
  {| layers := []; direct_fallback := true; _indices := ∅ |}.

(** An engine on which every navigation times out. *)
Definition browser_unreachable : Browser := fun _ =>
  {| on_new_context := None; on_new_page := None;
     on_goto := Some PWTimeoutError; on_wait := None; on_close := None;
     the_page := rendered [] (fun _ => None) |}.

(** The default configuration with a retry budget of [r]. *)
Definition config_with_retries (r : Z) : Config :=
  {| headless := headless default_config; timeout_ms := timeout_ms default_config;
     navigation_wait := navigation_wait default_config;
     concurrency := concurrency default_config; viewport := viewport default_config;
     locale := locale default_config; timezone_id := timezone_id default_config;
     user_agent := user_agent default_config;
     retries := r;
     backoff_seconds := backoff_seconds default_config;
     max_backoff_seconds := max_backoff_seconds default_config;
     proxy_layers := proxy_layers default_config; targets := targets default_config |}.

(** [last_error] holds what the latest session's navigation raised. *)
Definition last_seen (browser : Browser) (last : option exn) (w : World) : Prop :=
  last = match requested w with
         | O => None
         | S k => on_goto (browser k)
         end.

(** ** Further declarative readings, for Part III *)

(** The first code point is whitespace. *)
Definition head_space (s : pystr) : bool :=
  match s with
  | c :: _ => isspace c
  | [] => false
  end.

(** A normalized text: no whitespace at either end, and inside only single
    spaces. The empty text is one. *)
Definition normal_text (s : pystr) : Prop :=
  head_space s = false
  ∧ head_space (rev s) = false
  ∧ spaced false s = true
  ∧ ∀ c, c ∈ s → isspace c = true → c = SPACE.

(** The texts [re.fullmatch(r"[A-Z]{2,3}", s)] accepts. *)
Definition is_region (s : pystr) : Prop :=
  (length s = 2 ∨ length s = 3) ∧ Forall (fun c => is_AZ c = true) s.

(** [i] is where [x] first stands in [l]. *)
Definition first_at (l : list pystr) (x : pystr) (i : nat) : Prop :=
  l !! i = Some x ∧ ∀ j, j < i → l !! j ≠ Some x.

(** The three headings [parse_profile] looks for. *)
Definition HEADINGS : list pystr :=
  [str "Community Activities"; str "Life"; str "Created Characters"].

(** The page query under the heading [h] that ends as [r] does: the count
    of the heading, or the inner texts of the items when there is one. *)
Definition section_query_ends {A} (page : Page) (h : pystr) (r : result A) : Prop :=
  match r with
  | Ok _ => False
  | Raise e =>
      heading_count page h = Raise e
      ∨ (∃ n, heading_count page h = Ok (S n)) ∧ items_all_inner_texts page h = Raise e
  | Diverge =>
      heading_count page h = Diverge
      ∨ (∃ n, heading_count page h = Ok (S n)) ∧ items_all_inner_texts page h = Diverge
  end.

(** Two computations end the same way without a value: with the same
    exception, or both out of fuel. *)
Definition ends_like {A B} (r : result A) (r' : result B) : Prop :=
  match r, r' with
  | Raise e, Raise e' => e = e'
  | Diverge, Diverge => True
  | _, _ => False
  end.

(** The separator that is left in a normalized line: space, colon, space. *)
Definition SEP : pystr := str " : ".

(** The name lines of the character sub-parse: every second line, from the
    first. *)
Fixpoint name_lines (lines : list pystr) : list pystr :=
  match lines with
  | [] => []
  | [name_line] => [name_line]
  | name_line :: _ :: more => name_line :: name_lines more
  end.

(** The name the character sub-parse takes from a name line. *)
Definition stripped_name (name_line : pystr) : pystr :=
  _clean (remove_all MAIN_CHARACTER name_line).

(** How many layers with endpoints bear the name [n]. *)
Definition layers_named (n : pystr) (ls : list (pystr * list pystr)) : nat :=
  length (List.filter (fun l => nonempty l && bool_decide (l.1 = n)) ls).

(** The [proxy] entry of the context arguments: set when the pick's proxy
    is truthy. *)
Definition proxy_arg (pick : ProxyPick) : option pystr :=
  match proxy pick with
  | Some p => if truthy p then Some p else None
  | None => None
  end.

(** The engine serves a session without raising in any of its calls. *)
Definition serves_cleanly (s : Session) : Prop :=
  on_new_context s = None ∧ on_new_page s = None ∧ on_goto s = None
  ∧ on_wait s = None ∧ on_close s = None.

(** The events of the session [k] for [pick] when nothing raised in it. *)
Definition clean_session (k : nat) (url : pystr) (pick : ProxyPick) : list event :=
  [NewContext k (proxy_arg pick); NewPage k; Goto k url; Wait k; Parse k; Close k].

(** The viewport dictionary lacks one of the keys [new_context] reads. *)
Definition viewport_incomplete (cfg : Config) : Prop :=
  viewport cfg !! str "width" = None ∨ viewport cfg !! str "height" = None.

(** An engine that serves every session, showing a page without sections. *)
Definition browser_reachable : Browser := fun _ =>
  {| on_new_context := None; on_new_page := None;
     on_goto := None; on_wait := None; on_close := None;
     the_page := rendered (str "Adventurer Profile") (fun _ => None) |}.

(** A configuration whose viewport gives the width only. *)
Definition config_without_height : Config :=
  {| headless := headless default_config; timeout_ms := timeout_ms default_config;
     navigation_wait := navigation_wait default_config;
     concurrency := concurrency default_config;
     viewport := <[str "width" := 1280%Z]> ∅;
     locale := locale default_config; timezone_id := timezone_id default_config;
     user_agent := user_agent default_config;
     retries := 2;
     backoff_seconds := backoff_seconds default_config;
     max_backoff_seconds := max_backoff_seconds default_config;
     proxy_layers := proxy_layers default_config; targets := targets default_config |}.

(** The number of picks one call of [candidates] returns. *)
Definition picks_per_call (pm : ProxyManager) : nat :=
  length (List.filter nonempty (layers pm)) + (if direct_fallback pm then 1 else 0).

(* ================================================================== *)
(** * Part II: properties                                              *)
(* ================================================================== *)

(** ** Normalized text has no line feed *)

Lemma sub_ws_no_LF b s : LF ∉ sub_ws b s.
Proof.
  revert b; induction s as [|c t IH]; intros b; simpl.
  - apply not_elem_of_nil.
  - destruct (isspace c) eqn:Hc.
    + destruct b; [apply IH|].
      rewrite not_elem_of_cons; split; [discriminate | apply IH].
    + rewrite not_elem_of_cons; split; [|apply IH].
      intros <-. discriminate Hc.
Qed.

Lemma elem_of_lstrip x s : x ∈ lstrip s → x ∈ s.
Proof.
  induction s as [|c t IH]; simpl; [done|].
  destruct (isspace c); [|done].
  intros H. rewrite elem_of_cons. right. by apply IH.
Qed.

Lemma elem_of_strip x s : x ∈ strip s → x ∈ s.
Proof.
  unfold strip, rstrip. rewrite list_elem_of_In, <- in_rev, <- list_elem_of_In.
  intros H%elem_of_lstrip. apply elem_of_lstrip.
  by rewrite list_elem_of_In, in_rev, <- list_elem_of_In.
Qed.

Lemma _clean_no_LF t : LF ∉ _clean t.
Proof. intros H%elem_of_strip. by apply sub_ws_no_LF in H. Qed.

Lemma split_lf_no_LF s : LF ∉ s → split_lf s = [s].
Proof.
  induction s as [|c t IH]; simpl; [done|].
  rewrite not_elem_of_cons. intros [Hc Ht].
  destruct (N.eqb_spec c LF) as [->|_]; [done|].
  by rewrite IH.
Qed.

(** After normalization the body is one line at most. *)
Lemma lines_of_cases t : lines_of t = [] ∨ lines_of t = [_clean t].
Proof.
  unfold lines_of. rewrite split_lf_no_LF by apply _clean_no_LF.
  simpl. destruct (truthy (_clean t)); auto.
Qed.

Lemma anchor_scan_nil : anchor_scan [] = Ok (None, None).
Proof. reflexivity. Qed.

Lemma anchor_scan_singleton x : anchor_scan [x] = Ok (None, None).
Proof.
  unfold anchor_scan. destruct (inlist ADVENTURER_PROFILE [x]) eqn:Hin; [|done].
  apply bool_decide_eq_true_1, list_elem_of_singleton in Hin. subst x.
  reflexivity.
Qed.

Lemma anchor_scan_lines_of t : anchor_scan (lines_of t) = Ok (None, None).
Proof.
  destruct (lines_of_cases t) as [-> | ->];
    [apply anchor_scan_nil | apply anchor_scan_singleton].
Qed.

(** ** The character loop ends and reads the lines in pairs *)

Lemma getitem_drop {A} (l : list A) i x t : drop i l = x :: t → getitem l i = Ok x.
Proof.
  intros H. unfold getitem.
  assert (l !! i = Some x) as ->; [|done].
  rewrite <- (Nat.add_0_r i), <- lookup_drop, H. done.
Qed.

Lemma characters_loop_spec fuel raw i acc :
  length raw - i ≤ 2 * fuel →
  characters_loop fuel raw i acc = Ok (acc ++ characters_of (drop i raw)).
Proof.
  revert i acc. induction fuel as [|fuel IH]; intros i acc Hfuel.
  - assert (length raw ≤ i) as Hi by lia.
    simpl. destruct (Nat.ltb_spec i (length raw)); [lia|]. simpl.
    rewrite drop_ge by done. by rewrite app_nil_r.
  - simpl. destruct (Nat.ltb_spec i (length raw)) as [Hi|Hi]; simpl.
    + remember (drop i raw) as d eqn:Hd. symmetry in Hd. destruct d as [|x t].
      { apply (f_equal length) in Hd. rewrite length_drop in Hd. simpl in Hd. lia. }
      rewrite (getitem_drop _ _ _ _ Hd). simpl.
      assert (drop (i + 1) raw = t) as Ht.
      { rewrite <- drop_drop, Hd. done. }
      assert (drop (i + 2) raw = drop 1 t) as Ht2.
      { replace (i + 2) with (i + 1 + 1) by lia. rewrite <- drop_drop, Ht. done. }
      destruct (Nat.ltb_spec (i + 1) (length raw)) as [Hi1|Hi1].
      * destruct t as [|y t'].
        { apply (f_equal length) in Ht. rewrite length_drop in Ht. simpl in Ht. lia. }
        rewrite (getitem_drop _ _ _ _ Ht). simpl.
        unfold character_of. simpl.
        destruct (class_level_re y) as [[g1 g2]|]; simpl;
          rewrite IH by lia; rewrite Ht2; simpl;
          destruct (truthy _); simpl; by rewrite <- ?app_assoc.
      * destruct t as [|y t'].
        2:{ apply (f_equal length) in Ht. rewrite length_drop in Ht. simpl in Ht. lia. }
        simpl. rewrite IH by lia. rewrite Ht2. simpl.
        unfold character_of. simpl.
        destruct (truthy _); simpl; by rewrite ?app_nil_r.
    + rewrite drop_ge by lia. by rewrite app_nil_r.
Qed.

Lemma characters_loop_total raw :
  characters_loop (length raw) raw 0 [] = Ok (characters_of raw).
Proof. rewrite characters_loop_spec by lia. done. Qed.

(** ** [parse_profile] on a rendered page *)

Lemma _extract_section_list_rendered body sections h :
  _extract_section_list (rendered body sections) h = Ok (section_of sections h).
Proof.
  unfold _extract_section_list, section_of. simpl.
  destruct (sections h); reflexivity.
Qed.

Lemma parse_profile_rendered body sections url :
  parse_profile (rendered body sections) url =
  Ok {| source_url := url; region := None; family_name := None;
        community := community_of (section_of sections (str "Community Activities"));
        life_raw := section_of sections (str "Life");
        characters := characters_of (section_of sections (str "Created Characters")) |}.
Proof.
  unfold parse_profile.
  rewrite !_extract_section_list_rendered. simpl.
  rewrite anchor_scan_lines_of. simpl.
  rewrite characters_loop_total. done.
Qed.

(** The anchor scan itself, given the three lines of the example, finds the
    region and the family name. *)
Lemma anchor_scan_EU_Doe rest :
  anchor_scan (ADVENTURER_PROFILE :: str "EU" :: str "Doe" :: rest)
  = Ok (Some (str "EU"), Some (str "Doe")).
Proof.
  unfold anchor_scan.
  change (inlist _ _) with (bool_decide (ADVENTURER_PROFILE ∈ ADVENTURER_PROFILE :: str "EU" :: str "Doe" :: rest)).
  rewrite bool_decide_eq_true_2 by apply list_elem_of_here.
  cbn [index]. rewrite bool_decide_eq_true_2 by done. cbn [mbind result_bind].
  unfold slice. replace (0 + 15 - 0) with 15 by lia. cbn [drop].
  remember (take 12 rest) as w eqn:Hw.
  change (take 15 _) with (ADVENTURER_PROFILE :: str "EU" :: str "Doe" :: take 12 rest).
  rewrite <- Hw. cbn [length].
  unfold py_range.
  replace (Z.to_nat (Z.of_nat (S (S (S (length w)))) - 1 - 0)) with (S (S (length w))) by lia.
  reflexivity.
Qed.

(** C3: whatever the body text, the normalized text has no line feed left,
    so the line list has at most one line, the anchor scan assigns nothing,
    and [parse_profile] returns [region = None] and [family_name = None];
    this holds on every page on which [parse_profile] returns at all. *)
Theorem C3_region_and_family_never_assigned (body : pystr)
    (sections : pystr → option (list pystr)) (url : pystr) :
  length (lines_of body) ≤ 1
  ∧ anchor_scan (lines_of body) = Ok (None, None)
  ∧ (∃ r, parse_profile (rendered body sections) url = Ok r
          ∧ region r = None ∧ family_name r = None)
  ∧ (∀ page r, parse_profile page url = Ok r →
               region r = None ∧ family_name r = None).
Proof.
  split_and!.
  - destruct (lines_of_cases body) as [-> | ->]; simpl; lia.
  - apply anchor_scan_lines_of.
  - rewrite parse_profile_rendered. eauto.
  - intros page r. unfold parse_profile.
    destruct (body_inner_text page) as [t| |]; simpl; try discriminate.
    rewrite anchor_scan_lines_of. simpl.
    destruct (_extract_section_list page (str "Community Activities")) as [c| |];
      simpl; try discriminate.
    destruct (_extract_section_list page (str "Life")) as [l| |];
      simpl; try discriminate.
    destruct (_extract_section_list page (str "Created Characters")) as [cr| |];
      simpl; try discriminate.
    destruct (characters_loop _ _ _ _) as [ch| |]; simpl; try discriminate.
    intros [= <-]. done.
Qed.

(** C2 (evaluation at the failing input): on a page whose visible text is
    the three lines "Adventurer Profile", "EU", "Doe", the lines are merged
    into one by the normalization and [parse_profile] returns neither
    region nor family name, although the anchor scan on those three lines
    would give "EU" and "Doe". *)
Theorem C2_anchor_lines_are_merged :
  let body := unlines [ADVENTURER_PROFILE; str "EU"; str "Doe"] in
  anchor_scan [ADVENTURER_PROFILE; str "EU"; str "Doe"]
    = Ok (Some (str "EU"), Some (str "Doe"))
  ∧ lines_of body = [str "Adventurer Profile EU Doe"]
  ∧ ∃ r, parse_profile (rendered body (fun _ => None)) (str "https://example.test/p") = Ok r
         ∧ region r = None ∧ family_name r = None.
Proof.
  split; [apply anchor_scan_EU_Doe|].
  split; [reflexivity|].
  rewrite parse_profile_rendered. eauto.
Qed.

(** C9: on every rendered page (any body text, any list items under each of
    the three headings, or no heading at all) [parse_profile] returns a
    record; without the anchor line, region and family name are unset; a
    missing heading gives an empty mapping or list. *)
Theorem C9_parse_profile_never_raises (body : pystr)
    (sections : pystr → option (list pystr)) (url : pystr) :
  (∀ h, sections h = None → _extract_section_list (rendered body sections) h = Ok [])
  ∧ ∃ r, parse_profile (rendered body sections) url = Ok r
      ∧ source_url r = url
      ∧ (ADVENTURER_PROFILE ∉ lines_of body → region r = None ∧ family_name r = None)
      ∧ (sections (str "Community Activities") = None → community r = ∅)
      ∧ (sections (str "Life") = None → life_raw r = [])
      ∧ (sections (str "Created Characters") = None → characters r = []).
Proof.
  split.
  - intros h Hh. rewrite _extract_section_list_rendered. unfold section_of. by rewrite Hh.
  - rewrite parse_profile_rendered. eexists; split; [done|]. simpl.
    unfold section_of.
    repeat split; try done; intros ->; done.
Qed.

(** ** Proxy rotation *)

Lemma getitem_lt {A} (l : list A) i : i < length l → ∃ x, getitem l i = Ok x ∧ l !! i = Some x.
Proof.
  intros [x Hx]%lookup_lt_is_Some. exists x. unfold getitem. by rewrite Hx.
Qed.

Lemma truthy_length {A} (l : list A) : truthy l = true → 0 < length l.
Proof. destruct l; simpl; [discriminate | lia]. Qed.

(** The shape of what the loop of [candidates] appends, for any counters. *)
Lemma candidates_loop_shape ls indices picks :
  (∀ l, l ∈ ls → is_Some (indices !! l.1)) →
  ∃ new indices',
    candidates_loop ls indices picks = Ok (picks ++ new, indices')
    ∧ Forall2 picked_from new (List.filter nonempty ls)
    ∧ (∀ n, is_Some (indices !! n) → is_Some (indices' !! n)).
Proof.
  revert indices picks. induction ls as [|[n ps] ls IH]; intros indices picks Hc.
  - exists [], indices. simpl. rewrite app_nil_r. by repeat split.
  - simpl. unfold nonempty at 1. simpl.
    destruct (truthy ps) eqn:Hps; simpl.
    + destruct (Hc (n, ps)) as [c Hcn]; [apply list_elem_of_here|]. simpl in Hcn.
      unfold getkey. rewrite Hcn. simpl.
      destruct (getitem_lt ps (c mod length ps)) as (e & -> & He).
      { apply Nat.mod_upper_bound. apply truthy_length in Hps. lia. }
      simpl.
      destruct (IH (<[n:=c + 1]> indices) (picks ++ [{| layer := n; proxy := Some e |}]))
        as (new & indices' & -> & Hnew & Hdom).
      { intros l Hl. destruct (decide (n = l.1)) as [->|Hne].
        - rewrite lookup_insert_eq. eauto.
        - rewrite lookup_insert_ne by done. apply Hc. by apply list_elem_of_further. }
      exists ({| layer := n; proxy := Some e |} :: new), indices'.
      split; [by rewrite <- app_assoc|]. split.
      * constructor; [|done]. split; [done|]. exists e. split; [done|].
        simpl. by apply list_elem_of_lookup_2 in He.
      * intros m Hm. apply Hdom. destruct (decide (n = m)) as [->|Hne].
        -- rewrite lookup_insert_eq. eauto.
        -- by rewrite lookup_insert_ne.
    + apply IH. intros l Hl. apply Hc. by apply list_elem_of_further.
Qed.

(** With distinct layer names, every layer reads its counter as it was
    before the call, and is the only one to advance it. *)
Lemma candidates_loop_nodup ls indices picks :
  NoDup (List.map fst ls) →
  (∀ l, l ∈ ls → is_Some (indices !! l.1)) →
  ∃ indices',
    candidates_loop ls indices picks
      = Ok (picks ++ List.map (pick_of indices) (List.filter nonempty ls), indices')
    ∧ (∀ l, l ∈ ls → nonempty l = true → indices' !! l.1 = S <$> indices !! l.1)
    ∧ (∀ n, n ∉ List.map fst ls → indices' !! n = indices !! n).
Proof.
  revert indices picks. induction ls as [|[n ps] ls IH]; intros indices picks Hnd Hc.
  - exists indices. simpl. rewrite app_nil_r. split; [done|]. split; [|done].
    intros l Hl. by apply elem_of_nil in Hl.
  - simpl in Hnd. apply NoDup_cons in Hnd as [Hn Hnd].
    simpl. unfold nonempty at 1. simpl.
    destruct (truthy ps) eqn:Hps; simpl.
    + destruct (Hc (n, ps)) as [c Hcn]; [apply list_elem_of_here|]. simpl in Hcn.
      unfold getkey. rewrite Hcn. simpl.
      destruct (getitem_lt ps (c mod length ps)) as (e & -> & He).
      { apply Nat.mod_upper_bound. apply truthy_length in Hps. lia. }
      simpl.
      destruct (IH (<[n:=c + 1]> indices) (picks ++ [{| layer := n; proxy := Some e |}]) Hnd)
        as (indices' & -> & Hadv & Hkeep).
      { intros l Hl. destruct (decide (n = l.1)) as [->|Hne].
        - rewrite lookup_insert_eq. eauto.
        - rewrite lookup_insert_ne by done. apply Hc. by apply list_elem_of_further. }
      assert (∀ l, l ∈ ls → n ≠ l.1) as Hfresh.
      { intros l Hl ->. apply Hn. apply list_elem_of_fmap. eauto. }
      exists indices'. split; [|split].
      * rewrite <- app_assoc. simpl.
        assert (pick_of indices (n, ps) = {| layer := n; proxy := Some e |}) as ->.
        { unfold pick_of. simpl. rewrite Hcn. simpl. by rewrite He. }
        assert (List.map (pick_of (<[n:=c + 1]> indices)) (List.filter nonempty ls)
                = List.map (pick_of indices) (List.filter nonempty ls)) as ->; [|done].
        apply map_ext_in. intros l Hl%filter_In%proj1%list_elem_of_In.
        unfold pick_of. by rewrite lookup_insert_ne by by apply Hfresh.
      * intros l [->|Hl]%elem_of_cons Hne.
        -- simpl. rewrite Hkeep by done. rewrite lookup_insert_eq, Hcn. simpl.
           f_equal. lia.
        -- rewrite Hadv by done. by rewrite lookup_insert_ne by by apply Hfresh.
      * intros m Hm. simpl in Hm. apply not_elem_of_cons in Hm as [Hm1 Hm2].
        rewrite Hkeep by done. by rewrite lookup_insert_ne.
    + destruct (IH indices picks Hnd) as (indices' & -> & Hadv & Hkeep).
      { intros l Hl. apply Hc. by apply list_elem_of_further. }
      exists indices'. split; [done|]. split.
      * intros l [->|Hl]%elem_of_cons Hne.
        -- unfold nonempty in Hne. simpl in Hne. congruence.
        -- by apply Hadv.
      * intros m Hm. simpl in Hm. apply not_elem_of_cons in Hm as [Hm1 Hm2].
        by apply Hkeep.
Qed.

Lemma candidates_shape pm :
  counters_ok pm →
  ∃ new pm',
    candidates pm = Ok (new ++ (if direct_fallback pm then [DIRECT] else []), pm')
    ∧ Forall2 picked_from new (List.filter nonempty (layers pm))
    ∧ layers pm' = layers pm
    ∧ direct_fallback pm' = direct_fallback pm
    ∧ counters_ok pm'.
Proof.
  intros Hc. unfold candidates.
  destruct (candidates_loop_shape (layers pm) (_indices pm) [] Hc)
    as (new & indices' & -> & Hnew & Hdom).
  simpl. exists new, {| layers := layers pm; direct_fallback := direct_fallback pm;
                         _indices := indices' |}.
  split_and!; try done.
  - destruct (direct_fallback pm); by rewrite ?app_nil_r.
  - intros l Hl. simpl. apply Hdom, Hc, Hl.
Qed.

Lemma candidates_nodup pm :
  NoDup (List.map fst (layers pm)) →
  counters_ok pm →
  ∃ pm',
    candidates pm
      = Ok (List.map (pick_of (_indices pm)) (List.filter nonempty (layers pm))
            ++ (if direct_fallback pm then [DIRECT] else []), pm')
    ∧ layers pm' = layers pm
    ∧ direct_fallback pm' = direct_fallback pm
    ∧ counters_ok pm'
    ∧ (∀ l, l ∈ layers pm → nonempty l = true →
            _indices pm' !! l.1 = S <$> _indices pm !! l.1).
Proof.
  intros Hnd Hc. unfold candidates.
  destruct (candidates_loop_shape (layers pm) (_indices pm) [] Hc)
    as (new & indices' & Heq & _ & Hdom).
  destruct (candidates_loop_nodup (layers pm) (_indices pm) [] Hnd Hc)
    as (indices'' & Heq' & Hadv & Hkeep).
  rewrite Heq' in Heq. injection Heq as _ ->.
  rewrite Heq'. simpl.
  exists {| layers := layers pm; direct_fallback := direct_fallback pm;
            _indices := indices' |}.
  split_and!; try done.
  - destruct (direct_fallback pm); by rewrite ?app_nil_r.
  - intros l Hl. simpl. apply Hdom, Hc, Hl.
Qed.

Lemma calls_shape k pm :
  counters_ok pm →
  ∃ pss pm',
    calls k pm = Ok (pss, pm')
    ∧ length pss = k
    ∧ layers pm' = layers pm
    ∧ direct_fallback pm' = direct_fallback pm
    ∧ counters_ok pm'.
Proof.
  revert pm. induction k as [|k IH]; intros pm Hc.
  - exists [], pm. by simpl.
  - destruct (candidates_shape pm Hc) as (new & pm1 & Heq & _ & Hl1 & Hd1 & Hc1).
    destruct (IH pm1 Hc1) as (pss & pm2 & Heq2 & Hlen & Hl2 & Hd2 & Hc2).
    simpl. rewrite Heq. simpl. rewrite Heq2. simpl.
    eexists _, pm2. split_and!; try done; simpl; congruence.
Qed.

(** The [j]-th of [k] calls selects, in a layer of length [L] whose counter
    holds [c], the endpoint at index [(c + j) mod L]. *)
Lemma calls_rotation k pm l c :
  NoDup (List.map fst (layers pm)) →
  counters_ok pm →
  l ∈ layers pm → nonempty l = true →
  _indices pm !! l.1 = Some c →
  ∃ pss pm',
    calls k pm = Ok (pss, pm')
    ∧ layers pm' = layers pm
    ∧ _indices pm' !! l.1 = Some (c + k)
    ∧ ∀ j, j < k →
        ∃ picks, pss !! j = Some picks
                 ∧ {| layer := l.1; proxy := l.2 !! ((c + j) mod length l.2) |} ∈ picks.
Proof.
  revert pm c. induction k as [|k IH]; intros pm c Hnd Hc Hl Hne Hcn.
  - exists [], pm. simpl. rewrite Nat.add_0_r. split_and!; try done. intros j Hj. lia.
  - destruct (candidates_nodup pm Hnd Hc) as (pm1 & Heq & Hl1 & Hd1 & Hc1 & Hadv).
    destruct (IH pm1 (c + 1)) as (pss & pm2 & Heq2 & Hl2 & Hcn2 & Hsel).
    { by rewrite Hl1. } { done. } { by rewrite Hl1. } { done. }
    { rewrite Hadv by done. rewrite Hcn. simpl. f_equal. lia. }
    simpl. rewrite Heq. simpl. rewrite Heq2. simpl.
    eexists _, pm2. split_and!; try done.
    + congruence.
    + rewrite Hcn2. f_equal. lia.
    + intros [|j] Hj.
      * eexists. split; [done|]. rewrite Nat.add_0_r.
        apply elem_of_app. left. apply list_elem_of_fmap.
        exists l. split.
        -- unfold pick_of. by rewrite Hcn.
        -- apply list_elem_of_In, filter_In. split; [by apply list_elem_of_In | done].
      * destruct (Hsel j) as (picks & Hp & Hin); [lia|].
        exists picks. split; [done|].
        by replace (c + S j) with (c + 1 + j) by lia.
Qed.

(** Counting on from [c], every index below [L] comes up within [L] steps. *)
Lemma rotation_reaches c L i : i < L → ∃ j, j < L ∧ (c + j) mod L = i.
Proof.
  intros Hi. exists ((i + (L - c mod L)) mod L).
  assert (c mod L < L) as Hc by (apply Nat.mod_upper_bound; lia).
  split; [apply Nat.mod_upper_bound; lia|].
  rewrite Nat.Div0.add_mod_idemp_r.
  rewrite <- Nat.Div0.add_mod_idemp_l.
  replace (c mod L + (i + (L - c mod L))) with (i + 1 * L) by lia.
  rewrite Nat.Div0.mod_add. by apply Nat.mod_small.
Qed.

(** *** [__init__] *)

Lemma init_indices (ls : list (pystr * list pystr)) (d : gmap pystr nat) n :
  fold_left (fun d l => <[l.1 := 0]> d) ls d !! n
  = if bool_decide (n ∈ List.map fst ls) then Some 0 else d !! n.
Proof.
  revert d. induction ls as [|l ls IH]; intros d; simpl; [done|].
  rewrite IH. destruct (decide (n ∈ List.map fst ls)) as [Hin|Hin].
  - rewrite !bool_decide_eq_true_2; [done | by apply list_elem_of_further | done].
  - rewrite (bool_decide_eq_false_2 _ Hin).
    destruct (decide (l.1 = n)) as [<-|Hne].
    + rewrite lookup_insert_eq.
      by rewrite bool_decide_eq_true_2 by apply list_elem_of_here.
    + rewrite lookup_insert_ne by done.
      rewrite bool_decide_eq_false_2; [done|].
      rewrite not_elem_of_cons. split; [congruence | done].
Qed.

Section InitFacts.
Context {rng : Type} (shuffle : rng → list pystr → list pystr * rng).
Hypothesis shuffle_perm : ∀ g l, Permutation l (shuffle g l).1.

Lemma shuffle_layers_spec g ls :
  Forall2 (fun a b => b.1 = a.1 ∧ Permutation a.2 b.2) ls (shuffle_layers shuffle g ls).1.
Proof using shuffle_perm.
  revert g. induction ls as [|[n ps] ls IH]; intros g; simpl; [constructor|].
  pose proof (shuffle_perm g ps) as Hp.
  destruct (shuffle g ps) as [ps' g'] eqn:Hs. simpl in Hp.
  specialize (IH g'). destruct (shuffle_layers shuffle g' ls) as [more g''] eqn:Hm.
  simpl in *. constructor; [by split | done].
Qed.

(** The manager [__init__] builds: the declared layers in their order,
    each endpoint list permuted, every counter at 0. *)
Lemma init_spec declared direct g :
  let pm := (__init__ shuffle declared direct g).1 in
  Forall2 (fun d l => l.1 = name d ∧ Permutation (proxies d) l.2) declared (layers pm)
  ∧ direct_fallback pm = direct
  ∧ counters_ok pm
  ∧ (∀ l, l ∈ layers pm → _indices pm !! l.1 = Some 0).
Proof using shuffle_perm.
  unfold __init__.
  pose proof (shuffle_layers_spec g (List.map (fun l => (name l, proxies l)) declared)) as Hs.
  destruct (shuffle_layers shuffle g _) as [shuffled g'] eqn:Hsh. simpl in *.
  assert (∀ l, l ∈ shuffled →
            fold_left (fun d l => <[l.1 := 0]> d) shuffled (∅ : gmap pystr nat) !! l.1 = Some 0)
    as Hzero.
  { intros l Hl. rewrite init_indices.
    rewrite bool_decide_eq_true_2; [done|]. apply list_elem_of_fmap. eauto. }
  split_and!; try done.
  - clear -Hs. revert shuffled Hs. induction declared as [|d ds IH]; intros sh Hs.
    + inversion Hs. constructor.
    + simpl in Hs. inversion Hs as [|? y ? sh' [H1 H2] Hrest]; subst.
      constructor; [by split | by apply IH].
  - intros l Hl. rewrite Hzero by done. eauto.
Qed.

(** Distinct declared names give a manager [candidates] can rotate: its
    hypotheses in the rotation lemmas hold from the start. *)
Lemma init_ready declared direct g :
  NoDup (List.map name declared) →
  NoDup (List.map fst (layers (__init__ shuffle declared direct g).1))
  ∧ counters_ok (__init__ shuffle declared direct g).1.
Proof using shuffle_perm.
  intros Hnd. destruct (init_spec declared direct g) as (Hlay & _ & Hc & _).
  split; [|done].
  assert (List.map fst (layers (__init__ shuffle declared direct g).1)
          = List.map name declared) as ->; [|done].
  clear Hnd Hc. simpl in Hlay.
  induction Hlay as [|d l ds ls [Hn _] _ IH]; simpl; [done|].
  by rewrite Hn, IH.
Qed.
End InitFacts.

Lemma counters_ok_Forall pm :
  Forall (fun l => is_Some (_indices pm !! l.1)) (layers pm) → counters_ok pm.
Proof. intros H l Hl. by eapply Forall_forall in H. Qed.

Lemma NoDup_fst_inj (ls : list (pystr * list pystr)) l l' :
  NoDup (List.map fst ls) → l ∈ ls → l' ∈ ls → l.1 = l'.1 → l = l'.
Proof.
  induction ls as [|x ls IH]; simpl; intros Hnd Hl Hl' Heq.
  - by apply elem_of_nil in Hl.
  - apply NoDup_cons in Hnd as [Hx Hnd].
    apply elem_of_cons in Hl as [->|Hl]; apply elem_of_cons in Hl' as [->|Hl']; try done.
    + exfalso. apply Hx. rewrite Heq. apply list_elem_of_fmap. eauto.
    + exfalso. apply Hx. rewrite <- Heq. apply list_elem_of_fmap. eauto.
    + by apply IH.
Qed.

Lemma picks_of_declared (declared : list ProxyLayer) ls new :
  Forall2 (fun d l => l.1 = name d ∧ Permutation (proxies d) l.2) declared ls →
  Forall2 picked_from new (List.filter nonempty ls) →
  Forall2 (fun pick d => layer pick = name d ∧ ∃ e, proxy pick = Some e ∧ e ∈ proxies d)
          new (List.filter (fun d => truthy (proxies d)) declared).
Proof.
  intros Hdl. revert new. induction Hdl as [|d l ds ls [Hn Hp] _ IH]; intros new Hnew.
  - simpl in *. inversion Hnew. constructor.
  - simpl in *. unfold nonempty at 1 in Hnew.
    assert (truthy (proxies d) = truthy l.2) as Ht.
    { destruct (proxies d) as [|a ps], l.2 as [|b qs]; try done.
      - by apply Permutation_nil_l in Hp.
      - by apply Permutation_nil_r in Hp. }
    rewrite Ht. destruct (truthy l.2).
    + inversion Hnew as [|p ? new' ? [Hlay (e & He & Hin)] Hrest]; subst.
      constructor; [|by apply IH].
      split; [congruence|]. exists e. split; [done|]. by rewrite Hp.
    + by apply IH.
Qed.

(** C6: from the declared layers, after any number of earlier calls, one
    call of [candidates] with direct fallback enabled returns one pick per
    declared layer that has endpoints, in the declared order, each bearing
    the layer's name and one of its endpoints, and then the direct pick,
    which has no endpoint; a layer without endpoints gives no pick. *)
Theorem C6_candidates_one_per_nonempty_layer {rng : Type}
    (shuffle : rng → list pystr → list pystr * rng)
    (shuffle_perm : ∀ g l, Permutation l (shuffle g l).1)
    (declared : list ProxyLayer) (g : rng) (k : nat) :
  ∃ pss pm picks pm',
    calls k (__init__ shuffle declared true g).1 = Ok (pss, pm)
    ∧ candidates pm = Ok (picks ++ [DIRECT], pm')
    ∧ proxy DIRECT = None
    ∧ Forall2 (fun pick d => layer pick = name d ∧ ∃ e, proxy pick = Some e ∧ e ∈ proxies d)
              picks (List.filter (fun d => truthy (proxies d)) declared).
Proof.
  destruct (init_spec shuffle shuffle_perm declared true g) as (Hlay & Hdir & Hc & _).
  destruct (calls_shape k _ Hc) as (pss & pm & Hcalls & _ & Hl & Hd & Hck).
  destruct (candidates_shape pm Hck) as (new & pm' & Hcand & Hnew & _).
  exists pss, pm, new, pm'. split_and!; try done.
  - rewrite Hcand. by rewrite Hd, Hdir.
  - eapply picks_of_declared; [exact Hlay|]. by rewrite <- Hl.
Qed.

Lemma C6_witness :
  ∃ pss pm picks pm',
    calls 3 (__init__ rev_shuffle layers_abc true tt).1 = Ok (pss, pm)
    ∧ candidates pm = Ok (picks ++ [DIRECT], pm')
    ∧ proxy DIRECT = None
    ∧ Forall2 (fun pick d => layer pick = name d ∧ ∃ e, proxy pick = Some e ∧ e ∈ proxies d)
              picks (List.filter (fun d => truthy (proxies d)) layers_abc).
Proof.
  apply (C6_candidates_one_per_nonempty_layer rev_shuffle).
  intros g l. simpl. apply Permutation_rev.
Defined.

(** Round-robin under distinct names: in a manager whose layer names are
    distinct, a layer with [L >= 1]
    endpoints whose counter holds [n] gives, at the next call of
    [candidates], the endpoint at index [n mod L] of its list and no other,
    and its counter becomes [n + 1]; the lists never change; after [k] calls
    the counter holds [n + k], and when [k >= L] every endpoint of the layer
    has been picked in one of them. *)
Theorem round_robin_coverage (pm : ProxyManager) (l : pystr * list pystr) (n : nat) :
  NoDup (List.map fst (layers pm)) →
  counters_ok pm →
  l ∈ layers pm →
  1 ≤ length l.2 →
  _indices pm !! l.1 = Some n →
  (∃ picks pm',
      candidates pm = Ok (picks, pm')
      ∧ {| layer := l.1; proxy := l.2 !! (n mod length l.2) |} ∈ picks
      ∧ (∀ e, {| layer := l.1; proxy := Some e |} ∈ picks →
              l.2 !! (n mod length l.2) = Some e)
      ∧ _indices pm' !! l.1 = Some (n + 1)
      ∧ layers pm' = layers pm)
  ∧ ∀ k, length l.2 ≤ k →
      ∃ pss pm',
        calls k pm = Ok (pss, pm')
        ∧ _indices pm' !! l.1 = Some (n + k)
        ∧ layers pm' = layers pm
        ∧ ∀ e, e ∈ l.2 →
            ∃ picks, picks ∈ pss ∧ {| layer := l.1; proxy := Some e |} ∈ picks.
Proof.
  intros Hnd Hc Hl HL Hn.
  assert (nonempty l = true) as Hne.
  { unfold nonempty. destruct l.2; simpl in *; [lia | done]. }
  split.
  - destruct (candidates_nodup pm Hnd Hc) as (pm' & Heq & Hl' & _ & _ & Hadv).
    eexists _, pm'. split; [exact Heq|]. split_and!.
    + apply elem_of_app. left. apply list_elem_of_fmap. exists l. split.
      * unfold pick_of. by rewrite Hn.
      * apply list_elem_of_In, filter_In. split; [by apply list_elem_of_In | done].
    + intros e [He|He]%elem_of_app.
      * apply list_elem_of_fmap in He as (l' & Hpick & Hl2).
        apply list_elem_of_In, filter_In in Hl2 as [Hl2%list_elem_of_In _].
        unfold pick_of in Hpick. injection Hpick as Hname He.
        assert (l = l') as <- by by apply (NoDup_fst_inj (layers pm)).
        rewrite Hn in He. done.
      * destruct (direct_fallback pm).
        -- apply list_elem_of_singleton in He. discriminate He.
        -- by apply elem_of_nil in He.
    + rewrite Hadv by done. rewrite Hn. simpl. f_equal. lia.
    + done.
  - intros k Hk.
    destruct (calls_rotation k pm l n Hnd Hc Hl Hne Hn) as (pss & pm' & Heq & Hl' & Hn' & Hsel).
    exists pss, pm'. split_and!; try done.
    intros e [i Hi]%list_elem_of_lookup.
    destruct (rotation_reaches n (length l.2) i) as (j & Hj & Hmod).
    { by eapply lookup_lt_Some. }
    destruct (Hsel j) as (picks & Hp & Hin); [lia|].
    exists picks. split; [by eapply list_elem_of_lookup_2|].
    by rewrite Hmod, Hi in Hin.
Qed.

Lemma round_robin_coverage_example :
  (∃ picks pm',
      candidates pm_mid_run = Ok (picks, pm')
      ∧ {| layer := str "residential"; proxy := Some (str "r2") |} ∈ picks
      ∧ (∀ e, {| layer := str "residential"; proxy := Some e |} ∈ picks →
              Some (str "r2") = Some e)
      ∧ _indices pm' !! str "residential" = Some 5
      ∧ layers pm' = layers pm_mid_run)
  ∧ ∀ k, 3 ≤ k →
      ∃ pss pm',
        calls k pm_mid_run = Ok (pss, pm')
        ∧ _indices pm' !! str "residential" = Some (4 + k)
        ∧ layers pm' = layers pm_mid_run
        ∧ ∀ e, e ∈ [str "r1"; str "r2"; str "r3"] →
            ∃ picks, picks ∈ pss ∧ {| layer := str "residential"; proxy := Some e |} ∈ picks.
Proof.
  apply (round_robin_coverage pm_mid_run
           (str "residential", [str "r1"; str "r2"; str "r3"]) 4).
  - apply (bool_decide_unpack _). vm_compute. exact I.
  - apply counters_ok_Forall. repeat constructor; eexists; vm_compute; reflexivity.
  - apply list_elem_of_here.
  - simpl. lia.
  - vm_compute. reflexivity.
Defined.

(** The distinct names are needed. Two layers under one name advance one
    counter twice per call, so the first always reads an even count and the
    second an odd one. *)
Lemma same_name_calls k c pm :
  layers pm = layers pm_same_name →
  direct_fallback pm = true →
  _indices pm !! str "pool" = Some (2 * c) →
  ∃ pss pm',
    calls k pm = Ok (pss, pm')
    ∧ length pss = k
    ∧ _indices pm' !! str "pool" = Some (2 * (c + k))
    ∧ Forall (fun picks =>
                picks = [ {| layer := str "pool"; proxy := Some (str "a1") |};
                          {| layer := str "pool"; proxy := Some (str "b2") |};
                          DIRECT ]) pss.
Proof.
  revert c pm. induction k as [|k IH]; intros c pm Hl Hd Hc.
  - exists [], pm. simpl. split_and!; try done. rewrite Hc. f_equal. lia.
  - set (pm1 := {| layers := layers pm_same_name; direct_fallback := true;
                   _indices := <[str "pool" := 2 * c + 1 + 1]>
                                 (<[str "pool" := 2 * c + 1]> (_indices pm)) |}).
    assert (candidates pm
            = Ok ([ {| layer := str "pool"; proxy := Some (str "a1") |};
                    {| layer := str "pool"; proxy := Some (str "b2") |};
                    DIRECT ], pm1)) as Hcand.
    { unfold candidates. rewrite Hl, Hd. simpl layers.
      cbn [candidates_loop truthy negb length]. unfold getkey. rewrite Hc.
      cbn -[Nat.modulo Nat.mul Nat.add str insert lookup].
      replace ((2 * c) mod 2) with 0 by (rewrite Nat.mul_comm, Nat.Div0.mod_mul; done).
      cbn -[Nat.modulo Nat.mul Nat.add str insert lookup].
      rewrite lookup_insert_eq. cbn -[Nat.modulo Nat.mul Nat.add str insert lookup].
      replace ((2 * c + 1) mod 2) with 1
        by (rewrite Nat.add_comm, Nat.mul_comm, Nat.Div0.mod_add; done).
      reflexivity. }
    destruct (IH (c + 1) pm1) as (pss & pm' & Hcalls & Hlen & Hidx & Hall); try done.
    { subst pm1. simpl. rewrite lookup_insert_eq. f_equal. lia. }
    eexists (_ :: pss), pm'. split_and!.
    + change (calls (S k) pm) with (r ← candidates pm; rs ← calls k r.2; Ok (r.1 :: rs.1, rs.2)).
      rewrite Hcand. simpl. rewrite Hcalls. reflexivity.
    + simpl. by rewrite Hlen.
    + rewrite Hidx. f_equal. lia.
    + by constructor.
Qed.

(** C7 (evaluation at the failing input): two layers are declared under one
    name, with two endpoints each. The manager [__init__] builds of them
    has one counter for both. Every call of [candidates] advances it twice,
    not once; the picks of every call are the first endpoint of the first
    layer and the second endpoint of the second; so after [k] calls, however
    many, the counter holds [2 * k] and the endpoints "a2" and "b1" have not
    been picked. *)
Theorem C7_shared_counter_skips_endpoints (k : nat) :
  (__init__ rev_shuffle layers_same_name true tt).1 = pm_same_name
  ∧ ∃ pss pm',
      calls k pm_same_name = Ok (pss, pm')
      ∧ length pss = k
      ∧ _indices pm' !! str "pool" = Some (2 * k)
      ∧ Forall (fun picks =>
                  picks = [ {| layer := str "pool"; proxy := Some (str "a1") |};
                            {| layer := str "pool"; proxy := Some (str "b2") |};
                            DIRECT ]) pss
      ∧ ∀ picks, picks ∈ pss →
          ({| layer := str "pool"; proxy := Some (str "a2") |} ∉ picks)
          ∧ ({| layer := str "pool"; proxy := Some (str "b1") |} ∉ picks).
Proof.
  split; [vm_compute; reflexivity|].
  destruct (same_name_calls k 0 pm_same_name) as (pss & pm' & Hcalls & Hlen & Hidx & Hall);
    try done.
  exists pss, pm'. split_and!; try done.
  intros picks Hin. eapply Forall_forall in Hall; [|exact Hin]. subst picks.
  split; intros H; repeat (apply elem_of_cons in H as [H|H]; [discriminate H|]);
    by apply elem_of_nil in H.
Qed.

(** ** Backoff *)

Lemma SFltb_irrefl a : SFltb a a = false.
Proof.
  unfold SFltb, SFcompare.
  destruct a as [s|s| |s m e]; try destruct s; try reflexivity;
    rewrite Z.compare_refl;
    change (PosDef.Pos.compare_cont Eq m m) with (Pos.compare m m);
    rewrite Pos.compare_refl; reflexivity.
Qed.

Lemma SFltb_asym a b : SFltb a b = true → SFltb b a = false.
Proof.
  unfold SFltb, SFcompare.
  destruct a as [s|s| |s m e], b as [s'|s'| |s' m' e'];
    try destruct s; try destruct s'; try reflexivity; try discriminate.
  all: rewrite (Z.compare_antisym e e'); destruct (e ?= e')%Z; simpl;
    try discriminate; try reflexivity.
  all: change (PosDef.Pos.compare_cont Eq m' m) with (Pos.compare m' m);
    change (PosDef.Pos.compare_cont Eq m m') with (Pos.compare m m');
    rewrite (Pos.compare_antisym m m'); destruct (m ?= m')%positive; simpl;
    try discriminate; reflexivity.
Qed.

(** [min(a, b)] is never above [a] (for a NaN no comparison holds). *)
Lemma py_min_le a b : (a <? py_min a b)%float = false.
Proof.
  unfold py_min. destruct (b <? a)%float eqn:Hba.
  - rewrite ltb_spec in *. by apply SFltb_asym.
  - rewrite ltb_spec. apply SFltb_irrefl.
Qed.

(** The delay, when one is computed, never exceeds the configured maximum. *)
Lemma backoff_never_exceeds_max cfg attempt d :
  backoff cfg attempt = Ok d → (max_backoff_seconds cfg <? d)%float = false.
Proof.
  unfold backoff. destruct (float_of_int _) as [p| |]; simpl; try discriminate.
  intros [= <-]. apply py_min_le.
Qed.

(** Powers of two up to [2 ** 1023] convert to a float. *)
Lemma float_of_int_pow2 e :
  (0 ≤ e ≤ 1023)%Z → ∃ p, float_of_int (2 ^ e) = Ok p.
Proof.
  intros He.
  assert (forallb (fun n => match float_of_int (2 ^ Z.of_nat n) with
                            | Ok _ => true
                            | _ => false
                            end) (seq 0 1024) = true) as Hall
    by (vm_compute; reflexivity).
  rewrite forallb_forall in Hall.
  specialize (Hall (Z.to_nat e)).
  rewrite Z2Nat.id in Hall by lia.
  destruct (float_of_int (2 ^ e)) as [p| |]; [by exists p | |];
    (discriminate Hall; apply in_seq; lia).
Qed.

(** For attempts 1 to 1024 the delay is the capped product. *)
Lemma backoff_in_range cfg attempt :
  (1 ≤ attempt ≤ 1024)%Z →
  ∃ p, float_of_int (2 ^ (attempt - 1)) = Ok p
       ∧ backoff cfg attempt
         = Ok (py_min (max_backoff_seconds cfg) (backoff_seconds cfg * p)%float).
Proof.
  intros Ha. destruct (float_of_int_pow2 (attempt - 1)) as [p Hp]; [lia|].
  exists p. split; [done|]. unfold backoff. by rewrite Hp.
Qed.

(** C8 (evaluation): with base 1.2 and maximum 10.0 the attempts 1 to 6 give
    the delays 1.2, 2.4, 4.8, 9.6, 10.0, 10.0, and every attempt up to 1024
    gives a delay that does not exceed the maximum; at attempt 1025 the
    integer [2 ** 1024] is too large to convert to a float and no delay is
    computed: the expression raises [OverflowError]. *)
Theorem C8_backoff_values_and_overflow :
  List.map (backoff default_config) [1; 2; 3; 4; 5; 6]%Z
    = [Ok 1.2; Ok 2.4; Ok 4.8; Ok 9.6; Ok 10.0; Ok 10.0]%float
  ∧ Forall (fun a => ∃ d, backoff default_config a = Ok d ∧ (10.0 <? d)%float = false)
           (py_range 1 1025)
  ∧ backoff default_config 1025 = Raise OverflowError.
Proof.
  split_and!.
  - vm_compute. reflexivity.
  - apply Forall_forall. intros a Ha.
    apply list_elem_of_In, in_map_iff in Ha as (n & <- & Hn%in_seq).
    destruct (backoff_in_range default_config (1 + Z.of_nat n)) as (p & _ & Hb).
    { change (Z.to_nat (1025 - 1)) with 1024 in Hn. lia. }
    eexists. split; [exact Hb|].
    apply (backoff_never_exceeds_max default_config _ _ Hb).
  - vm_compute. reflexivity.
Qed.

(** ** Sessions in [scrape_one] *)

Lemma sessions_run_app st t t' :
  sessions_run st (t ++ t') = sessions_run st t ≫= fun st' => sessions_run st' t'.
Proof.
  revert st. induction t as [|e t IH]; intros st; simpl; [done|].
  destruct (session_step st e) as [st'|]; simpl; [apply IH | done].
Qed.

Lemma sessions_run_page_events ctx next ops :
  Forall (fun e => is_page_event ctx e = true) ops →
  sessions_run (Some ctx, next) ops = Some (Some ctx, next).
Proof.
  induction 1 as [|e ops He _ IH]; simpl; [done|].
  destruct e; simpl in *; try discriminate; rewrite He; simpl; exact IH.
Qed.

Lemma page_event_is_session_event ctx e :
  is_page_event ctx e = true → is_session_event e = true.
Proof. by destruct e. Qed.

Section ScrapeFacts.
Variable cfg : Config.
Variable browser : Browser.
Variable url : pystr.

(** What the statements inside the context leave in the trace. *)
Lemma in_context_spec ctx pick w :
  ∃ ops,
    trace (in_context browser url ctx pick w).2 = trace w ++ ops
    ∧ requested (in_context browser url ctx pick w).2 = requested w
    ∧ mgr (in_context browser url ctx pick w).2 = mgr w
    ∧ Forall (fun e => is_page_event ctx e = true) ops
    ∧ (∀ data, (in_context browser url ctx pick w).1 = Ok data →
               ∃ ops', ops = ops' ++ [Parse ctx]).
Proof.
  unfold in_context, mbind, M_bind, mret, M_ret, log, raise_if, lift. simpl.
  destruct (on_new_page (browser ctx)); simpl.
  { exists [NewPage ctx]. split_and!; try done.
    repeat constructor; simpl; apply Nat.eqb_refl. }
  destruct (on_goto (browser ctx)); simpl.
  { exists [NewPage ctx; Goto ctx url]. rewrite <- !app_assoc. split_and!; try done.
    repeat constructor; simpl; apply Nat.eqb_refl. }
  destruct (on_wait (browser ctx)); simpl.
  { exists [NewPage ctx; Goto ctx url; Wait ctx]. rewrite <- !app_assoc.
    split_and!; try done. repeat constructor; simpl; apply Nat.eqb_refl. }
  exists [NewPage ctx; Goto ctx url; Wait ctx; Parse ctx].
  destruct (parse_profile (the_page (browser ctx)) url); simpl;
    rewrite <- !app_assoc; split_and!; try done;
    try (repeat constructor; simpl; apply Nat.eqb_refl).
  intros _ _. by exists [NewPage ctx; Goto ctx url; Wait ctx].
Qed.

(** One pass through [try] and [finally]: the events added are those of
    one closed session, or none. *)
Lemma try_finally_spec pick w next :
  next ≤ requested w →
  ∃ ops next',
    trace (finally_block browser (try_block cfg browser url pick w).1.1
                         (try_block cfg browser url pick w).2).2
      = trace w ++ ops
    ∧ sessions_run (None, next) ops = Some (None, next')
    ∧ next' ≤ requested (finally_block browser (try_block cfg browser url pick w).1.1
                                       (try_block cfg browser url pick w).2).2
    ∧ mgr (finally_block browser (try_block cfg browser url pick w).1.1
                         (try_block cfg browser url pick w).2).2 = mgr w
    ∧ Forall (fun e => is_session_event e = true) ops
    ∧ (∀ data, (try_block cfg browser url pick w).1.2 = Ok data →
               ∃ ops' ctx, ops = ops' ++ [Parse ctx; Close ctx]).
Proof.
  intros Hnext. unfold try_block, new_context, mbind, M_bind, lift.
  destruct (getkey (viewport cfg) (str "width")); simpl;
    try (exists [], next; rewrite app_nil_r; split_and!; done).
  destruct (getkey (viewport cfg) (str "height")); simpl;
    try (exists [], next; rewrite app_nil_r; split_and!; done).
  unfold browser_new_context.
  destruct (on_new_context (browser (requested w))); simpl.
  { exists [], next. rewrite app_nil_r. split_and!; try done. lia. }
  set (k := requested w).
  set (w1 := {| mgr := mgr w; requested := S k; trace := trace w ++ [NewContext k _] |}).
  destruct (in_context_spec k pick w1) as (ops & Ht & Hr & Hm & Hops & Hdata).
  destruct (in_context browser url k pick w1) as [r w2] eqn:Hin. simpl in *.
  eexists (NewContext k _ :: ops ++ [Close k]), (S k).
  unfold finally_block, mbind, M_bind, log, raise_if, lift, mret, M_ret. simpl.
  assert (sessions_run (None, next) (NewContext k
            match proxy pick with
            | Some p => if truthy p then Some p else None
            | None => None
            end :: ops ++ [Close k]) = Some (None, S k)) as Hrun.
  { simpl. destruct (Nat.leb_spec next k); [|lia]. simpl.
    rewrite sessions_run_app, sessions_run_page_events by done. simpl.
    by rewrite Nat.eqb_refl. }
  assert (Forall (fun e => is_session_event e = true)
            (NewContext k
               match proxy pick with
               | Some p => if truthy p then Some p else None
               | None => None
               end :: ops ++ [Close k])) as Hev.
  { constructor; [done|]. apply Forall_app. split; [|by repeat constructor].
    eapply Forall_impl; [exact Hops|]. intros e. apply page_event_is_session_event. }
  destruct (on_close (browser k)); simpl; rewrite Ht; subst w1; simpl;
    rewrite <- !app_assoc; simpl; (split_and!; [done|done|lia|done|done|]);
    intros data ->; destruct (Hdata data eq_refl) as [ops' ->];
    exists (NewContext k
              match proxy pick with
              | Some p => if truthy p then Some p else None
              | None => None
              end :: ops'), k; by rewrite <- !app_assoc.
Qed.
(** The loop over the picks: a sequence of closed sessions. *)
Lemma picks_loop_spec picks last w next :
  next ≤ requested w →
  ∃ ops next',
    trace (picks_loop cfg browser url picks last w).2 = trace w ++ ops
    ∧ sessions_run (None, next) ops = Some (None, next')
    ∧ next' ≤ requested (picks_loop cfg browser url picks last w).2
    ∧ mgr (picks_loop cfg browser url picks last w).2 = mgr w
    ∧ Forall (fun e => is_session_event e = true) ops
    ∧ (∀ data le, (picks_loop cfg browser url picks last w).1 = Ok (Some data, le) →
                  ∃ ops' ctx, ops = ops' ++ [Parse ctx; Close ctx]).
Proof.
  revert last w next. induction picks as [|pick more IH]; intros last w next Hnext.
  - exists [], next. simpl. rewrite app_nil_r. split_and!; try done.
  - simpl.
    destruct (try_finally_spec pick w next Hnext)
      as (ops & next1 & Ht & Hrun & Hn1 & Hm & Hev & Hdata).
    destruct (try_block cfg browser url pick w) as [[context r] w1]. simpl in *.
    destruct (finally_block browser context w1) as [fr w2]. simpl in *.
    destruct fr as [[]|e|]; simpl;
      try (exists ops, next1; split_and!; done).
    destruct r as [data|e|]; simpl.
    + exists ops, next1. split_and!; try done.
      intros d le [= <- <-]. by apply (Hdata data).
    + destruct (IH (Some e) w2 next1 Hn1)
        as (ops2 & next2 & Ht2 & Hrun2 & Hn2 & Hm2 & Hev2 & Hdata2).
      exists (ops ++ ops2), next2. split_and!.
      * by rewrite Ht2, Ht, app_assoc.
      * rewrite sessions_run_app, Hrun. done.
      * done.
      * congruence.
      * by apply Forall_app.
      * intros d le Hd. destruct (Hdata2 d le Hd) as (ops' & ctx & ->).
        exists (ops ++ ops'), ctx. by rewrite app_assoc.
    + exists ops, next1. split_and!; done.
Qed.

(** The loop over the attempts: the manager is asked and the task sleeps
    only between sessions. *)
Lemma attempts_loop_spec attempts last w next :
  next ≤ requested w →
  ∃ ops next',
    trace (attempts_loop cfg browser url attempts last w).2 = trace w ++ ops
    ∧ sessions_run (None, next) ops = Some (None, next')
    ∧ (∀ data, (attempts_loop cfg browser url attempts last w).1 = Ok data →
               ∃ ops' ctx, ops = ops' ++ [Parse ctx; Close ctx]).
Proof.
  revert last w next. induction attempts as [|attempt more IH]; intros last w next Hnext.
  - exists [], next. simpl. rewrite app_nil_r. split_and!; done.
  - simpl. unfold mbind, M_bind, call_candidates.
    destruct (candidates (mgr w)) as [[picks pm']| |]; simpl;
      try (exists [], next; rewrite app_nil_r; split_and!; done).
    set (w1 := {| mgr := pm'; requested := requested w;
                  trace := trace w ++ [Candidates attempt] |}).
    destruct (picks_loop_spec picks last w1 next Hnext)
      as (ops & next1 & Ht & Hrun & Hn1 & Hm & Hev & Hdata).
    destruct (picks_loop cfg browser url picks last w1) as [r w2]. simpl in *.
    assert (sessions_run (None, next) (Candidates attempt :: ops) = Some (None, next1))
      as Hrun1 by done.
    assert (trace w2 = trace w ++ Candidates attempt :: ops) as Ht1.
    { rewrite Ht. subst w1. simpl. by rewrite <- app_assoc. }
    destruct r as [[found le]|e|]; simpl;
      try (exists (Candidates attempt :: ops), next1; split_and!; done).
    destruct found as [data|]; simpl.
    + exists (Candidates attempt :: ops), next1. split_and!; try done.
      intros d [= <-]. destruct (Hdata data le eq_refl) as (ops' & ctx & ->).
      by exists (Candidates attempt :: ops'), ctx.
    + unfold lift, log. destruct (backoff cfg attempt) as [delay|e|]; simpl;
        try (exists (Candidates attempt :: ops), next1; split_and!; done).
      set (w3 := {| mgr := mgr w2; requested := requested w2;
                    trace := trace w2 ++ [Sleep delay] |}).
      destruct (IH le w3 next1 Hn1) as (ops3 & next3 & Ht3 & Hrun3 & Hdata3).
      exists (Candidates attempt :: ops ++ Sleep delay :: ops3), next3. split_and!.
      * rewrite Ht3. subst w3. simpl. rewrite Ht1.
        by rewrite <- !app_assoc.
      * change (Candidates attempt :: ops ++ Sleep delay :: ops3)
          with ((Candidates attempt :: ops) ++ Sleep delay :: ops3).
        rewrite sessions_run_app, Hrun1. done.
      * intros d Hd. destruct (Hdata3 d Hd) as (ops' & ctx & ->).
        exists (Candidates attempt :: ops ++ Sleep delay :: ops'), ctx.
        simpl. by rewrite <- !app_assoc.
Qed.
End ScrapeFacts.

(** C10: in every run of [scrape_one], whatever the engine does and however
    the run ends, each browser context that was created is closed before
    the next one is created, before the manager is asked again, before the
    task sleeps and before the run ends; pages are only used in the context
    that is open, and every context is a new one. On success the last two
    events are the extraction and the closing of its context. *)
Theorem C10_every_session_is_closed (cfg : Config) (browser : Browser)
    (url : pystr) (pm : ProxyManager) :
  sessions_ok (trace (scrape_one cfg browser url (world0 pm)).2) = true
  ∧ ∀ data, (scrape_one cfg browser url (world0 pm)).1 = Ok data →
      ∃ t ctx, trace (scrape_one cfg browser url (world0 pm)).2
               = t ++ [Parse ctx; Close ctx].
Proof.
  unfold scrape_one.
  destruct (attempts_loop_spec cfg browser url (py_range 1 (retries cfg + 1)) None
              (world0 pm) 0) as (ops & next & Ht & Hrun & Hdata); [simpl; lia|].
  simpl in Ht. split.
  - unfold sessions_ok. by rewrite Ht, Hrun.
  - intros data Hd. rewrite Ht. destruct (Hdata data Hd) as (ops' & ctx & ->). eauto.
Qed.

(** ** Exhausted retries *)

Lemma session_events_not_counted ops :
  Forall (fun e => is_session_event e = true) ops →
  List.filter is_sleep ops = [] ∧ List.filter is_candidates ops = [].
Proof.
  induction 1 as [|e ops He _ [IH1 IH2]]; simpl; [done|].
  unfold is_session_event in He. apply andb_true_iff in He as [H1 H2].
  apply negb_true_iff in H1, H2. by rewrite H1, H2.
Qed.

Lemma sleeps_app t t' : sleeps (t ++ t') = sleeps t + sleeps t'.
Proof. unfold sleeps. by rewrite List.filter_app, length_app. Qed.

Lemma attempts_app t t' : attempts (t ++ t') = attempts t + attempts t'.
Proof. unfold attempts. by rewrite List.filter_app, length_app. Qed.

Section Exhausted.
Variable cfg : Config.
Variable browser : Browser.
Variable url : pystr.
Hypothesis Hfail : navigation_fails browser.
Hypothesis Hwidth : is_Some (viewport cfg !! str "width").
Hypothesis Hheight : is_Some (viewport cfg !! str "height").

Lemma try_finally_nav_fails pick w :
  ∃ e w1 w2,
    on_goto (browser (requested w)) = Some e
    ∧ try_block cfg browser url pick w = (Some (requested w), Raise e, w1)
    ∧ finally_block browser (Some (requested w)) w1 = (Ok tt, w2)
    ∧ requested w2 = S (requested w).
Proof using Hfail Hwidth Hheight.
  destruct (Hfail (requested w)) as (Hnc & Hnp & [e Hg] & Hcl).
  destruct Hwidth as [wd Hwd], Hheight as [ht Hht].
  unfold try_block, new_context, mbind, M_bind, lift, getkey, browser_new_context.
  rewrite Hwd, Hht, Hnc. simpl.
  unfold in_context, finally_block, mbind, M_bind, log, raise_if, lift, mret, M_ret. simpl.
  rewrite Hnp, Hg, Hcl. simpl. eauto 10.
Qed.

Lemma picks_loop_nav_fails picks last w :
  last_seen browser last w →
  ∃ last',
    (picks_loop cfg browser url picks last w).1 = Ok (None, last')
    ∧ requested (picks_loop cfg browser url picks last w).2 = requested w + length picks
    ∧ last_seen browser last' (picks_loop cfg browser url picks last w).2.
Proof using Hfail Hwidth Hheight.
  revert last w. induction picks as [|pick more IH]; intros last w Hseen.
  - exists last. simpl. split_and!; [done | lia | done].
  - destruct (try_finally_nav_fails pick w) as (e & w1 & w2 & Hg & Htry & Hfin & Hreq).
    simpl. rewrite Htry, Hfin.
    destruct (IH (Some e) w2) as (last' & Hres & Hreq' & Hseen').
    { unfold last_seen. by rewrite Hreq. }
    exists last'. split_and!; [done | lia | done].
Qed.

Lemma attempts_loop_nav_fails attempts_left last w :
  counters_ok (mgr w) →
  Forall (fun a => (1 ≤ a ≤ 1024)%Z) attempts_left →
  last_seen browser last w →
  ∃ last',
    (attempts_loop cfg browser url attempts_left last w).1
      = Raise (ScrapingFailed url last')
    ∧ attempts (trace (attempts_loop cfg browser url attempts_left last w).2)
      = attempts (trace w) + length attempts_left
    ∧ sleeps (trace (attempts_loop cfg browser url attempts_left last w).2)
      = sleeps (trace w) + length attempts_left
    ∧ last_seen browser last' (attempts_loop cfg browser url attempts_left last w).2.
Proof using Hfail Hwidth Hheight.
  revert last w. induction attempts_left as [|a more IH]; intros last w Hc Hrange Hseen.
  - exists last. simpl. split_and!; [done | lia | lia | done].
  - apply Forall_cons in Hrange as [Ha Hmore].
    destruct (candidates_shape _ Hc) as (new & pm' & Hcand & _ & _ & _ & Hc').
    simpl. unfold mbind, M_bind, call_candidates. rewrite Hcand. simpl.
    set (picks := new ++ _).
    set (w1 := {| mgr := pm'; requested := requested w;
                  trace := trace w ++ [Candidates a] |}).
    destruct (picks_loop_nav_fails picks last w1 Hseen) as (last1 & Hres & Hreq & Hseen1).
    destruct (picks_loop_spec cfg browser url picks last w1 0)
      as (ops & next1 & Ht & _ & _ & Hm & Hev & _); [lia|].
    destruct (picks_loop cfg browser url picks last w1) as [r w2]. simpl in *. subst r.
    simpl.
    destruct (backoff_in_range cfg a Ha) as (p & _ & ->).
    unfold lift, log. simpl.
    set (delay := py_min _ _).
    set (w3 := {| mgr := mgr w2; requested := requested w2;
                  trace := trace w2 ++ [Sleep delay] |}).
    destruct (IH last1 w3) as (last' & Hres' & Hatt & Hsl & Hseen').
    { subst w3. simpl. by rewrite Hm. } { done. } { done. }
    exists last'. split_and!; try done.
    + rewrite Hatt. subst w3. simpl. rewrite Ht. subst w1. simpl.
      rewrite !attempts_app. unfold attempts at 2 3 4.
      destruct (session_events_not_counted ops Hev) as [_ ->]. simpl. lia.
    + rewrite Hsl. subst w3. simpl. rewrite Ht. subst w1. simpl.
      rewrite !sleeps_app. unfold sleeps at 2 3 4.
      destruct (session_events_not_counted ops Hev) as [-> _]. simpl. lia.
Qed.

(** With a retry budget of [R] between 1 and 1024, a target on which every
    navigation fails ends in [ScrapingFailed] with the last error seen,
    after [R] attempts and after [R] sleeps: one after every attempt, the
    last one included. *)
Lemma all_fail_sleeps_after_every_attempt pm :
  counters_ok pm →
  (1 ≤ retries cfg ≤ 1024)%Z →
  ∃ last,
    (scrape_one cfg browser url (world0 pm)).1 = Raise (ScrapingFailed url last)
    ∧ last_seen browser last (scrape_one cfg browser url (world0 pm)).2
    ∧ attempts (trace (scrape_one cfg browser url (world0 pm)).2) = Z.to_nat (retries cfg)
    ∧ sleeps (trace (scrape_one cfg browser url (world0 pm)).2) = Z.to_nat (retries cfg).
Proof using Hfail Hwidth Hheight.
  intros Hc HR. unfold scrape_one.
  destruct (attempts_loop_nav_fails (py_range 1 (retries cfg + 1)) None (world0 pm))
    as (last & Hres & Hatt & Hsl & Hseen).
  - done.
  - apply Forall_forall. intros a Ha.
    apply list_elem_of_In, in_map_iff in Ha as (n & <- & Hn%in_seq). lia.
  - done.
  - exists last. rewrite Hatt, Hsl. unfold py_range.
    rewrite length_map, length_seq. simpl.
    split_and!; try done; f_equal; lia.
Qed.
End Exhausted.

(** C1 (evaluation at the failing input): with a retry budget of 1, no proxy
    layer and an unreachable target, [scrape_one] makes one attempt, fails
    with the timeout as last error, and has slept once, for 1.2 seconds,
    after that only and final attempt. *)
Theorem C1_sleeps_after_the_final_attempt :
  let run := scrape_one (config_with_retries 1) browser_unreachable
                        (str "https://example.test/p") (world0 pm_direct_only) in
  run.1 = Raise (ScrapingFailed (str "https://example.test/p") (Some PWTimeoutError))
  ∧ trace run.2 = [ Candidates 1; NewContext 0 None; NewPage 0;
                    Goto 0 (str "https://example.test/p"); Close 0; Sleep 1.2 ]
  ∧ attempts (trace run.2) = 1
  ∧ sleeps (trace run.2) = 1.
Proof. vm_compute. repeat split; reflexivity. Qed.

(** ** The regular expressions *)

Lemma first_match_None {A} (f : nat → option A) ns :
  first_match f ns = None ↔ ∀ n, n ∈ ns → f n = None.
Proof.
  induction ns as [|n ns IH]; simpl.
  - split; [|done]. intros _ n Hn. by apply elem_of_nil in Hn.
  - destruct (f n) eqn:Hn.
    + split; [done|]. intros H. specialize (H n (list_elem_of_here _ _)). congruence.
    + rewrite IH. split.
      * intros H m [->|Hm]%elem_of_cons; [done | by apply H].
      * intros H m Hm. apply H. by apply list_elem_of_further.
Qed.

Lemma first_match_Some {A} (f : nat → option A) ns r :
  first_match f ns = Some r → ∃ n, n ∈ ns ∧ f n = Some r.
Proof.
  induction ns as [|n ns IH]; simpl; [done|].
  destruct (f n) eqn:Hn.
  - intros [= ->]. exists n. split; [apply list_elem_of_here | done].
  - intros (m & Hm & Hf)%IH. exists m. split; [by apply list_elem_of_further | done].
Qed.

Lemma first_match_is_Some {A} (f : nat → option A) ns n :
  n ∈ ns → is_Some (f n) → is_Some (first_match f ns).
Proof.
  intros Hn Hf. destruct (first_match f ns) eqn:Hm; [eauto|].
  rewrite first_match_None in Hm. rewrite (Hm n Hn) in Hf. by destruct Hf.
Qed.

(** A lazy repetition stops at the least count that works. *)
Lemma first_match_lazy {A} (f : nat → option A) lo hi r :
  first_match f (lazy lo hi) = Some r →
  ∃ n, lo ≤ n ≤ hi ∧ f n = Some r ∧ ∀ m, lo ≤ m < n → f m = None.
Proof.
  unfold lazy.
  assert (∀ len lo, first_match f (seq lo len) = Some r →
            ∃ n, lo ≤ n < lo + len ∧ f n = Some r ∧ ∀ m, lo ≤ m < n → f m = None) as H.
  { clear. induction len as [|len IH]; intros lo; simpl; [done|].
    destruct (f lo) eqn:Hlo.
    - intros [= ->]. exists lo. split_and!; [lia | lia | done | intros; lia].
    - intros (n & Hn & Hf & Hmin)%IH. exists n. split_and!; [lia | lia | done |].
      intros m Hm. destruct (decide (m = lo)) as [->|]; [done | apply Hmin; lia]. }
  intros (n & Hn & Hf & Hmin)%H. exists n. split_and!; try done; lia.
Qed.

Lemma elem_of_greedy lo hi n : n ∈ greedy lo hi ↔ lo ≤ n ≤ hi.
Proof.
  unfold greedy. rewrite list_elem_of_In, <- in_rev, in_seq. lia.
Qed.

Lemma elem_of_lazy lo hi n : n ∈ lazy lo hi ↔ lo ≤ n ≤ hi.
Proof. unfold lazy. rewrite list_elem_of_In, in_seq. lia. Qed.

Lemma run_le_length p s : run p s ≤ length s.
Proof. induction s as [|c t IH]; simpl; [done|]. destruct (p c); simpl; lia. Qed.

Lemma run_take p s n : n ≤ run p s → Forall (fun c => p c = true) (take n s).
Proof.
  revert n. induction s as [|c t IH]; intros n Hn; simpl in *.
  - destruct n; constructor.
  - destruct n as [|n]; simpl; [constructor|].
    destruct (p c) eqn:Hc; [|lia]. constructor; [done|]. apply IH. lia.
Qed.

Lemma run_ge p g t : Forall (fun c => p c = true) g → length g ≤ run p (g ++ t).
Proof.
  induction 1 as [|c g Hc _ IH]; simpl; [lia|]. rewrite Hc. lia.
Qed.

Lemma run_app_stop p g t :
  Forall (fun c => p c = true) g →
  (t = [] ∨ ∃ c t', t = c :: t' ∧ p c = false) →
  run p (g ++ t) = length g.
Proof.
  intros Hg Ht. induction Hg as [|c g Hc _ IH]; simpl.
  - destruct Ht as [->|(c & t' & -> & Hc)]; simpl; [done | by rewrite Hc].
  - by rewrite Hc, IH.
Qed.

Lemma at_eol_line_end tail : at_eol tail = true ↔ line_end tail.
Proof.
  unfold line_end. destruct tail as [|c [|d t]]; simpl.
  - split; [by left | done].
  - destruct (N.eqb_spec c LF) as [->|Hc].
    + split; [by right | done].
    + split; [done|]. intros [H|H]; [done | congruence].
  - split; [done|]. intros [H|H]; done.
Qed.

(** [(.+)$] captures the rest of the line, when it is not empty. *)
Lemma dot_plus_eol_Some s g :
  dot_plus_eol s = Some g ↔
  g ≠ [] ∧ one_line g ∧ ∃ tail, s = g ++ tail ∧ line_end tail.
Proof.
  unfold dot_plus_eol. split.
  - intros (n & Hn & Hf)%first_match_Some. apply elem_of_greedy in Hn.
    destruct (at_eol (drop n s)) eqn:He; [|done]. injection Hf as <-.
    split_and!.
    + intros H%(f_equal length). rewrite length_take in H. simpl in H.
      pose proof (run_le_length dot s). lia.
    + apply run_take. lia.
    + exists (drop n s). split; [by rewrite take_drop | by apply at_eol_line_end].
  - intros (Hg & Hline & tail & -> & Htail).
    assert (run dot (g ++ tail) = length g) as Hrun.
    { apply run_app_stop; [done|]. destruct Htail as [->| ->]; [by left|].
      right. by exists LF, []. }
    rewrite Hrun. unfold greedy.
    destruct g as [|c g]; [done|]. simpl length.
    replace (S (S (length g)) - 1) with (S (length g)) by lia.
    rewrite seq_S, rev_app_distr. simpl first_match.
    replace (1 + length g) with (length (c :: g)) by (simpl; lia).
    rewrite drop_app_length, take_app_length.
    apply at_eol_line_end in Htail. by rewrite Htail.
Qed.

Lemma dot_plus_eol_app g tail :
  g ≠ [] → one_line g → line_end tail → dot_plus_eol (g ++ tail) = Some g.
Proof. intros. apply dot_plus_eol_Some. eauto. Qed.

(** *** The community pattern *)

Lemma community_sep_sound s g2 :
  community_sep s = Some g2 →
  ∃ sep tail, s = sep ++ g2 ++ tail ∧ is_separator sep
              ∧ g2 ≠ [] ∧ one_line g2 ∧ line_end tail.
Proof.
  unfold community_sep.
  destruct (first_match _ (greedy 2 (run isspace s))) as [g|] eqn:Hfm.
  - intros [= ->]. apply first_match_Some in Hfm as (j & Hj%elem_of_greedy & Hd).
    apply dot_plus_eol_Some in Hd as (Hg & Hline & tail & Hs & Htail).
    exists (take j s), tail. split_and!; try done.
    + by rewrite <- Hs, take_drop.
    + left. split.
      * rewrite length_take. pose proof (run_le_length isspace s). lia.
      * apply run_take. lia.
  - destruct s as [|w1 [|c [|w2 t]]]; try done.
    destruct (isspace w1) eqn:H1; simpl; [|done].
    destruct (N.eqb_spec c COLON) as [->|]; simpl; [|done].
    destruct (isspace w2) eqn:H2; simpl; [|done].
    intros (Hg & Hline & tail & -> & Htail)%dot_plus_eol_Some.
    exists [w1; COLON; w2], tail. split_and!; try done.
    right. by exists w1, w2.
Qed.

Lemma community_sep_complete sep g2 tail :
  is_separator sep → g2 ≠ [] → one_line g2 → line_end tail →
  is_Some (community_sep (sep ++ g2 ++ tail)).
Proof.
  intros Hsep Hg Hline Htail. unfold community_sep.
  destruct (first_match _ (greedy 2 (run isspace (sep ++ g2 ++ tail)))) as [g|] eqn:Hfm;
    [eauto|].
  destruct Hsep as [[Hlen Hws] | (w1 & w2 & -> & H1 & H2)].
  - exfalso. rewrite first_match_None in Hfm.
    specialize (Hfm (length sep)). rewrite drop_app_length in Hfm.
    rewrite dot_plus_eol_app in Hfm by done.
    discriminate Hfm. apply elem_of_greedy. split; [done|]. by apply run_ge.
  - simpl. rewrite H1, H2. simpl. rewrite dot_plus_eol_app by done. eauto.
Qed.

(** The community pattern splits a line at its first separator. *)
Lemma community_re_Some item g1 g2 :
  community_re item = Some (g1, g2) →
  ∃ sep, splits_at item g1 sep g2
         ∧ ∀ g1' sep' g2', splits_at item g1' sep' g2' → length g1 ≤ length g1'.
Proof.
  unfold community_re. intros (p & Hp & Hf & Hmin)%first_match_lazy.
  destruct (community_sep (drop p item)) as [g|] eqn:Hsep; [|done].
  simpl in Hf. injection Hf as <- <-.
  apply community_sep_sound in Hsep as (sep & tail & Hd & Hs & Hg & Hline & Htail).
  assert (length (take p item) = p) as Hlen.
  { rewrite length_take. pose proof (run_le_length dot item). lia. }
  exists sep. split.
  - exists tail. split_and!; try done.
    + by rewrite <- Hd, take_drop.
    + apply run_take. lia.
  - intros g1' sep' g2' (tail' & -> & Hl1 & Hs' & Hg' & Hl2 & Ht').
    rewrite Hlen. destruct (Nat.le_gt_cases p (length g1')) as [|Hlt]; [done|].
    exfalso. specialize (Hmin (length g1') ltac:(lia)).
    rewrite drop_app_length in Hmin.
    destruct (community_sep_complete sep' g2' tail') as [g' Hg2]; try done.
    rewrite Hg2 in Hmin. done.
Qed.

Lemma community_re_None item :
  community_re item = None → ∀ g1 sep g2, ¬ splits_at item g1 sep g2.
Proof.
  unfold community_re. rewrite first_match_None.
  intros Hnone g1 sep g2 (tail & -> & Hl1 & Hs & Hg & Hl2 & Ht).
  specialize (Hnone (length g1)). rewrite drop_app_length in Hnone.
  destruct (community_sep_complete sep g2 tail) as [g Hg2]; try done.
  rewrite Hg2 in Hnone. simpl in Hnone.
  discriminate Hnone. apply elem_of_lazy. split; [lia|]. by apply run_ge.
Qed.

Lemma community_step_entry m item :
  community_step m item = <[(community_entry item).1 := (community_entry item).2]> m.
Proof.
  unfold community_step, community_entry.
  by destruct (community_re item) as [[g1 g2]|].
Qed.

(** *** The class/level pattern *)

Lemma take_nonempty {A} (s : list A) j : 1 ≤ j ≤ length s → take j s ≠ [].
Proof. intros Hj H%(f_equal length). rewrite length_take in H. simpl in H. lia. Qed.

Lemma ws_then_rest_sound s g :
  ws_then_rest s = Some g →
  ∃ ws tail, s = ws ++ g ++ tail ∧ ws ≠ [] ∧ all_space ws
             ∧ g ≠ [] ∧ one_line g ∧ line_end tail.
Proof.
  unfold ws_then_rest. intros (j & Hj%elem_of_greedy & Hd)%first_match_Some.
  apply dot_plus_eol_Some in Hd as (Hg & Hline & tail & Hs & Htail).
  pose proof (run_le_length isspace s).
  exists (take j s), tail. split_and!; try done.
  - by rewrite <- Hs, take_drop.
  - apply take_nonempty. lia.
  - apply run_take. lia.
Qed.

Lemma ws_then_rest_complete ws g tail :
  ws ≠ [] → all_space ws → g ≠ [] → one_line g → line_end tail →
  is_Some (ws_then_rest (ws ++ g ++ tail)).
Proof.
  intros Hne Hws Hg Hline Htail. unfold ws_then_rest.
  apply (first_match_is_Some _ _ (length ws)).
  - apply elem_of_greedy. split; [destruct ws; simpl; [done | lia] | by apply run_ge].
  - rewrite drop_app_length, dot_plus_eol_app by done. eauto.
Qed.

Lemma lv_tail_sound s g2 :
  lv_tail s = Some g2 →
  ∃ ws1 a b ws2 tail,
    s = ws1 ++ [a; b] ++ ws2 ++ g2 ++ tail
    ∧ ws1 ≠ [] ∧ all_space ws1 ∧ is_L a = true ∧ is_v b = true
    ∧ ws2 ≠ [] ∧ all_space ws2 ∧ g2 ≠ [] ∧ one_line g2 ∧ line_end tail.
Proof.
  unfold lv_tail. intros (j & Hj%elem_of_greedy & Hd)%first_match_Some.
  destruct (drop j s) as [|a [|b t]] eqn:Hdrop; try done.
  destruct (is_L a) eqn:Ha; simpl in Hd; [|done].
  destruct (is_v b) eqn:Hb; simpl in Hd; [|done].
  apply ws_then_rest_sound in Hd as (ws2 & tail & -> & Hne & Hws & Hg & Hline & Htail).
  pose proof (run_le_length isspace s).
  exists (take j s), a, b, ws2, tail. split_and!; try done.
  - simpl. by rewrite <- Hdrop, take_drop.
  - apply take_nonempty. lia.
  - apply run_take. lia.
Qed.

Lemma lv_tail_complete ws1 a b ws2 g2 tail :
  ws1 ≠ [] → all_space ws1 → is_L a = true → is_v b = true →
  ws2 ≠ [] → all_space ws2 → g2 ≠ [] → one_line g2 → line_end tail →
  is_Some (lv_tail (ws1 ++ [a; b] ++ ws2 ++ g2 ++ tail)).
Proof.
  intros Hne1 Hws1 Ha Hb Hne2 Hws2 Hg Hline Htail. unfold lv_tail.
  apply (first_match_is_Some _ _ (length ws1)).
  - apply elem_of_greedy. split; [destruct ws1; simpl; [done | lia] | by apply run_ge].
  - rewrite drop_app_length. simpl. rewrite Ha, Hb. simpl.
    by apply ws_then_rest_complete.
Qed.

(** The class/level pattern matches the lines of the shape
    [<text> Lv <text>], with the shortest first text. *)
Lemma class_level_re_Some line g1 g2 :
  class_level_re line = Some (g1, g2) →
  class_level_shape line g1 g2
  ∧ ∀ g1' g2', class_level_shape line g1' g2' → length g1 ≤ length g1'.
Proof.
  unfold class_level_re. intros (p & Hp & Hf & Hmin)%first_match_lazy.
  destruct (lv_tail (drop p line)) as [g|] eqn:Htail; [|done].
  simpl in Hf. injection Hf as <- <-.
  apply lv_tail_sound in Htail
    as (ws1 & a & b & ws2 & tail & Hd & ? & ? & ? & ? & ? & ? & ? & ? & ?).
  pose proof (run_le_length dot line).
  assert (length (take p line) = p) as Hlen by (rewrite length_take; lia).
  split.
  - exists ws1, a, b, ws2, tail. split_and!; try done.
    + by rewrite <- Hd, take_drop.
    + apply take_nonempty. lia.
    + apply run_take. lia.
  - intros g1' g2' (ws1' & a' & b' & ws2' & tail' & -> & Hne & ? & ? & ? & ? & ? & ? & ? & ? & ? & ?).
    rewrite Hlen. destruct (Nat.le_gt_cases p (length g1')) as [|Hlt]; [done|].
    exfalso. assert (1 ≤ length g1') by (destruct g1'; simpl; [done | lia]).
    specialize (Hmin (length g1') ltac:(lia)).
    rewrite drop_app_length in Hmin.
    destruct (lv_tail_complete ws1' a' b' ws2' g2' tail') as [g' Hg']; try done.
    rewrite Hg' in Hmin. done.
Qed.

Lemma class_level_re_None line :
  class_level_re line = None → ∀ g1 g2, ¬ class_level_shape line g1 g2.
Proof.
  unfold class_level_re. rewrite first_match_None.
  intros Hnone g1 g2 (ws1 & a & b & ws2 & tail & -> & Hne & ? & ? & ? & ? & ? & ? & ? & ? & ? & ?).
  specialize (Hnone (length g1)). rewrite drop_app_length in Hnone.
  destruct (lv_tail_complete ws1 a b ws2 g2 tail) as [g' Hg']; try done.
  rewrite Hg' in Hnone. simpl in Hnone.
  discriminate Hnone. apply elem_of_lazy.
  split; [destruct g1; simpl; [done | lia] | by apply run_ge].
Qed.

(** *** The "Main Character" marker *)

Lemma startswith_spec pat s : startswith pat s = true ↔ ∃ t, s = pat ++ t.
Proof.
  revert s. induction pat as [|a pat IH]; intros s; simpl.
  - split; [eauto | done].
  - destruct s as [|b s].
    + split; [done | intros [t Ht]; done].
    + rewrite andb_true_iff, N.eqb_eq, IH. split.
      * intros [-> [t ->]]. eauto.
      * intros [t [= -> ->]]. eauto.
Qed.

Lemma contains_spec pat s :
  contains pat s = true ↔ ∃ pre post, s = pre ++ pat ++ post.
Proof.
  induction s as [|c s IH]; simpl.
  - rewrite orb_false_r, startswith_spec. split.
    + intros [t Ht]. by exists [], t.
    + intros (pre & post & H). destruct pre; [by exists post|done].
  - rewrite orb_true_iff, startswith_spec, IH. split.
    + intros [[t Ht] | (pre & post & ->)]; [by exists [], t | by exists (c :: pre), post].
    + intros ([|d pre] & post & H); [left; by exists post|].
      injection H as -> ->. right. eauto.
Qed.

Lemma remove_from_skip pat x s :
  remove_from pat (length x) (x ++ s) = remove_from pat 0 s.
Proof. induction x as [|c x IH]; simpl; [by destruct s | done]. Qed.

(** Without the marker, nothing is removed. *)
Lemma remove_all_absent pat s : contains pat s = false → remove_all pat s = s.
Proof.
  unfold remove_all. induction s as [|c s IH]; [done|].
  cbn [contains remove_from]. intros [H1 H2]%orb_false_iff.
  rewrite H1. by rewrite IH.
Qed.

(** The first occurrence of the marker is cut out, and the removal goes on
    after it. *)
Lemma remove_all_first pat pre post :
  pat ≠ [] →
  (∀ k, k < length pre → startswith pat (drop k (pre ++ pat ++ post)) = false) →
  remove_all pat (pre ++ pat ++ post) = pre ++ remove_all pat post.
Proof.
  unfold remove_all. intros Hpat. induction pre as [|c pre IH]; intros Hfirst.
  - destruct pat as [|a pat]; [done|]. simpl.
    rewrite N.eqb_refl. simpl.
    assert (startswith pat (pat ++ post) = true) as -> by (apply startswith_spec; eauto).
    rewrite Nat.sub_0_r. apply remove_from_skip.
  - pose proof (Hfirst 0 ltac:(simpl; lia)) as H0.
    cbn [drop app] in H0. cbn [app remove_from]. rewrite H0.
    f_equal. apply IH. intros k Hk. apply (Hfirst (S k)). simpl. lia.
Qed.

(** C5: the character sub-parse ends on every list of collected lines and
    reads them in pairs, a name line and the class/level line after it. A
    pair gives no entry exactly when the name, stripped of the marker and
    normalized, is empty; otherwise it gives one entry with that name, whose
    is-main flag tells whether the name line contains the marker; when the
    class/level line has the shape [<text> Lv <text>] in any case, class and
    level are the two normalized captures, and otherwise (or without such a
    line) both are empty. The marker is removed at its first occurrence and
    on. The lines "Jane Main Character", "Warrior Lv 60" give the single
    entry Jane, Warrior, 60, main. *)
Theorem C5_characters_are_read_in_pairs (created_raw : list pystr) :
  characters_loop (length created_raw) created_raw 0 [] = Ok (characters_of created_raw)
  ∧ (∀ name_line cls_line more,
       characters_of (name_line :: cls_line :: more)
       = character_of name_line (Some cls_line) ++ characters_of more)
  ∧ (∀ name_line, characters_of [name_line] = character_of name_line None)
  ∧ (∀ name_line cls,
       let name := _clean (remove_all MAIN_CHARACTER name_line) in
       (name = [] → character_of name_line cls = [])
       ∧ (name ≠ [] →
          ∃ c, character_of name_line cls = [c]
               ∧ c_name c = name
               ∧ (c_is_main c = true ↔
                  ∃ pre post, name_line = pre ++ MAIN_CHARACTER ++ post)
               ∧ (∀ line, cls = Some line →
                    (∃ g1 g2, class_level_shape line g1 g2) →
                    ∃ g1 g2, class_level_shape line g1 g2
                             ∧ c_class c = _clean g1 ∧ c_level c = _clean g2)
               ∧ ((cls = None ∨
                   ∃ line, cls = Some line ∧ ∀ g1 g2, ¬ class_level_shape line g1 g2) →
                  c_class c = [] ∧ c_level c = [])))
  ∧ (∀ line, contains MAIN_CHARACTER line = false →
             remove_all MAIN_CHARACTER line = line)
  ∧ (∀ pre post,
       (∀ k, k < length pre →
             startswith MAIN_CHARACTER (drop k (pre ++ MAIN_CHARACTER ++ post)) = false) →
       remove_all MAIN_CHARACTER (pre ++ MAIN_CHARACTER ++ post)
       = pre ++ remove_all MAIN_CHARACTER post)
  ∧ characters_of [str "Jane Main Character"; str "Warrior Lv 60"]
    = [ {| c_name := str "Jane"; c_class := str "Warrior"; c_level := str "60";
           c_is_main := true |} ].
Proof.
  split_and!.
  - apply characters_loop_total.
  - done.
  - done.
  - intros name_line cls name. subst name. unfold character_of.
    destruct (_clean (remove_all MAIN_CHARACTER name_line)) as [|n0 name] eqn:Hname.
    { split; [done|]. intros H. done. }
    split; [done|]. intros _. simpl. eexists. split; [done|]. simpl.
    split_and!.
    + done.
    + apply contains_spec.
    + intros line -> (g1 & g2 & Hshape). simpl.
      destruct (class_level_re line) as [[h1 h2]|] eqn:Hre.
      * exists h1, h2. split; [|done]. by apply class_level_re_Some.
      * exfalso. by eapply class_level_re_None.
    + intros [-> | (line & -> & Hno)]; simpl; [done|].
      destruct (class_level_re line) as [[h1 h2]|] eqn:Hre; [|done].
      exfalso. apply (Hno h1 h2). by apply class_level_re_Some.
  - apply remove_all_absent.
  - intros pre post. by apply remove_all_first.
  - vm_compute. reflexivity.
Qed.

(** C4 (counterexample): the line "Guild:   Foo" does not parse to
    {"Guild": "Foo"}. The pattern leaves the colon in the label, giving
    {"Guild:": "Foo"}; and as an item of the page the line is normalized to
    "Guild: Foo" before the pattern sees it, where no separator is left, so
    [parse_profile] stores {"Guild: Foo": ""}. *)
Lemma C4_counterexample :
  community_of [str "Guild:   Foo"] = {[ str "Guild:" := str "Foo" ]}
  ∧ community_of [str "Guild:   Foo"] ≠ {[ str "Guild" := str "Foo" ]}
  ∧ ∃ r, parse_profile (rendered [] (fun _ => Some [str "Guild:   Foo"]))
                       (str "https://example.test/p") = Ok r
         ∧ community r = {[ str "Guild: Foo" := [] ]}
         ∧ community r ≠ {[ str "Guild" := str "Foo" ]}.
Proof.
  split_and!.
  - vm_compute. reflexivity.
  - intros H. apply (f_equal (fun m => m !! str "Guild")) in H.
    vm_compute in H. discriminate H.
  - rewrite parse_profile_rendered. eexists. split; [done|]. simpl. split.
    + vm_compute. reflexivity.
    + intros H. apply (f_equal (fun m => m !! str "Guild")) in H.
      vm_compute in H. discriminate H.
Qed.

(** C4 (amended): the community sub-parse stores, for every line, one label
    and one value. When the line has a separator (two or more whitespace
    code points, or whitespace, a colon, whitespace) followed by a non-empty
    rest of the line, it is split at the first one, and label and value are
    the normalized texts before and after it; a line with no separator is
    the label of an empty value. A colon that touches the label stays in
    it: "Guild:   Foo" gives {"Guild:": "Foo"}, "Guild : Foo" gives
    {"Guild": "Foo"}, and "JustALabel" gives {"JustALabel": ""}. *)
Theorem C4_community_line_splits_at_first_separator :
  (∀ item,
     (∀ m, community_step m item
           = <[(community_entry item).1 := (community_entry item).2]> m)
     ∧ (∀ g1 g2, community_re item = Some (g1, g2) →
          community_entry item = (_clean g1, _clean g2)
          ∧ ∃ sep, splits_at item g1 sep g2
                   ∧ ∀ g1' sep' g2', splits_at item g1' sep' g2' →
                                     length g1 ≤ length g1')
     ∧ ((∃ g1 sep g2, splits_at item g1 sep g2) →
        ∃ g1 g2, community_re item = Some (g1, g2))
     ∧ ((∀ g1 sep g2, ¬ splits_at item g1 sep g2) →
        community_entry item = (item, [])))
  ∧ community_of [str "Guild:   Foo"] = {[ str "Guild:" := str "Foo" ]}
  ∧ community_of [str "Guild : Foo"] = {[ str "Guild" := str "Foo" ]}
  ∧ community_of [str "JustALabel"] = {[ str "JustALabel" := [] ]}.
Proof.
  split_and!.
  - intros item. split_and!.
    + intros m. apply community_step_entry.
    + intros g1 g2 Hre. split; [|by apply community_re_Some].
      unfold community_entry. by rewrite Hre.
    + intros (g1 & sep & g2 & Hsplit).
      destruct (community_re item) as [[h1 h2]|] eqn:Hre; [eauto|].
      exfalso. by eapply community_re_None.
    + intros Hno. unfold community_entry.
      destruct (community_re item) as [[h1 h2]|] eqn:Hre; [|done].
      exfalso. apply community_re_Some in Hre as (sep & Hsplit & _).
      by eapply Hno.
  - vm_compute. reflexivity.
  - vm_compute. reflexivity.
  - vm_compute. reflexivity.
Qed.


(** *** Collected lines are normalized *)

Lemma spaced_weaken s : spaced true s = true → spaced false s = true.
Proof. destruct s as [|c t]; simpl; [done|]. destruct (isspace c); simpl; [done|done]. Qed.

Lemma sub_ws_spaced b s : spaced b (sub_ws b s) = true.
Proof.
  revert b. induction s as [|c t IH]; intros b; simpl; [done|].
  destruct (isspace c) eqn:Hc.
  - destruct b; [apply IH|]. simpl. apply IH.
  - simpl. rewrite Hc. apply IH.
Qed.

Lemma sub_ws_spaces b s c : c ∈ sub_ws b s → isspace c = true → c = SPACE.
Proof.
  revert b. induction s as [|d t IH]; intros b; simpl.
  - intros H. by apply elem_of_nil in H.
  - destruct (isspace d) eqn:Hd.
    + destruct b; [apply IH|]. intros [->|H]%elem_of_cons; [done | by eapply IH].
    + intros [->|H]%elem_of_cons Hc; [congruence | by eapply IH].
Qed.

Lemma spaced_suffix b pre s : spaced b (pre ++ s) = true → spaced false s = true.
Proof.
  revert b. induction pre as [|c pre IH]; intros b; simpl.
  - destruct b; [apply spaced_weaken | done].
  - destruct (isspace c); [intros [_ H]%andb_true_iff|intros H]; by eapply IH.
Qed.

Lemma spaced_prefix b s post : spaced b (s ++ post) = true → spaced b s = true.
Proof.
  revert b. induction s as [|c s IH]; intros b; simpl; [done|].
  destruct (isspace c); [|apply IH].
  intros [-> H]%andb_true_iff. simpl. by eapply IH.
Qed.

Lemma lstrip_suffix s : ∃ pre, s = pre ++ lstrip s.
Proof.
  induction s as [|c s [pre IH]]; simpl; [by exists []|].
  destruct (isspace c); [|by exists []].
  exists (c :: pre). simpl. by rewrite <- IH.
Qed.

Lemma strip_infix s : ∃ pre post, s = pre ++ strip s ++ post.
Proof.
  unfold strip, rstrip.
  destruct (lstrip_suffix s) as [pre Hpre].
  destruct (lstrip_suffix (rev (lstrip s))) as [post Hpost].
  exists pre, (rev post).
  rewrite <- rev_app_distr, <- Hpost, rev_involutive. done.
Qed.

(** In a normalized text the only whitespace is single spaces. *)
Lemma _clean_spaced t :
  spaced false (_clean t) = true
  ∧ ∀ c, c ∈ _clean t → isspace c = true → c = SPACE.
Proof.
  unfold _clean. destruct (strip_infix (sub_ws false t)) as (pre & post & Heq).
  split.
  - pose proof (sub_ws_spaced false t) as H. rewrite Heq in H.
    apply spaced_suffix in H. by apply spaced_prefix in H.
  - intros c Hc. apply (sub_ws_spaces false t). rewrite Heq.
    rewrite !elem_of_app. auto.
Qed.

(** So, in a line collected from the page, the only separator the
    community pattern can find is space, colon, space. *)
Lemma collected_line_separator t g1 sep g2 :
  splits_at (_clean t) g1 sep g2 → sep = [SPACE; COLON; SPACE].
Proof.
  intros (tail & Heq & _ & Hsep & _).
  destruct (_clean_spaced t) as [Hsp Hspaces]. rewrite Heq in Hsp, Hspaces.
  destruct Hsep as [[Hlen Hws] | (w1 & w2 & -> & H1 & H2)].
  - exfalso. apply spaced_suffix in Hsp.
    destruct sep as [|a [|b sep]]; simpl in Hlen; try lia.
    apply Forall_cons in Hws as [Ha Hws]. apply Forall_cons in Hws as [Hb _].
    simpl in Hsp. rewrite Ha, Hb in Hsp. done.
  - rewrite (Hspaces w1), (Hspaces w2); try done.
    + rewrite !elem_of_app. right. left. rewrite !elem_of_cons. auto.
    + rewrite !elem_of_app. right. left. rewrite !elem_of_cons. auto.
Qed.

(* ================================================================== *)
(** * Part III: further properties of the code                         *)
(* ================================================================== *)

(** ** [_clean] *)

Lemma lstrip_head s : head_space (lstrip s) = false.
Proof.
  induction s as [|c s IH]; simpl; [done|].
  destruct (isspace c) eqn:Hc; [done | by simpl].
Qed.

Lemma lstrip_fixed s : head_space s = false → lstrip s = s.
Proof. destruct s as [|c s]; simpl; [done|]. by intros ->. Qed.

Lemma rstrip_prefix s : ∃ post, s = rstrip s ++ post.
Proof.
  unfold rstrip. destruct (lstrip_suffix (rev s)) as [pre Hpre].
  exists (rev pre). rewrite <- rev_app_distr, <- Hpre. by rewrite rev_involutive.
Qed.

Lemma strip_head s : head_space (strip s) = false.
Proof.
  unfold strip. destruct (rstrip_prefix (lstrip s)) as [post Hpost].
  pose proof (lstrip_head s) as Hh. rewrite Hpost in Hh.
  by destruct (rstrip (lstrip s)).
Qed.

Lemma strip_last s : head_space (rev (strip s)) = false.
Proof. unfold strip, rstrip. rewrite rev_involutive. apply lstrip_head. Qed.

Lemma sub_ws_fixed b s :
  spaced b s = true → (∀ c, c ∈ s → isspace c = true → c = SPACE) → sub_ws b s = s.
Proof.
  revert b. induction s as [|c s IH]; intros b Hsp Hc; simpl in *; [done|].
  assert (∀ d, d ∈ s → isspace d = true → d = SPACE) as Hc'.
  { intros d Hd. apply Hc. by apply list_elem_of_further. }
  destruct (isspace c) eqn:Hws.
  - apply andb_true_iff in Hsp as [Hb Hsp]. apply negb_true_iff in Hb. subst b.
    rewrite (Hc c) by first [done | apply list_elem_of_here]. by rewrite IH.
  - by rewrite IH.
Qed.

Lemma _clean_normal t : normal_text (_clean t).
Proof.
  destruct (_clean_spaced t) as [Hsp Hc].
  split_and!; try done; unfold _clean; [apply strip_head | apply strip_last].
Qed.

Lemma _clean_fixed s : normal_text s → _clean s = s.
Proof.
  intros (Hh & Hl & Hsp & Hc). unfold _clean.
  rewrite sub_ws_fixed by done.
  unfold strip, rstrip. rewrite (lstrip_fixed s) by done.
  rewrite lstrip_fixed by done. apply rev_involutive.
Qed.

Lemma sub_ws_keeps b s c : c ∈ s → isspace c = false → c ∈ sub_ws b s.
Proof.
  revert b. induction s as [|d s IH]; intros b Hin Hc; [by apply elem_of_nil in Hin|].
  simpl. apply elem_of_cons in Hin as [<-|Hin].
  - rewrite Hc. apply list_elem_of_here.
  - destruct (isspace d); [destruct b|]; try apply list_elem_of_further; by apply IH.
Qed.

Lemma lstrip_keeps s c : c ∈ s → isspace c = false → c ∈ lstrip s.
Proof.
  induction s as [|d s IH]; intros Hin Hc; [done|]. simpl.
  destruct (isspace d) eqn:Hd; [|done].
  apply elem_of_cons in Hin as [->|Hin]; [congruence | by apply IH].
Qed.

Lemma strip_keeps s c : c ∈ s → isspace c = false → c ∈ strip s.
Proof.
  intros Hin Hc. unfold strip, rstrip.
  rewrite list_elem_of_In, <- in_rev, <- list_elem_of_In.
  apply lstrip_keeps; [|done].
  rewrite list_elem_of_In, <- in_rev, <- list_elem_of_In. by apply lstrip_keeps.
Qed.

Lemma lstrip_all_space s : all_space s → lstrip s = [].
Proof. induction 1 as [|c s Hc _ IH]; simpl; [done|]. by rewrite Hc. Qed.

Lemma sub_ws_all_space b s : all_space s → all_space (sub_ws b s).
Proof.
  intros H. revert b. induction H as [|c s Hc _ IH]; intros b; simpl; [constructor|].
  rewrite Hc. destruct b; [apply IH|]. constructor; [done | apply IH].
Qed.

(** X1: [_clean] returns a normalized text (no whitespace at the ends, no
    line feed, only single spaces inside), leaves a normalized text as it
    is, and so does nothing when applied twice. *)
Theorem X1_clean_normalizes_once (t : pystr) :
  normal_text (_clean t)
  ∧ (LF ∉ _clean t)
  ∧ _clean (_clean t) = _clean t
  ∧ (normal_text t → _clean t = t).
Proof.
  split_and!.
  - apply _clean_normal.
  - apply _clean_no_LF.
  - apply _clean_fixed, _clean_normal.
  - apply _clean_fixed.
Qed.

Lemma elem_of_sub_ws b s c : c ∈ sub_ws b s → isspace c = false → c ∈ s.
Proof.
  revert b. induction s as [|d s IH]; intros b; simpl; [done|].
  destruct (isspace d) eqn:Hd.
  - destruct b.
    + intros H Hc. apply list_elem_of_further. by eapply IH.
    + intros [->|H]%elem_of_cons Hc; [done|].
      apply list_elem_of_further. by eapply IH.
  - intros [->|H]%elem_of_cons Hc; [apply list_elem_of_here|].
    apply list_elem_of_further. by eapply IH.
Qed.

Lemma _clean_keeps t c : isspace c = false → (c ∈ _clean t ↔ c ∈ t).
Proof.
  intros Hc. split.
  - intros H%elem_of_strip. by eapply elem_of_sub_ws.
  - intros H. unfold _clean. apply strip_keeps; [|done]. by apply sub_ws_keeps.
Qed.

Lemma _clean_nil_iff t : _clean t = [] ↔ all_space t.
Proof.
  split.
  - intros Hempty. apply Forall_forall. intros c Hc.
    destruct (isspace c) eqn:Hws; [done|]. exfalso.
    apply (_clean_keeps t c Hws) in Hc. rewrite Hempty in Hc.
    by apply elem_of_nil in Hc.
  - intros Hall. unfold _clean, strip.
    by rewrite (lstrip_all_space _ (sub_ws_all_space false t Hall)).
Qed.

(** X2: [_clean] keeps every code point that is not whitespace, and returns
    the empty text exactly for the texts made of whitespace only. *)
Theorem X2_clean_empty_iff_whitespace (t : pystr) :
  (∀ c, isspace c = false → (c ∈ _clean t ↔ c ∈ t))
  ∧ (_clean t = [] ↔ all_space t).
Proof. split; [apply _clean_keeps | apply _clean_nil_iff]. Qed.

(** ** [_extract_section_list] *)

Lemma truthy_false {A} (l : list A) : truthy l = false ↔ l = [].
Proof. by destruct l. Qed.

Lemma truthy_true {A} (l : list A) : truthy l = true ↔ l ≠ [].
Proof. by destruct l. Qed.

Lemma collected_items texts x :
  x ∈ List.map _clean (List.filter (fun t => truthy (_clean t)) texts)
  ↔ ∃ t, t ∈ texts ∧ x = _clean t ∧ ¬ all_space t.
Proof.
  rewrite list_elem_of_fmap. split.
  - intros (t & -> & Ht). apply list_elem_of_In, filter_In in Ht as [Ht Hne].
    exists t. split_and!; [by apply list_elem_of_In | done |].
    rewrite <- _clean_nil_iff. by apply truthy_true.
  - intros (t & Ht & -> & Hns). exists t. split; [done|].
    apply list_elem_of_In, filter_In. split; [by apply list_elem_of_In|].
    apply truthy_true. by rewrite _clean_nil_iff.
Qed.

Lemma collected_items_normal texts :
  Forall (fun x => x ≠ [] ∧ normal_text x)
         (List.map _clean (List.filter (fun t => truthy (_clean t)) texts)).
Proof.
  apply Forall_forall. intros x (t & Ht & -> & Hns)%collected_items.
  split; [by rewrite _clean_nil_iff | apply _clean_normal].
Qed.

Lemma length_collected texts :
  length (List.map _clean (List.filter (fun t => truthy (_clean t)) texts)) ≤ length texts.
Proof. rewrite length_map. apply List.filter_length_le. Qed.

(** How [_extract_section_list] ends, by the two page queries. *)
Lemma _extract_section_list_cases page h :
  match _extract_section_list page h with
  | Ok items =>
      heading_count page h = Ok 0 ∧ items = []
      ∨ ∃ n texts, heading_count page h = Ok (S n)
                   ∧ items_all_inner_texts page h = Ok texts
                   ∧ items = List.map _clean (List.filter (fun t => truthy (_clean t)) texts)
  | r => section_query_ends page h r
  end.
Proof.
  unfold _extract_section_list, section_query_ends.
  destruct (heading_count page h) as [[|n]| |]; simpl; auto.
  destruct (items_all_inner_texts page h) as [texts| |]; simpl; eauto 10.
Qed.

(** The test [if _clean(t)] keeps the texts that are not whitespace only. *)
Lemma truthy_clean t : truthy (_clean t) = negb (forallb isspace t).
Proof.
  destruct (forallb isspace t) eqn:Hall; simpl.
  - apply truthy_false. apply _clean_nil_iff. apply Forall_forall.
    intros c Hc. rewrite forallb_forall in Hall. by apply Hall, list_elem_of_In.
  - apply truthy_true. rewrite _clean_nil_iff. intros Hsp.
    assert (forallb isspace t = true) as Ht; [|congruence].
    apply forallb_forall. intros c Hc%list_elem_of_In.
    by eapply Forall_forall in Hsp.
Qed.

Lemma collected_exactly texts :
  List.map _clean (List.filter (fun t => truthy (_clean t)) texts)
  = List.map _clean (List.filter (fun t => negb (forallb isspace t)) texts).
Proof. f_equal. apply List.filter_ext. intros t. apply truthy_clean. Qed.

(** X3: [_extract_section_list] returns exactly the normalized inner texts
    of the list items that are not whitespace only, in the order of the
    items and as often as they occur: every item it returns is non-empty
    and normalized, and there are at most as many as list items. Without
    the heading it returns the empty list and does not query the items. It
    raises only what one of its two page queries raised. *)
Theorem X3_extract_section_list_items (page : Page) (h : pystr) :
  (heading_count page h = Ok 0 → _extract_section_list page h = Ok [])
  ∧ match _extract_section_list page h with
    | Ok items =>
        Forall (fun x => x ≠ [] ∧ normal_text x) items
        ∧ (heading_count page h = Ok 0 ∧ items = []
           ∨ ∃ n texts,
               heading_count page h = Ok (S n)
               ∧ items_all_inner_texts page h = Ok texts
               ∧ items = List.map _clean
                           (List.filter (fun t => negb (forallb isspace t)) texts)
               ∧ length items ≤ length texts
               ∧ ∀ x, x ∈ items ↔ ∃ t, t ∈ texts ∧ x = _clean t ∧ ¬ all_space t)
    | r => section_query_ends page h r
    end.
Proof.
  split.
  - intros H0. unfold _extract_section_list. by rewrite H0.
  - pose proof (_extract_section_list_cases page h) as H.
    destruct (_extract_section_list page h) as [items| |]; try done.
    destruct H as [[H0 ->] | (n & texts & Hn & Ht & ->)].
    + split; [constructor | by left].
    + split; [apply collected_items_normal|]. right. exists n, texts.
      split_and!; try done;
        [apply collected_exactly | apply length_collected | apply collected_items].
Qed.

(** ** The anchor scan *)

Lemma region_re_spec s : region_re s = true ↔ is_region s.
Proof.
  unfold is_region.
  destruct s as [|a [|b [|c [|d s]]]]; simpl.
  - split; [done | intros [[|] _]; done].
  - unfold region_re. simpl. destruct (is_AZ a); simpl;
      (split; [done | intros [[|] _]; done]).
  - unfold region_re. simpl.
    destruct (is_AZ a) eqn:Ha, (is_AZ b) eqn:Hb; simpl; split; try done;
      try (intros _; split; [by left | by repeat constructor]);
      intros [_ H]; inversion H as [|? ? H1 H2]; subst; try congruence;
      inversion H2; subst; congruence.
  - unfold region_re. simpl.
    destruct (is_AZ a) eqn:Ha, (is_AZ b) eqn:Hb, (is_AZ c) eqn:Hc; simpl;
      split; try done;
      try (intros _; split; [by right | by repeat constructor]);
      intros [_ H]; inversion H as [|? ? H1 H2]; subst; try congruence;
      inversion H2 as [|? ? H3 H4]; subst; try congruence;
      inversion H4; subst; congruence.
  - unfold region_re. simpl.
    split; [|intros [[|] _]; simpl in *; lia].
    destruct (is_AZ a), (is_AZ b), (is_AZ c), (is_AZ d); simpl; try done;
      destruct (run is_AZ s); simpl; done.
Qed.

Lemma index_first lines x :
  inlist x lines = true → ∃ i, index lines x = Ok i ∧ first_at lines x i.
Proof.
  unfold inlist. rewrite bool_decide_eq_true.
  induction lines as [|y lines IH]; [by intros H%elem_of_nil|].
  intros Hin. simpl. case_bool_decide as Hy.
  - subst y. exists 0. split; [done|]. split; [done | intros j Hj; lia].
  - apply elem_of_cons in Hin as [->|Hin]; [done|].
    destruct (IH Hin) as (i & -> & Hi & Hmin). exists (S i). split; [done|].
    split; [done|]. intros [|j] Hj; simpl; [congruence | apply Hmin; lia].
Qed.

Lemma scan_window_step window k n :
  scan_window window (List.map (fun i => (0 + Z.of_nat i)%Z) (seq k (S n)))
  = w ← getitem window k;
    if region_re w
    then f ← getitem window (k + 1); Ok (Some w, Some f)
    else scan_window window (List.map (fun i => (0 + Z.of_nat i)%Z) (seq (S k) n)).
Proof.
  simpl. replace (Z.to_nat (0 + Z.of_nat k)) with k by lia.
  by replace (Z.to_nat (0 + Z.of_nat k + 1)) with (k + 1) by lia.
Qed.

(** The loop over [range(k, k + n)], when every index it visits and the
    next one are in the window. *)
Lemma scan_window_spec window n k :
  k + n ≤ length window - 1 →
  (∃ j w f, k ≤ j < k + n
            ∧ window !! j = Some w ∧ region_re w = true
            ∧ window !! (j + 1) = Some f
            ∧ (∀ j' w', k ≤ j' < j → window !! j' = Some w' → region_re w' = false)
            ∧ scan_window window (List.map (fun i => (0 + Z.of_nat i)%Z) (seq k n))
              = Ok (Some w, Some f))
  ∨ ((∀ j w, k ≤ j < k + n → window !! j = Some w → region_re w = false)
     ∧ scan_window window (List.map (fun i => (0 + Z.of_nat i)%Z) (seq k n))
       = Ok (None, None)).
Proof.
  revert k. induction n as [|n IH]; intros k Hk.
  - right. split; [intros; lia | done].
  - rewrite scan_window_step.
    destruct (getitem_lt window k) as (w & -> & Hw); [lia|]. simpl.
    destruct (region_re w) eqn:Hre.
    + left.
      destruct (getitem_lt window (k + 1)) as (f & -> & Hf); [lia|]. simpl.
      exists k, w, f. split_and!; try done; try lia; intros; lia.
    + destruct (IH (S k)) as [(j & w' & f & Hj & Hw' & Hre' & Hf & Hmin & ->) | [Hno ->]];
        [lia | left | right].
      * exists j, w', f. split_and!; try done; try lia.
        intros j' w'' Hj' Hw''. destruct (decide (j' = k)) as [->|].
        -- congruence.
        -- apply (Hmin j'); [lia | done].
      * split; [|done]. intros j w' Hj Hw'. destruct (decide (j = k)) as [->|].
        -- congruence.
        -- apply (Hno j); [lia | done].
Qed.

Lemma lookup_window (lines : list pystr) i j :
  j < 15 → take 15 (drop i lines) !! j = lines !! (i + j).
Proof. intros Hj. rewrite lookup_take_lt by done. apply lookup_drop. Qed.

(** X4: the anchor scan never raises. It sets region and family name
    together or not at all. When it sets them, the region is a line of two
    or three capital letters A to Z, it is the first such line among the
    lines from the first anchor line on that have a line after them in the
    15-line window, and the family name is the line right after it. It sets
    nothing when the anchor line is missing or no line of the window
    qualifies. *)
Theorem X4_anchor_scan_finds_first_region (lines : list pystr) :
  (ADVENTURER_PROFILE ∉ lines → anchor_scan lines = Ok (None, None))
  ∧ ∀ i, first_at lines ADVENTURER_PROFILE i →
      (∃ k r f,
          k + 1 < 15
          ∧ lines !! (i + k) = Some r ∧ is_region r
          ∧ lines !! (i + k + 1) = Some f
          ∧ (∀ k' w, k' < k → lines !! (i + k') = Some w → ¬ is_region w)
          ∧ anchor_scan lines = Ok (Some r, Some f))
      ∨ ((∀ k w, k + 1 < 15 → is_Some (lines !! (i + k + 1)) →
                 lines !! (i + k) = Some w → ¬ is_region w)
         ∧ anchor_scan lines = Ok (None, None)).
Proof.
  split.
  - intros Hno. unfold anchor_scan, inlist. by rewrite bool_decide_eq_false_2.
  - intros i [Hi Hmin]. unfold anchor_scan.
    assert (inlist ADVENTURER_PROFILE lines = true) as Hin.
    { apply bool_decide_eq_true. by eapply list_elem_of_lookup_2. }
    rewrite Hin. destruct (index_first _ _ Hin) as (i' & -> & Hi' & Hmin').
    assert (i' = i) as ->.
    { destruct (Nat.lt_trichotomy i' i) as [H|[H|H]]; [|done|].
      - by apply Hmin in H. - by apply Hmin' in H. }
    simpl. unfold slice, py_range.
    replace (i + 15 - i) with 15 by lia.
    set (window := take 15 (drop i lines)).
    replace (Z.to_nat (Z.of_nat (length window) - 1 - 0)) with (length window - 1) by lia.
    assert (length window ≤ 15) as Hlen.
    { subst window. rewrite length_take. lia. }
    destruct (scan_window_spec window (length window - 1) 0)
      as [(j & w & f & Hj & Hw & Hre & Hf & Hfirst & ->) | [Hno ->]]; [lia | left | right].
    + exists j, w, f.
      subst window. rewrite lookup_window in Hw, Hf by lia.
      split_and!; try done.
      * lia.
      * by apply region_re_spec.
      * by replace (i + j + 1) with (i + (j + 1)) by lia.
      * intros k' w' Hk' Hw' Hreg%region_re_spec.
        rewrite (Hfirst k' w') in Hreg; [done | lia |].
        rewrite lookup_window by lia. done.
    + split; [|done]. intros k w Hk [f Hf] Hw Hreg%region_re_spec.
      assert (window !! (k + 1) = Some f) as Hf'.
      { subst window. rewrite lookup_window by lia.
        by replace (i + (k + 1)) with (i + k + 1) by lia. }
      apply lookup_lt_Some in Hf'.
      rewrite (Hno k w) in Hreg; [done | lia |].
      subst window. by rewrite lookup_window by lia.
Qed.

(** ** [parse_profile] on any page *)

Lemma section_fails page h {A} (r : result (list pystr)) (r' : result A) :
  _extract_section_list page h = r → ends_like r r' → section_query_ends page h r'.
Proof.
  intros Hr Hlike. pose proof (_extract_section_list_cases page h) as H.
  rewrite Hr in H. destruct r as [x|e|], r' as [y|e'|]; simpl in *; try done.
  by subst e'.
Qed.

(** X5: [parse_profile] raises nothing of its own: when it does not return a
    record, the body query or one of the section queries under the three
    headings ended that way. When it returns, the record bears the given
    URL, neither region nor family name, the community mapping, the "Life"
    items as they were collected, and the characters read in pairs. *)
Theorem X5_parse_profile_raises_only_page_errors (page : Page) (url : pystr) :
  match parse_profile page url with
  | Ok r =>
      source_url r = url ∧ region r = None ∧ family_name r = None
      ∧ _extract_section_list page (str "Community Activities")
        ≫= (fun raw => Ok (community_of raw)) = Ok (community r)
      ∧ _extract_section_list page (str "Life") = Ok (life_raw r)
      ∧ _extract_section_list page (str "Created Characters")
        ≫= (fun raw => Ok (characters_of raw)) = Ok (characters r)
  | r =>
      ends_like (body_inner_text page) r
      ∨ ∃ h, h ∈ HEADINGS ∧ section_query_ends page h r
  end.
Proof.
  unfold parse_profile.
  destruct (body_inner_text page) as [t|e|] eqn:Hb; simpl; [|by left..].
  rewrite anchor_scan_lines_of. simpl.
  destruct (_extract_section_list page (str "Community Activities")) as [c|e|] eqn:Hc;
    simpl.
  2: { right. exists (str "Community Activities"). split; [apply list_elem_of_here|].
       by apply (section_fails page _ _ (@Raise Profile e) Hc). }
  2: { right. exists (str "Community Activities"). split; [apply list_elem_of_here|].
       by apply (section_fails page _ _ (@Diverge Profile) Hc). }
  destruct (_extract_section_list page (str "Life")) as [l|e|] eqn:Hl; simpl.
  2: { right. exists (str "Life").
       split; [apply list_elem_of_further, list_elem_of_here|].
       by apply (section_fails page _ _ (@Raise Profile e) Hl). }
  2: { right. exists (str "Life").
       split; [apply list_elem_of_further, list_elem_of_here|].
       by apply (section_fails page _ _ (@Diverge Profile) Hl). }
  destruct (_extract_section_list page (str "Created Characters")) as [cr|e|] eqn:Hcr;
    simpl.
  2: { right. exists (str "Created Characters").
       split; [do 2 apply list_elem_of_further; apply list_elem_of_here|].
       by apply (section_fails page _ _ (@Raise Profile e) Hcr). }
  2: { right. exists (str "Created Characters").
       split; [do 2 apply list_elem_of_further; apply list_elem_of_here|].
       by apply (section_fails page _ _ (@Diverge Profile) Hcr). }
  rewrite characters_loop_total. simpl. done.
Qed.

(** ** The community mapping *)

Lemma community_of_snoc raw item :
  community_of (raw ++ [item]) = community_step (community_of raw) item.
Proof. unfold community_of. by rewrite fold_left_app. Qed.

Lemma community_fold_lookup raw m k v :
  fold_left community_step raw m !! k = Some v ↔
  (∃ pre item post, raw = pre ++ item :: post
                    ∧ community_entry item = (k, v)
                    ∧ ∀ x, x ∈ post → (community_entry x).1 ≠ k)
  ∨ (m !! k = Some v ∧ ∀ x, x ∈ raw → (community_entry x).1 ≠ k).
Proof.
  revert m. induction raw as [|y raw IH]; intros m; simpl.
  - split.
    + intros H. right. split; [done|]. intros x Hx. by apply elem_of_nil in Hx.
    + intros [(pre & item & post & H & _) | [H _]]; [by destruct pre | done].
  - rewrite IH, community_step_entry. split.
    + intros [(pre & item & post & -> & He & Hpost) | [Hm Hraw]].
      * left. by exists (y :: pre), item, post.
      * destruct (decide ((community_entry y).1 = k)) as [Hk|Hk].
        -- left. exists [], y, raw. split; [done|]. split; [|done].
           rewrite <- Hk, lookup_insert_eq in Hm. injection Hm as <-.
           rewrite <- Hk. by destruct (community_entry y).
        -- right. rewrite lookup_insert_ne in Hm by done. split; [done|].
           intros x [->|Hx]%elem_of_cons; [done | by apply Hraw].
    + intros [(pre & item & post & Heq & He & Hpost) | [Hm Hraw]].
      * destruct pre as [|z pre]; simpl in Heq; injection Heq as -> ->.
        -- right. rewrite He. simpl. rewrite lookup_insert_eq. done.
        -- left. by exists pre, item, post.
      * right. split.
        -- rewrite lookup_insert_ne; [done|]. apply Hraw, list_elem_of_here.
        -- intros x Hx. by apply Hraw, list_elem_of_further.
Qed.

(** X6: the community mapping holds, for every label, the value of the last
    collected line that has this label, and nothing else: a later line
    replaces the value an earlier line gave to the same label. *)
Theorem X6_community_last_line_wins (community_raw : list pystr) (k v : pystr) :
  community_of community_raw !! k = Some v ↔
  ∃ pre item post,
    community_raw = pre ++ item :: post
    ∧ community_entry item = (k, v)
    ∧ ∀ x, x ∈ post → (community_entry x).1 ≠ k.
Proof.
  unfold community_of. rewrite community_fold_lookup. split.
  - intros [H | [H _]]; [done | by rewrite lookup_empty in H].
  - intros H. by left.
Qed.

(** ** A collected line is split at its first " : " *)

Lemma normal_one_line s : LF ∉ s → one_line s.
Proof.
  intros H. apply Forall_forall. intros c Hc. unfold dot.
  destruct (N.eqb_spec c LF) as [->|]; [done | done].
Qed.

Lemma spaced_pair a b s : isspace a = true → isspace b = true → spaced false (a :: b :: s) = false.
Proof. intros Ha Hb. simpl. by rewrite Ha, Hb. Qed.

Lemma normal_app_l a sep rest :
  normal_text (a ++ sep :: rest) → isspace sep = true → a ≠ [] ∧ normal_text a.
Proof.
  intros (Hh & Hl & Hsp & Hc) Hsep.
  assert (a ≠ []) as Hne by (intros ->; simpl in Hh; congruence).
  split; [done|]. split_and!.
  - by destruct a.
  - destruct (rev a) as [|x ra] eqn:Hrev; [done|]. simpl.
    destruct (isspace x) eqn:Hx; [|done]. exfalso.
    assert (a = rev ra ++ [x]) as ->.
    { by rewrite <- (rev_involutive a), Hrev. }
    rewrite <- app_assoc in Hsp. apply spaced_suffix in Hsp.
    simpl in Hsp. by rewrite Hx, Hsep in Hsp.
  - by eapply spaced_prefix.
  - intros c Hin. apply Hc. apply elem_of_app. by left.
Qed.

Lemma normal_app_r pre sep b :
  normal_text (pre ++ sep :: b) → isspace sep = true → b ≠ [] ∧ normal_text b.
Proof.
  intros (Hh & Hl & Hsp & Hc) Hsep.
  assert (b ≠ []) as Hne.
  { intros ->. rewrite rev_app_distr in Hl. simpl in Hl. congruence. }
  split; [done|]. split_and!.
  - destruct b as [|y b]; [done|]. simpl.
    destruct (isspace y) eqn:Hy; [|done]. exfalso.
    apply spaced_suffix in Hsp. simpl in Hsp. by rewrite Hsep, Hy in Hsp.
  - rewrite rev_app_distr in Hl. simpl in Hl. rewrite <- app_assoc in Hl.
    destruct (rev b) as [|x rb] eqn:Hrev; [|done].
    apply (f_equal (@rev N)) in Hrev. rewrite rev_involutive in Hrev. done.
  - change (pre ++ sep :: b) with (pre ++ [sep] ++ b) in Hsp.
    rewrite app_assoc in Hsp. by apply spaced_suffix in Hsp.
  - intros c Hin. apply Hc. apply elem_of_app. right. by apply list_elem_of_further.
Qed.

Lemma app_eq_length {A} (a a' b b' : list A) :
  a ++ b = a' ++ b' → length a = length a' → a = a' ∧ b = b'.
Proof.
  revert a'. induction a as [|x a IH]; intros [|y a'] H Hlen; simpl in *; try done.
  injection H as -> H. destruct (IH a' H) as [-> ->]; [lia | done].
Qed.

Lemma collected_entry_split t a b :
  _clean t = a ++ SEP ++ b →
  (∀ k, k < length a → startswith SEP (drop k (_clean t)) = false) →
  community_entry (_clean t) = (a, b) ∧ a ≠ [] ∧ b ≠ [].
Proof.
  intros Heq Hfirst.
  pose proof (_clean_normal t) as Hn. pose proof (_clean_no_LF t) as Hlf.
  rewrite Heq in Hn, Hlf.
  destruct (normal_app_l a SPACE (COLON :: SPACE :: b)) as [Ha Hna]; [done | done |].
  destruct (normal_app_r (a ++ [SPACE; COLON]) SPACE b) as [Hb Hnb];
    [by rewrite <- app_assoc | done |].
  assert (splits_at (_clean t) a SEP b) as Hsplit.
  { exists []. rewrite app_nil_r. split_and!; try done.
    - apply normal_one_line. intros H. apply Hlf. apply elem_of_app. by left.
    - right. by exists SPACE, SPACE.
    - apply normal_one_line. intros H. apply Hlf.
      rewrite !elem_of_app. right. by right.
    - by left. }
  destruct (community_re (_clean t)) as [[g1 g2]|] eqn:Hre.
  2: { exfalso. by eapply community_re_None. }
  destruct (community_re_Some _ _ _ Hre) as (sep & Hsp & Hmin).
  pose proof (collected_line_separator _ _ _ _ Hsp) as ->.
  specialize (Hmin _ _ _ Hsplit).
  destruct Hsp as (tail & Heq' & _ & _ & Hg2 & _ & Htail).
  assert (length g1 = length a) as Hlen.
  { destruct (Nat.lt_ge_cases (length g1) (length a)) as [Hlt|]; [|lia].
    specialize (Hfirst _ Hlt). rewrite Heq', drop_app_length in Hfirst.
    assert (startswith SEP ([SPACE; COLON; SPACE] ++ g2 ++ tail) = true) as Hs
      by (apply startswith_spec; eauto).
    congruence. }
  rewrite Heq in Heq'.
  destruct (app_eq_length _ _ _ _ Heq' (eq_sym Hlen)) as [<- Hrest].
  injection Hrest as Hrest.
  assert (tail = []) as ->.
  { destruct Htail as [->| ->]; [done|]. exfalso. apply Hlf.
    rewrite Hrest. rewrite !elem_of_app. do 3 right. apply list_elem_of_here. }
  rewrite app_nil_r in Hrest. subst g2.
  unfold community_entry. rewrite Hre.
  by rewrite !_clean_fixed.
Qed.

Lemma collected_entry_whole t :
  contains SEP (_clean t) = false → community_entry (_clean t) = (_clean t, []).
Proof.
  intros Hno. unfold community_entry.
  destruct (community_re (_clean t)) as [[g1 g2]|] eqn:Hre; [|done].
  exfalso. destruct (community_re_Some _ _ _ Hre) as (sep & Hsp & _).
  pose proof (collected_line_separator _ _ _ _ Hsp) as ->.
  destruct Hsp as (tail & Heq & _).
  assert (contains SEP (_clean t) = true) as H; [|congruence].
  apply contains_spec. exists g1, (g2 ++ tail). by rewrite Heq.
Qed.

(** X7: for a line as [_extract_section_list] collects it, the community
    sub-parse splits at the first " : " (space, colon, space): the label is
    the text before it and the value the text after it, both non-empty and
    taken as they are; a line without " : " is the label of an empty value.
    Runs of spaces never split a collected line. *)
Theorem X7_collected_line_splits_at_space_colon_space (t : pystr) :
  (∀ a b,
     _clean t = a ++ SEP ++ b →
     (∀ k, k < length a → startswith SEP (drop k (_clean t)) = false) →
     community_entry (_clean t) = (a, b) ∧ a ≠ [] ∧ b ≠ [])
  ∧ (contains SEP (_clean t) = false →
     community_entry (_clean t) = (_clean t, []))
  ∧ (∀ g1 sep g2, splits_at (_clean t) g1 sep g2 → sep = SEP).
Proof.
  split_and!.
  - apply collected_entry_split.
  - apply collected_entry_whole.
  - apply collected_line_separator.
Qed.

(** ** The recorded characters *)

Lemma pairs_ind (P : list pystr → Prop) :
  P [] → (∀ x, P [x]) → (∀ x y l, P l → P (x :: y :: l)) → ∀ l, P l.
Proof.
  intros H0 H1 H2 l.
  assert (P l ∧ ∀ x, P (x :: l)) as [H _]; [|done].
  induction l as [|y l [IH1 IH2]]; [by split|].
  split; [apply IH2|]. intros x. by apply H2.
Qed.

Lemma normal_nil : normal_text [].
Proof.
  split_and!; try done. intros c Hc. by apply elem_of_nil in Hc.
Qed.

Lemma character_of_names n cls :
  List.map c_name (character_of n cls) = List.filter truthy [stripped_name n].
Proof.
  unfold character_of, stripped_name. simpl.
  by destruct (truthy (_clean (remove_all MAIN_CHARACTER n))).
Qed.

Lemma character_of_normal n cls :
  Forall (fun c => c_name c ≠ [] ∧ normal_text (c_name c)
                   ∧ normal_text (c_class c) ∧ normal_text (c_level c))
         (character_of n cls).
Proof.
  unfold character_of.
  destruct (truthy (_clean (remove_all MAIN_CHARACTER n))) eqn:Hn; [|constructor].
  constructor; [|constructor]. simpl. apply truthy_true in Hn.
  split; [done|]. split; [apply _clean_normal|].
  destruct (cls ≫= class_level_re) as [[g1 g2]|]; simpl.
  - split; apply _clean_normal.
  - split; apply normal_nil.
Qed.

Lemma length_character_of n cls : length (character_of n cls) ≤ 1.
Proof. unfold character_of. destruct (truthy _); simpl; lia. Qed.

Lemma characters_of_facts raw :
  List.map c_name (characters_of raw)
    = List.filter truthy (List.map stripped_name (name_lines raw))
  ∧ Forall (fun c => c_name c ≠ [] ∧ normal_text (c_name c)
                     ∧ normal_text (c_class c) ∧ normal_text (c_level c))
           (characters_of raw)
  ∧ 2 * length (characters_of raw) ≤ length raw + 1.
Proof.
  induction raw as [|x|x y l (IH1 & IH2 & IH3)] using pairs_ind.
  - split_and!; [done | constructor | simpl; lia].
  - split_and!.
    + apply character_of_names.
    + apply character_of_normal.
    + pose proof (length_character_of x None). simpl in *. lia.
  - split_and!.
    + cbn [characters_of name_lines List.map]. rewrite map_app, IH1, character_of_names.
      simpl. by destruct (truthy (stripped_name x)).
    + cbn [characters_of]. apply Forall_app. split; [apply character_of_normal | done].
    + cbn [characters_of]. rewrite length_app.
      pose proof (length_character_of x (Some y)). simpl. lia.
Qed.

(** X8: the character sub-parse returns on every list of lines; the names
    of its entries are, in order, the non-empty stripped names of the name
    lines (every second line from the first); every entry has a non-empty
    normalized name and a normalized (possibly empty) class and level; there
    is at most one entry for every two lines. *)
Theorem X8_character_entries_have_names (created_raw : list pystr) :
  ∃ cs,
    characters_loop (length created_raw) created_raw 0 [] = Ok cs
    ∧ List.map c_name cs
      = List.filter truthy (List.map stripped_name (name_lines created_raw))
    ∧ Forall (fun c => c_name c ≠ [] ∧ normal_text (c_name c)
                       ∧ normal_text (c_class c) ∧ normal_text (c_level c)) cs
    ∧ 2 * length cs ≤ length created_raw + 1.
Proof.
  exists (characters_of created_raw). split; [apply characters_loop_total|].
  apply characters_of_facts.
Qed.

(** ** [candidates] on any manager *)

Lemma layers_named_cons n l ls :
  layers_named n (l :: ls)
  = (if nonempty l && bool_decide (l.1 = n) then 1 else 0) + layers_named n ls.
Proof. unfold layers_named. simpl. by destruct (nonempty l && bool_decide (l.1 = n)). Qed.

(** Every layer with endpoints adds one to the counter under its name. *)
Lemma candidates_loop_counts ls indices picks picks' indices' :
  candidates_loop ls indices picks = Ok (picks', indices') →
  (∀ n, indices' !! n = (fun c => c + layers_named n ls) <$> indices !! n)
  ∧ length picks' = length picks + length (List.filter nonempty ls).
Proof.
  revert indices picks. induction ls as [|[name ps] ls IH]; intros indices picks.
  - simpl. intros [= <- <-]. split; [|simpl; lia].
    intros n. unfold layers_named. simpl.
    destruct (indices !! n); simpl; [f_equal; lia | done].
  - simpl. unfold nonempty at 1. simpl. destruct (truthy ps) eqn:Hps; simpl.
    + unfold getkey. destruct (indices !! name) as [c|] eqn:Hc; simpl; [|done].
      destruct (getitem ps (c mod length ps)) as [p| |]; simpl; try done.
      intros [Hcnt Hlen]%IH. split.
      * intros n. rewrite Hcnt, layers_named_cons. unfold nonempty at 1. simpl.
        rewrite Hps. simpl. case_bool_decide as Hn.
        -- subst n. rewrite lookup_insert_eq, Hc. simpl. f_equal. lia.
        -- rewrite lookup_insert_ne by done. done.
      * rewrite Hlen, length_app. simpl. lia.
    + intros [Hcnt Hlen]%IH. split; [|done].
      intros n. rewrite Hcnt, layers_named_cons. unfold nonempty at 1. simpl.
      by rewrite Hps.
Qed.

(** The loop raises exactly when a layer with endpoints has no counter,
    and then [KeyError]. *)
Lemma candidates_loop_raises ls indices picks :
  (∃ l, l ∈ ls ∧ nonempty l = true ∧ indices !! l.1 = None
        ∧ candidates_loop ls indices picks = Raise KeyError)
  ∨ ((∀ l, l ∈ ls → nonempty l = true → is_Some (indices !! l.1))
     ∧ ∃ r, candidates_loop ls indices picks = Ok r).
Proof.
  revert indices picks. induction ls as [|[name ps] ls IH]; intros indices picks.
  - right. split; [|by eexists]. intros l Hl. by apply elem_of_nil in Hl.
  - simpl. destruct (truthy ps) eqn:Hps; simpl.
    + unfold getkey. destruct (indices !! name) as [c|] eqn:Hc; simpl.
      2: { left. exists (name, ps). split_and!; try done. apply list_elem_of_here. }
      destruct (getitem_lt ps (c mod length ps)) as (p & -> & _).
      { apply Nat.mod_upper_bound. apply truthy_length in Hps. lia. }
      simpl.
      destruct (IH (<[name:=c + 1]> indices) (picks ++ [{| layer := name; proxy := Some p |}]))
        as [(l & Hl & Hne & Hnone & ->) | [Hall [r ->]]].
      * left. exists l. split_and!; try done; [by apply list_elem_of_further|].
        destruct (decide (name = l.1)) as [Heq|Hneq].
        -- rewrite Heq, lookup_insert_eq in Hnone. done.
        -- by rewrite lookup_insert_ne in Hnone.
      * right. split; [|by eexists].
        intros l [->|Hl]%elem_of_cons Hne; [simpl; eauto|].
        specialize (Hall l Hl Hne).
        destruct (decide (name = l.1)) as [Heq|Hneq].
        -- rewrite <- Heq, Hc. eauto.
        -- by rewrite lookup_insert_ne in Hall.
    + destruct (IH indices picks) as [(l & Hl & Hne & Hnone & ->) | [Hall [r ->]]].
      * left. exists l. split_and!; try done. by apply list_elem_of_further.
      * right. split; [|by eexists].
        intros l [->|Hl]%elem_of_cons Hne; [|by apply Hall].
        unfold nonempty in Hne. simpl in Hne. congruence.
Qed.

(** X9: a call of [candidates] that returns leaves the layers and the
    direct-fallback flag as they are, adds to the counter of every name the
    number of layers with endpoints that bear this name (one, when names are
    distinct), creates no counter, and returns one pick for every layer with
    endpoints, plus the direct pick when the flag is set. *)
Theorem X9_candidates_advances_counters (pm : ProxyManager) :
  match candidates pm with
  | Ok (picks, pm') =>
      layers pm' = layers pm
      ∧ direct_fallback pm' = direct_fallback pm
      ∧ (∀ n, _indices pm' !! n
              = (fun c => c + layers_named n (layers pm)) <$> _indices pm !! n)
      ∧ length picks = length (List.filter nonempty (layers pm))
                       + (if direct_fallback pm then 1 else 0)
  | _ => True
  end.
Proof.
  unfold candidates.
  destruct (candidates_loop (layers pm) (_indices pm) []) as [[picks indices']| |] eqn:Hloop;
    simpl; try done.
  apply candidates_loop_counts in Hloop as [Hcnt Hlen]. simpl in Hlen.
  split_and!; try done.
  destruct (direct_fallback pm); [rewrite length_app; simpl|]; lia.
Qed.

(** X10: [candidates] raises if and only if some layer with endpoints has no
    counter under its name, and what it raises then is [KeyError]; in every
    other manager it returns. *)
Theorem X10_candidates_raises_only_KeyError (pm : ProxyManager) :
  ((∃ l, l ∈ layers pm ∧ nonempty l = true ∧ _indices pm !! l.1 = None)
   ↔ candidates pm = Raise KeyError)
  ∧ ((∀ l, l ∈ layers pm → nonempty l = true → is_Some (_indices pm !! l.1))
     ↔ ∃ r, candidates pm = Ok r).
Proof.
  unfold candidates.
  destruct (candidates_loop_raises (layers pm) (_indices pm) [])
    as [(l & Hl & Hne & Hnone & ->) | [Hall [r ->]]]; simpl.
  - split.
    + split; [done | eauto].
    + split; [|intros [r Hr]; done].
      intros Hall. destruct (Hall l Hl Hne) as [c Hc]. congruence.
  - split.
    + split; [|done]. intros (l & Hl & Hne & Hnone).
      destruct (Hall l Hl Hne) as [c Hc]. congruence.
    + split; [eauto | done].
Qed.

(** ** Attempts, sleeps and the manager in [scrape_one] *)

Lemma attempt_events a sops rest :
  Forall (fun e => is_session_event e = true) sops →
  List.filter is_sleep (Candidates a :: sops ++ rest) = List.filter is_sleep rest
  ∧ List.filter is_candidates (Candidates a :: sops ++ rest)
    = Candidates a :: List.filter is_candidates rest.
Proof.
  intros [Hs Hc]%session_events_not_counted. simpl.
  by rewrite !List.filter_app, Hs, Hc.
Qed.

Section RunFacts.
Variable cfg : Config.
Variable browser : Browser.
Variable url : pystr.

(** One turn of the loop over the attempts, written out. *)
Lemma attempts_loop_cons a more last w :
  attempts_loop cfg browser url (a :: more) last w =
  match candidates (mgr w) with
  | Ok (picks, pm') =>
      match picks_loop cfg browser url picks last
              {| mgr := pm'; requested := requested w;
                 trace := trace w ++ [Candidates a] |} with
      | (Ok (Some data, _), w2) => (Ok data, w2)
      | (Ok (None, le), w2) =>
          match backoff cfg a with
          | Ok delay =>
              attempts_loop cfg browser url more le
                {| mgr := mgr w2; requested := requested w2;
                   trace := trace w2 ++ [Sleep delay] |}
          | Raise e => (Raise e, w2)
          | Diverge => (Diverge, w2)
          end
      | (Raise e, w2) => (Raise e, w2)
      | (Diverge, w2) => (Diverge, w2)
      end
  | Raise e => (Raise e, w)
  | Diverge => (Diverge, w)
  end.
Proof.
  simpl. unfold mbind at 1, M_bind at 1, call_candidates.
  destruct (candidates (mgr w)) as [[picks pm']| |]; simpl; try done.
  unfold mbind at 1, M_bind at 1.
  destruct (picks_loop cfg browser url picks last _) as [[[[data|] le]|e|] w2];
    simpl; done.
Qed.

(** What a run of the loop over the attempts adds to the trace, and what
    it does to the manager. *)
Lemma attempts_loop_run attempts_left last w :
  ∃ ops,
    trace (attempts_loop cfg browser url attempts_left last w).2 = trace w ++ ops
    ∧ attempts ops ≤ length attempts_left
    ∧ sleeps ops ≤ attempts ops
    ∧ attempts ops ≤ sleeps ops + 1
    ∧ (∀ data, (attempts_loop cfg browser url attempts_left last w).1 = Ok data →
               attempts ops = sleeps ops + 1)
    ∧ Forall2 (fun a e => ∃ d, e = Sleep d ∧ backoff cfg a = Ok d)
              (take (sleeps ops) attempts_left) (List.filter is_sleep ops)
    ∧ (∃ pss, calls (attempts ops) (mgr w)
              = Ok (pss, mgr (attempts_loop cfg browser url attempts_left last w).2))
    ∧ (attempts ops = 0 → (attempts_loop cfg browser url attempts_left last w).2 = w).
Proof.
  unfold attempts, sleeps.
  revert last w. induction attempts_left as [|a more IH]; intros last w.
  - exists []. simpl. rewrite app_nil_r. split_and!; try done; try lia. by exists [].
  - rewrite attempts_loop_cons.
    destruct (candidates (mgr w)) as [[picks pm']| |] eqn:Hcand.
    2,3: exists []; simpl; rewrite app_nil_r; split_and!; try done; try lia;
         by exists [].
    set (w1 := {| mgr := pm'; requested := requested w;
                  trace := trace w ++ [Candidates a] |}).
    destruct (picks_loop_spec cfg browser url picks last w1 0)
      as (sops & next1 & Ht & _ & _ & Hm & Hev & _); [lia|].
    assert (∀ rest, trace w1 ++ sops ++ rest = trace w ++ Candidates a :: sops ++ rest)
      as Htr by (intros rest; subst w1; simpl; by rewrite <- app_assoc).
    assert (∃ ops,
              trace w1 ++ sops = trace w ++ ops
              ∧ length (List.filter is_candidates ops) ≤ S (length more)
              ∧ length (List.filter is_sleep ops) ≤ length (List.filter is_candidates ops)
              ∧ length (List.filter is_candidates ops) ≤ length (List.filter is_sleep ops) + 1
              ∧ length (List.filter is_candidates ops) = length (List.filter is_sleep ops) + 1
              ∧ Forall2 (fun a e => ∃ d, e = Sleep d ∧ backoff cfg a = Ok d)
                        (take (length (List.filter is_sleep ops)) (a :: more))
                        (List.filter is_sleep ops)
              ∧ (∃ pss, calls (length (List.filter is_candidates ops)) (mgr w)
                        = Ok (pss, pm'))
              ∧ length (List.filter is_candidates ops) ≠ 0) as Hone.
    { exists (Candidates a :: sops ++ []).
      destruct (attempt_events a sops [] Hev) as [-> ->]. simpl.
      split_and!; try done; try lia.
      - by rewrite <- (Htr []), app_nil_r.
      - exists [picks]. by rewrite Hcand. }
    destruct (picks_loop cfg browser url picks last w1) as [r w2]. simpl in Ht, Hm.
    destruct r as [[[data|] le]|e|].
    1,3,4: destruct Hone as (ops & ? & ? & ? & ? & ? & ? & ? & ?);
           exists ops; simpl; rewrite Ht, Hm; split_and!; done.
    destruct (backoff cfg a) as [delay|e|] eqn:Hb.
    2,3: destruct Hone as (ops & ? & ? & ? & ? & ? & ? & ? & ?);
         exists ops; simpl; rewrite Ht, Hm; split_and!; done.
    set (w3 := {| mgr := mgr w2; requested := requested w2;
                  trace := trace w2 ++ [Sleep delay] |}).
    destruct (IH le w3) as (ops3 & Ht3 & Hle & Hsa & Has & Hok & Hd & [pss Hcalls] & Hzero).
    exists (Candidates a :: sops ++ Sleep delay :: ops3).
    destruct (attempt_events a sops (Sleep delay :: ops3) Hev) as [-> ->].
    simpl. split_and!; try lia.
    + rewrite Ht3. subst w3. simpl. rewrite Ht, <- !app_assoc. simpl.
      by rewrite <- Htr.
    + intros data Hdata. rewrite (Hok data Hdata). lia.
    + constructor; [by exists delay | done].
    + exists (picks :: pss). rewrite Hcand. simpl.
      subst w3. simpl in Hcalls. rewrite <- Hm, Hcalls. reflexivity.
Qed.
End RunFacts.

Lemma py_range_length lo hi : length (py_range lo hi) = Z.to_nat (hi - lo).
Proof. unfold py_range. by rewrite length_map, length_seq. Qed.

Lemma py_range_take lo hi n :
  n ≤ Z.to_nat (hi - lo) → take n (py_range lo hi) = py_range lo (lo + Z.of_nat n).
Proof.
  intros Hn. unfold py_range.
  replace (Z.to_nat (lo + Z.of_nat n - lo)) with n by lia.
  rewrite firstn_map, take_seq. by rewrite Nat.min_l.
Qed.


(** X11: [scrape_one] makes at most [cfg.retries] attempts; it sleeps once
    after every attempt that found no data and at no other time, so the
    sleeps number the attempts or one less, and exactly one less when it
    returns data. As long as no call of [candidates] has returned, the
    engine has not been asked for anything. With a retry budget of zero or
    less it does nothing at all: no attempt, no call of the engine or of
    the manager, and [ScrapingFailed] with no last error. *)
Theorem X11_attempts_and_sleeps (cfg : Config) (browser : Browser)
    (url : pystr) (pm : ProxyManager) :
  attempts (trace (scrape_one cfg browser url (world0 pm)).2) ≤ Z.to_nat (retries cfg)
  ∧ sleeps (trace (scrape_one cfg browser url (world0 pm)).2)
    ≤ attempts (trace (scrape_one cfg browser url (world0 pm)).2)
  ∧ attempts (trace (scrape_one cfg browser url (world0 pm)).2)
    ≤ sleeps (trace (scrape_one cfg browser url (world0 pm)).2) + 1
  ∧ (∀ data, (scrape_one cfg browser url (world0 pm)).1 = Ok data →
       attempts (trace (scrape_one cfg browser url (world0 pm)).2)
       = sleeps (trace (scrape_one cfg browser url (world0 pm)).2) + 1)
  ∧ (attempts (trace (scrape_one cfg browser url (world0 pm)).2) = 0 →
     trace (scrape_one cfg browser url (world0 pm)).2 = []
     ∧ requested (scrape_one cfg browser url (world0 pm)).2 = 0)
  ∧ ((retries cfg ≤ 0)%Z →
     scrape_one cfg browser url (world0 pm)
     = (Raise (ScrapingFailed url None), world0 pm)).
Proof.
  unfold scrape_one.
  destruct (attempts_loop_run cfg browser url (py_range 1 (retries cfg + 1)) None (world0 pm))
    as (ops & Ht & Hle & Hsa & Has & Hok & _ & _ & Hzero).
  simpl in Ht. rewrite Ht. rewrite py_range_length in Hle.
  split_and!; try done; try lia.
  { intros H0. rewrite <- Ht, (Hzero H0). done. }
  intros HR. unfold py_range.
  replace (Z.to_nat (retries cfg + 1 - 1)) with 0 by lia. done.
Qed.

(** X12: the sleeps of a run of [scrape_one] are, in order, the delays of
    the attempts 1, 2, 3, ...: the [i]-th sleep lasts what the backoff
    expression gives for attempt [i], and none exceeds
    [cfg.max_backoff_seconds]. *)
Theorem X12_sleeps_are_the_backoff_delays (cfg : Config) (browser : Browser)
    (url : pystr) (pm : ProxyManager) :
  Forall2 (fun a e => ∃ d, e = Sleep d ∧ backoff cfg a = Ok d
                           ∧ (max_backoff_seconds cfg <? d)%float = false)
          (py_range 1 (1 + Z.of_nat (sleeps (trace (scrape_one cfg browser url (world0 pm)).2))))
          (List.filter is_sleep (trace (scrape_one cfg browser url (world0 pm)).2)).
Proof.
  unfold scrape_one.
  destruct (attempts_loop_run cfg browser url (py_range 1 (retries cfg + 1)) None (world0 pm))
    as (ops & Ht & Hle & Hsa & _ & _ & Hd & _).
  simpl in Ht. rewrite Ht. rewrite py_range_length in Hle.
  rewrite py_range_take in Hd by lia.
  eapply Forall2_impl; [exact Hd|].
  intros a e (d & -> & Hb). exists d. split_and!; try done.
  by eapply backoff_never_exceeds_max.
Qed.



(** [candidates] either raises [KeyError] for want of a counter, or returns
    and leaves the layers and the set of counters as they were. *)
Lemma candidates_cases pm :
  (candidates pm = Raise KeyError
   ∧ ∃ l, l ∈ layers pm ∧ nonempty l = true ∧ _indices pm !! l.1 = None)
  ∨ ∃ picks pm',
      candidates pm = Ok (picks, pm')
      ∧ layers pm' = layers pm
      ∧ ∀ n, _indices pm' !! n = None → _indices pm !! n = None.
Proof.
  unfold candidates.
  destruct (candidates_loop_raises (layers pm) (_indices pm) [])
    as [(l & Hl & Hne & Hnone & Hr) | [_ [[picks indices'] Hr]]]; rewrite Hr; simpl.
  - left. eauto.
  - right. eexists _, _. split_and!; try done. simpl.
    apply candidates_loop_counts in Hr as [Hcnt _].
    intros n. rewrite Hcnt. by destruct (_indices pm !! n).
Qed.

(** The backoff expression raises nothing but [OverflowError], and only
    outside the attempts 1 to 1024. *)
Lemma backoff_cases cfg a :
  match backoff cfg a with
  | Ok _ => True
  | Raise e => e = OverflowError ∧ ¬ (1 ≤ a ≤ 1024)%Z
  | Diverge => False
  end.
Proof.
  destruct (decide (1 ≤ a ≤ 1024)%Z) as [Ha|Ha].
  - by destruct (backoff_in_range cfg a Ha) as (p & _ & ->).
  - unfold backoff, float_of_int.
    destruct (is_infinity _); simpl; done.
Qed.

(** ** How a run of [scrape_one] ends *)

Section EndFacts.
Variable cfg : Config.
Variable browser : Browser.
Variable url : pystr.

(** One pass through [try] and [finally], by cases. *)
Lemma try_finally_cases pick w :
  ∃ context r w1 fr w2 sops,
    try_block cfg browser url pick w = (context, r, w1)
    ∧ finally_block browser context w1 = (fr, w2)
    ∧ trace w2 = trace w ++ sops
    ∧ mgr w2 = mgr w
    ∧ Forall (fun e => is_session_event e = true) sops
    ∧ match fr with
      | Ok _ =>
          match r with
          | Ok data =>
              sops = clean_session (requested w) url pick
              ∧ requested w2 = S (requested w)
              ∧ serves_cleanly (browser (requested w))
              ∧ parse_profile (the_page (browser (requested w))) url = Ok (profile data)
              ∧ _proxy_layer data = layer pick
              ∧ _proxy data = proxy pick
          | Raise _ => True
          | Diverge => ∃ k, parse_profile (the_page (browser k)) url = Diverge
          end
      | Raise e => ∃ t k, sops = t ++ [Close k] ∧ on_close (browser k) = Some e
      | Diverge => False
      end.
Proof.
  unfold try_block, new_context, browser_new_context, mbind, M_bind, lift, getkey.
  destruct (viewport cfg !! str "width"); simpl.
  2: { eexists _, _, _, _, _, []. rewrite app_nil_r. split_and!; done. }
  destruct (viewport cfg !! str "height"); simpl.
  2: { eexists _, _, _, _, _, []. rewrite app_nil_r. split_and!; done. }
  destruct (on_new_context (browser (requested w))) eqn:Hnc; simpl.
  { eexists _, _, _, _, _, []. rewrite app_nil_r. split_and!; done. }
  unfold in_context, finally_block, mbind, M_bind, mret, M_ret, log, raise_if, lift.
  simpl.
  destruct (on_new_page (browser (requested w))) eqn:Hnp; simpl.
  2: destruct (on_goto (browser (requested w))) eqn:Hg; simpl.
  3: destruct (on_wait (browser (requested w))) eqn:Hw; simpl.
  4: destruct (parse_profile (the_page (browser (requested w))) url) eqn:Hp; simpl.
  all: destruct (on_close (browser (requested w))) eqn:Hcl; simpl.
  all: eexists _, _, _, _, _, _; split; [reflexivity|]; simpl; rewrite Hcl; simpl;
       split; [reflexivity|].
  all: split; [simpl; rewrite <- ?app_assoc; simpl; reflexivity|].
  all: split; [reflexivity|]; split; [repeat constructor|]; simpl; try done.
  all: try (first [ by eexists [_], _ | by eexists [_; _], _ | by eexists [_; _; _], _
                  | by eexists [_; _; _; _], _ | by eexists [_; _; _; _; _], _ ]).
  all: eauto.
Qed.
(** The loop over the picks, by the way it is left. *)
Lemma picks_loop_ends picks last w :
  ∃ sops,
    trace (picks_loop cfg browser url picks last w).2 = trace w ++ sops
    ∧ mgr (picks_loop cfg browser url picks last w).2 = mgr w
    ∧ Forall (fun e => is_session_event e = true) sops
    ∧ match (picks_loop cfg browser url picks last w).1 with
      | Ok (Some data, _) =>
          ∃ t k pick,
            pick ∈ picks
            ∧ sops = t ++ clean_session k url pick
            ∧ requested (picks_loop cfg browser url picks last w).2 = S k
            ∧ serves_cleanly (browser k)
            ∧ parse_profile (the_page (browser k)) url = Ok (profile data)
            ∧ _proxy_layer data = layer pick
            ∧ _proxy data = proxy pick
      | Ok (None, _) => True
      | Raise e => ∃ t k, sops = t ++ [Close k] ∧ on_close (browser k) = Some e
      | Diverge => ∃ k, parse_profile (the_page (browser k)) url = Diverge
      end.
Proof.
  revert last w. induction picks as [|pick more IH]; intros last w.
  - exists []. simpl. rewrite app_nil_r. done.
  - destruct (try_finally_cases pick w)
      as (context & r & w1 & fr & w2 & sops & Htry & Hfin & Ht & Hm & Hev & Hcase).
    simpl. rewrite Htry, Hfin.
    destruct fr as [[]|e|]; [|by exists sops|done].
    destruct r as [data|e|]; simpl.
    + exists sops. split_and!; try done.
      destruct Hcase as (-> & ? & ? & ? & ? & ?).
      exists [], (requested w), pick. split_and!; try done. apply list_elem_of_here.
    + destruct (IH (Some e) w2) as (sops2 & Ht2 & Hm2 & Hev2 & Hcase2).
      exists (sops ++ sops2). split_and!.
      * by rewrite Ht2, Ht, app_assoc.
      * congruence.
      * by apply Forall_app.
      * destruct (picks_loop cfg browser url more (Some e) w2) as [[[[data|] le]|e'|] w3];
          simpl in *; try done.
        -- destruct Hcase2 as (t & k & pick' & Hin & -> & ? & ? & ? & ? & ?).
           exists (sops ++ t), k, pick'. rewrite <- app_assoc.
           split_and!; try done. by apply list_elem_of_further.
        -- destruct Hcase2 as (t & k & -> & ?). exists (sops ++ t), k.
           by rewrite <- app_assoc.
    + by exists sops.
Qed.
(** The loop over the attempts, by the way it is left. *)
Lemma attempts_loop_ends attempts_left le w :
  ∃ ops,
    trace (attempts_loop cfg browser url attempts_left le w).2 = trace w ++ ops
    ∧ match (attempts_loop cfg browser url attempts_left le w).1 with
      | Ok data =>
          ∃ t k pick n pss picks,
            ops = t ++ clean_session k url pick
            ∧ requested (attempts_loop cfg browser url attempts_left le w).2 = S k
            ∧ serves_cleanly (browser k)
            ∧ parse_profile (the_page (browser k)) url = Ok (profile data)
            ∧ _proxy_layer data = layer pick
            ∧ _proxy data = proxy pick
            ∧ attempts ops = S n
            ∧ calls (S n) (mgr w)
              = Ok (pss, mgr (attempts_loop cfg browser url attempts_left le w).2)
            ∧ last pss = Some picks
            ∧ pick ∈ picks
      | Raise e =>
          (∃ le', e = ScrapingFailed url le' ∧ sleeps ops = length attempts_left)
          ∨ (e = KeyError
             ∧ ∃ l, l ∈ layers (mgr w) ∧ nonempty l = true ∧ _indices (mgr w) !! l.1 = None)
          ∨ (e = OverflowError ∧ ∃ a, a ∈ attempts_left ∧ ¬ (1 ≤ a ≤ 1024)%Z)
          ∨ (∃ t k, ops = t ++ [Close k] ∧ on_close (browser k) = Some e)
      | Diverge => ∃ k, parse_profile (the_page (browser k)) url = Diverge
      end.
Proof.
  revert le w. induction attempts_left as [|a more IH]; intros le w.
  - exists []. simpl. rewrite app_nil_r. split; [done|]. left. by exists le.
  - rewrite attempts_loop_cons.
    destruct (candidates_cases (mgr w)) as [[Hcand Hl] | (picks & pm' & Hcand & Hlay & Hdom)];
      rewrite Hcand.
    { exists []. simpl. rewrite app_nil_r. split; [done|]. right. left. done. }
    set (w1 := {| mgr := pm'; requested := requested w;
                  trace := trace w ++ [Candidates a] |}).
    destruct (picks_loop_ends picks le w1) as (sops & Ht & Hm & Hev & Hcase).
    assert (∀ rest, trace w1 ++ sops ++ rest = trace w ++ Candidates a :: sops ++ rest)
      as Htr by (intros rest; subst w1; simpl; by rewrite <- app_assoc).
    assert (trace w1 ++ sops = trace w ++ Candidates a :: sops) as Htr0
      by (subst w1; simpl; by rewrite <- app_assoc).
    destruct (picks_loop cfg browser url picks le w1) as [[[[data|] le1]|e|] w2];
      simpl in Ht, Hm, Hcase.
    + exists (Candidates a :: sops). simpl. split; [by rewrite Ht|].
      destruct Hcase as (t & k & pick & Hin & -> & ? & ? & ? & ? & ?).
      exists (Candidates a :: t), k, pick, 0, [picks], picks.
      split_and!; try done.
      * unfold attempts. rewrite <- (app_nil_r (t ++ _)).
        by destruct (attempt_events a (t ++ clean_session k url pick) [] Hev) as [_ ->].
      * simpl. rewrite Hcand. simpl. by rewrite Hm.
    + pose proof (backoff_cases cfg a) as Hb.
      destruct (backoff cfg a) as [delay|e|]; [| |done].
      2: { exists (Candidates a :: sops). simpl. split; [by rewrite Ht|].
           destruct Hb as [-> Ha]. right. right. left. split; [done|].
           exists a. split; [apply list_elem_of_here | done]. }
      set (w3 := {| mgr := mgr w2; requested := requested w2;
                    trace := trace w2 ++ [Sleep delay] |}).
      destruct (IH le1 w3) as (ops3 & Ht3 & Hcase3).
      exists (Candidates a :: sops ++ Sleep delay :: ops3). split.
      { rewrite Ht3. subst w3. simpl. rewrite Ht, <- !app_assoc. simpl. by rewrite <- Htr. }
      destruct (attempts_loop cfg browser url more le1 w3) as [[data|e|] w4];
        simpl in Ht3, Hcase3; simpl.
      * destruct Hcase3 as (t & k & pick & n & pss & picks' & -> & ? & ? & ? & ? & ?
                            & Hatt & Hcalls & Hlast & Hin).
        exists (Candidates a :: sops ++ Sleep delay :: t), k, pick, (S n),
               (picks :: pss), picks'.
        split_and!; try done.
        -- simpl. by rewrite <- app_assoc.
        -- unfold attempts in *.
           destruct (attempt_events a sops (Sleep delay :: t ++ clean_session k url pick) Hev)
             as [_ ->]. simpl. by rewrite Hatt.
        -- change (calls (S (S n)) (mgr w))
             with (r ← candidates (mgr w); rs ← calls (S n) r.2; Ok (r.1 :: rs.1, rs.2)).
           rewrite Hcand. simpl. rewrite <- Hm.
           simpl in Hcalls. by rewrite Hcalls.
        -- by rewrite last_cons, Hlast.
      * destruct Hcase3 as [(le' & -> & Hsl) | [(-> & l & Hl & Hne & Hnone)
                           | [(-> & a' & Ha' & Hr) | (t & k & -> & Hcl)]]].
        -- left. exists le'. split; [done|]. unfold sleeps in *.
           destruct (attempt_events a sops (Sleep delay :: ops3) Hev) as [-> _].
           simpl. by rewrite Hsl.
        -- right. left. split; [done|]. exists l. split_and!; try done.
           ++ rewrite <- Hlay, <- Hm. done.
           ++ apply Hdom. rewrite <- Hm. done.
        -- right. right. left. split; [done|]. exists a'. split; [|done].
           by apply list_elem_of_further.
        -- do 3 right. exists (Candidates a :: sops ++ Sleep delay :: t), k.
           split; [|done]. simpl. by rewrite <- app_assoc.
      * done.
    + exists (Candidates a :: sops). simpl. split; [by rewrite Ht|].
      destruct Hcase as (t & k & -> & ?). do 3 right. by exists (Candidates a :: t), k.
    + exists (Candidates a :: sops). simpl. split; [|done]. by rewrite Ht.
Qed.
(** With an incomplete viewport every pick fails before the engine is
    asked. *)
Lemma picks_loop_no_viewport picks le w :
  viewport_incomplete cfg →
  picks_loop cfg browser url picks le w
  = (Ok (None, match picks with [] => le | _ => Some KeyError end), w).
Proof.
  intros Hv. revert le w. induction picks as [|pick more IH]; intros le w; [done|].
  assert (try_block cfg browser url pick w = (None, Raise KeyError, w)) as Htry.
  { unfold try_block, new_context, mbind, M_bind, lift, getkey.
    destruct Hv as [-> | Hh]; [done|].
    destruct (viewport cfg !! str "width"); [|done]. by rewrite Hh. }
  simpl. rewrite Htry. simpl. rewrite IH. by destruct more.
Qed.

Lemma attempts_loop_no_viewport attempts_left le w :
  viewport_incomplete cfg →
  le = None ∨ le = Some KeyError →
  requested (attempts_loop cfg browser url attempts_left le w).2 = requested w
  ∧ (∃ ops, trace (attempts_loop cfg browser url attempts_left le w).2 = trace w ++ ops
            ∧ Forall (fun e => is_session_event e = false) ops)
  ∧ (∀ data, (attempts_loop cfg browser url attempts_left le w).1 ≠ Ok data)
  ∧ (∀ le', (attempts_loop cfg browser url attempts_left le w).1
            = Raise (ScrapingFailed url le') → le' = None ∨ le' = Some KeyError).
Proof.
  intros Hv. revert le w. induction attempts_left as [|a more IH]; intros le w Hle.
  - simpl. split_and!; try done.
    + exists []. by rewrite app_nil_r.
    + by intros le' [= <-].
  - rewrite attempts_loop_cons.
    destruct (candidates_cases (mgr w)) as [[Hcand _] | (picks & pm' & Hcand & _)];
      rewrite Hcand.
    { simpl. split_and!; try done. exists []. by rewrite app_nil_r. }
    rewrite picks_loop_no_viewport by done.
    pose proof (backoff_cases cfg a) as Hb.
    destruct (backoff cfg a) as [delay|e|]; [| |done].
    2: { destruct Hb as [-> _]. simpl. split_and!; try done.
         exists [Candidates a]. split; [done|]. by repeat constructor. }
    set (w3 := {| mgr := _; requested := _; trace := _ |}).
    destruct (IH (match picks with [] => le | _ => Some KeyError end) w3)
      as (Hreq & (ops & Ht & Hev) & Hok & Hfail).
    { destruct picks; [done | by right]. }
    split_and!; try done.
    exists (Candidates a :: Sleep delay :: ops). split.
    + rewrite Ht. subst w3. simpl. by rewrite <- !app_assoc.
    + by repeat constructor.
Qed.
End EndFacts.

(** X14: what the exception of a failed run tells, for the three exceptions
    that [scrape_one] and the manager raise themselves. Unless it is what a
    [context.close()] raised in the [finally] block, which then was the
    last call of the run: [ScrapingFailed] is raised only when the retry
    budget is used up, after as many attempts and as many sleeps as the
    budget; [KeyError] only when a layer with endpoints has no counter in
    the manager the run started with; [OverflowError] only with a budget
    above 1024. *)
Theorem X14_own_errors_of_scrape_one (cfg : Config) (browser : Browser)
    (url : pystr) (pm : ProxyManager) (e : exn) :
  (scrape_one cfg browser url (world0 pm)).1 = Raise e →
  (∃ t k, trace (scrape_one cfg browser url (world0 pm)).2 = t ++ [Close k]
          ∧ on_close (browser k) = Some e)
  ∨ match e with
    | ScrapingFailed u le =>
        u = url
        ∧ attempts (trace (scrape_one cfg browser url (world0 pm)).2)
          = Z.to_nat (retries cfg)
        ∧ sleeps (trace (scrape_one cfg browser url (world0 pm)).2)
          = Z.to_nat (retries cfg)
    | KeyError => ∃ l, l ∈ layers pm ∧ nonempty l = true ∧ _indices pm !! l.1 = None
    | OverflowError => (1024 < retries cfg)%Z
    | _ => True
    end.
Proof.
  unfold scrape_one. intros He.
  destruct (attempts_loop_ends cfg browser url (py_range 1 (retries cfg + 1)) None (world0 pm))
    as (ops & Ht & Hcase).
  destruct (attempts_loop_run cfg browser url (py_range 1 (retries cfg + 1)) None (world0 pm))
    as (ops' & Ht' & Hle & Hsa & _).
  simpl in Ht, Ht'. rewrite Ht in Ht'. subst ops'. rewrite Ht.
  rewrite py_range_length in Hle. rewrite He in Hcase.
  destruct Hcase as [(le' & -> & Hsl) | [(-> & l & Hl & Hne & Hnone)
                    | [(-> & a & Ha & Hr) | Hclose]]].
  - right. rewrite py_range_length in Hsl. split_and!; [done|lia|lia].
  - right. by exists l.
  - right. apply list_elem_of_In, in_map_iff in Ha as (n & <- & Hn%in_seq). lia.
  - by left.
Qed.

Lemma X14_witness :
  (∃ t k,
      trace (scrape_one (config_with_retries 1) browser_unreachable
                        (str "https://example.test/p") (world0 pm_direct_only)).2
      = t ++ [Close k]
      ∧ on_close (browser_unreachable k)
        = Some (ScrapingFailed (str "https://example.test/p") (Some PWTimeoutError)))
  ∨ (str "https://example.test/p" = str "https://example.test/p"
     ∧ attempts (trace (scrape_one (config_with_retries 1) browser_unreachable
                                   (str "https://example.test/p")
                                   (world0 pm_direct_only)).2)
       = Z.to_nat (retries (config_with_retries 1))
     ∧ sleeps (trace (scrape_one (config_with_retries 1) browser_unreachable
                                 (str "https://example.test/p")
                                 (world0 pm_direct_only)).2)
       = Z.to_nat (retries (config_with_retries 1))).
Proof.
  apply (X14_own_errors_of_scrape_one (config_with_retries 1) browser_unreachable
           (str "https://example.test/p") pm_direct_only
           (ScrapingFailed (str "https://example.test/p") (Some PWTimeoutError))).
  vm_compute. reflexivity.
Defined.

(** X15: the data [scrape_one] returns is what [parse_profile] returned on
    the page of the last session of the run, a session in which no call
    raised and whose context was closed as the last thing the run did; its
    [_proxy_layer] and [_proxy] are those of the pick of that session, one
    of the picks the latest call of [candidates] gave. *)
Theorem X15_returned_data_comes_from_the_last_session (cfg : Config) (browser : Browser)
    (url : pystr) (pm : ProxyManager) (data : ScrapeData) :
  (scrape_one cfg browser url (world0 pm)).1 = Ok data →
  ∃ t k pick pss picks,
    trace (scrape_one cfg browser url (world0 pm)).2 = t ++ clean_session k url pick
    ∧ requested (scrape_one cfg browser url (world0 pm)).2 = S k
    ∧ serves_cleanly (browser k)
    ∧ parse_profile (the_page (browser k)) url = Ok (profile data)
    ∧ _proxy_layer data = layer pick
    ∧ _proxy data = proxy pick
    ∧ calls (attempts (trace (scrape_one cfg browser url (world0 pm)).2)) pm
      = Ok (pss, mgr (scrape_one cfg browser url (world0 pm)).2)
    ∧ last pss = Some picks
    ∧ pick ∈ picks.
Proof.
  unfold scrape_one. intros Hdata.
  destruct (attempts_loop_ends cfg browser url (py_range 1 (retries cfg + 1)) None (world0 pm))
    as (ops & Ht & Hcase).
  rewrite Hdata in Hcase. simpl in Ht. rewrite Ht.
  destruct Hcase as (t & k & pick & n & pss & picks & -> & ? & ? & ? & ? & ? & -> & ? & ? & ?).
  by exists t, k, pick, pss, picks.
Qed.

Lemma X15_witness :
  ∃ data,
    (scrape_one (config_with_retries 2) browser_reachable (str "https://example.test/p")
                (world0 pm_mid_run)).1 = Ok data
    ∧ ∃ t k pick pss picks,
        trace (scrape_one (config_with_retries 2) browser_reachable
                          (str "https://example.test/p") (world0 pm_mid_run)).2
        = t ++ clean_session k (str "https://example.test/p") pick
        ∧ requested (scrape_one (config_with_retries 2) browser_reachable
                                (str "https://example.test/p") (world0 pm_mid_run)).2 = S k
        ∧ serves_cleanly (browser_reachable k)
        ∧ parse_profile (the_page (browser_reachable k)) (str "https://example.test/p")
          = Ok (profile data)
        ∧ _proxy_layer data = layer pick
        ∧ _proxy data = proxy pick
        ∧ calls (attempts (trace (scrape_one (config_with_retries 2) browser_reachable
                                             (str "https://example.test/p")
                                             (world0 pm_mid_run)).2)) pm_mid_run
          = Ok (pss, mgr (scrape_one (config_with_retries 2) browser_reachable
                                     (str "https://example.test/p") (world0 pm_mid_run)).2)
        ∧ last pss = Some picks
        ∧ pick ∈ picks.
Proof.
  eexists. split; [vm_compute; reflexivity|].
  apply (X15_returned_data_comes_from_the_last_session (config_with_retries 2)
           browser_reachable (str "https://example.test/p") pm_mid_run).
  vm_compute. reflexivity.
Defined.

(** X16: when the viewport dictionary of the configuration lacks "width" or
    "height", [scrape_one] never asks the engine for a context: every pick
    fails with [KeyError] inside the [try] block, the run consists of
    [candidates] calls and sleeps only, it never returns data, and the last
    error of its [ScrapingFailed] is that [KeyError] (or none, when no pick
    was tried). *)
Theorem X16_incomplete_viewport_never_reaches_the_engine (cfg : Config)
    (browser : Browser) (url : pystr) (pm : ProxyManager) :
  viewport_incomplete cfg →
  requested (scrape_one cfg browser url (world0 pm)).2 = 0
  ∧ Forall (fun e => is_session_event e = false)
           (trace (scrape_one cfg browser url (world0 pm)).2)
  ∧ (∀ data, (scrape_one cfg browser url (world0 pm)).1 ≠ Ok data)
  ∧ (∀ le, (scrape_one cfg browser url (world0 pm)).1 = Raise (ScrapingFailed url le) →
           le = None ∨ le = Some KeyError).
Proof.
  intros Hv. unfold scrape_one.
  destruct (attempts_loop_no_viewport cfg browser url (py_range 1 (retries cfg + 1))
              None (world0 pm) Hv) as (Hreq & (ops & Ht & Hev) & Hok & Hfail); [by left|].
  simpl in Ht. rewrite Ht. done.
Qed.

Lemma X16_witness :
  requested (scrape_one config_without_height browser_reachable
                        (str "https://example.test/p") (world0 pm_mid_run)).2 = 0
  ∧ Forall (fun e => is_session_event e = false)
           (trace (scrape_one config_without_height browser_reachable
                              (str "https://example.test/p") (world0 pm_mid_run)).2)
  ∧ (∀ data, (scrape_one config_without_height browser_reachable
                         (str "https://example.test/p") (world0 pm_mid_run)).1 ≠ Ok data)
  ∧ (∀ le, (scrape_one config_without_height browser_reachable
                       (str "https://example.test/p") (world0 pm_mid_run)).1
           = Raise (ScrapingFailed (str "https://example.test/p") le) →
           le = None ∨ le = Some KeyError).
Proof.
  apply (X16_incomplete_viewport_never_reaches_the_engine config_without_height
           browser_reachable (str "https://example.test/p") pm_mid_run).
  right. vm_compute. reflexivity.
Defined.

(** ** Calls of the engine *)

Lemma candidates_picks pm picks pm' :
  candidates pm = Ok (picks, pm') →
  length picks = picks_per_call pm ∧ picks_per_call pm' = picks_per_call pm.
Proof.
  unfold candidates, picks_per_call.
  destruct (candidates_loop (layers pm) (_indices pm) []) as [[new indices']| |] eqn:Hloop;
    simpl; try done.
  apply candidates_loop_counts in Hloop as [_ Hlen]. simpl in Hlen.
  intros [= <- <-]. simpl. split; [|done].
  destruct (direct_fallback pm); [rewrite length_app; simpl|]; lia.
Qed.

Section EngineCalls.
Variable cfg : Config.
Variable browser : Browser.
Variable url : pystr.

(** One pass through [try] and [finally] asks the engine for at most one
    context. *)
Lemma try_finally_requested pick w :
  requested (finally_block browser (try_block cfg browser url pick w).1.1
                           (try_block cfg browser url pick w).2).2
  ≤ S (requested w).
Proof.
  unfold try_block, new_context, browser_new_context, mbind, M_bind, lift, getkey.
  destruct (viewport cfg !! str "width"); simpl; [|lia].
  destruct (viewport cfg !! str "height"); simpl; [|lia].
  destruct (on_new_context (browser (requested w))); simpl; [lia|].
  set (w1 := {| mgr := mgr w; requested := S (requested w); trace := _ |}).
  destruct (in_context_spec browser url (requested w) pick w1) as (ops & _ & Hr & _).
  destruct (in_context browser url (requested w) pick w1) as [r w2]. simpl in *.
  unfold log, raise_if, lift, mret, M_ret.
  destruct (on_close (browser (requested w))); simpl; lia.
Qed.

Lemma picks_loop_requested picks le w :
  requested (picks_loop cfg browser url picks le w).2 ≤ requested w + length picks.
Proof.
  revert le w. induction picks as [|pick more IH]; intros le w; simpl; [lia|].
  pose proof (try_finally_requested pick w) as Hreq.
  destruct (try_block cfg browser url pick w) as [[context r] w1]. simpl in Hreq.
  destruct (finally_block browser context w1) as [fr w2]. simpl in Hreq.
  destruct fr as [[]|e|]; simpl; try lia.
  destruct r as [data|e|]; simpl; try lia.
  specialize (IH (Some e) w2). lia.
Qed.

Lemma attempts_loop_requested attempts_left le w :
  ∃ ops,
    trace (attempts_loop cfg browser url attempts_left le w).2 = trace w ++ ops
    ∧ requested (attempts_loop cfg browser url attempts_left le w).2
      ≤ requested w + attempts ops * picks_per_call (mgr w).
Proof.
  revert le w. induction attempts_left as [|a more IH]; intros le w.
  - exists []. simpl. rewrite app_nil_r. split; [done|lia].
  - rewrite attempts_loop_cons.
    destruct (candidates (mgr w)) as [[picks pm']| |] eqn:Hcand.
    2,3: exists []; simpl; rewrite app_nil_r; split; [done|lia].
    apply candidates_picks in Hcand as [Hlen Hsame].
    set (w1 := {| mgr := pm'; requested := requested w;
                  trace := trace w ++ [Candidates a] |}).
    pose proof (picks_loop_requested picks le w1) as Hreq.
    destruct (picks_loop_spec cfg browser url picks le w1 0)
      as (sops & next1 & Ht & _ & _ & Hm & Hev & _); [lia|].
    assert (trace w1 ++ sops = trace w ++ Candidates a :: sops) as Htr0
      by (subst w1; simpl; by rewrite <- app_assoc).
    assert (attempts (Candidates a :: sops) = 1) as Hone.
    { unfold attempts. rewrite <- (app_nil_r sops).
      by destruct (attempt_events a sops [] Hev) as [_ ->]. }
    destruct (picks_loop cfg browser url picks le w1) as [r w2]. simpl in Ht, Hm, Hreq.
    destruct r as [[[data|] le1]|e|].
    1,3,4: exists (Candidates a :: sops); cbn [fst snd]; rewrite Ht, Hone; split; [done|lia].
    destruct (backoff cfg a) as [delay|e|].
    2,3: exists (Candidates a :: sops); cbn [fst snd]; rewrite Ht, Hone; split; [done|lia].
    set (w3 := {| mgr := mgr w2; requested := requested w2;
                  trace := trace w2 ++ [Sleep delay] |}).
    destruct (IH le1 w3) as (ops3 & Ht3 & Hreq3).
    exists (Candidates a :: sops ++ Sleep delay :: ops3). split.
    + rewrite Ht3. subst w3. simpl. rewrite Ht, <- !app_assoc. simpl.
      subst w1. simpl. done.
    + assert (attempts (Candidates a :: sops ++ Sleep delay :: ops3) = S (attempts ops3))
        as ->.
      { unfold attempts.
        by destruct (attempt_events a sops (Sleep delay :: ops3) Hev) as [_ ->]. }
      subst w3. simpl in Hreq3. rewrite <- Hm in Hsame.
      rewrite Hsame in Hreq3. rewrite Nat.mul_succ_l. lia.
Qed.
End EngineCalls.

(** X17: [scrape_one] asks the engine for at most one context per pick: in
    a run the calls of [browser.new_context] number at most the attempts
    made times the picks of one [candidates] call (the layers with
    endpoints, plus one with direct fallback), hence at most [cfg.retries]
    times that. *)
Theorem X17_at_most_one_context_per_pick (cfg : Config) (browser : Browser)
    (url : pystr) (pm : ProxyManager) :
  requested (scrape_one cfg browser url (world0 pm)).2
  ≤ attempts (trace (scrape_one cfg browser url (world0 pm)).2) * picks_per_call pm
  ∧ requested (scrape_one cfg browser url (world0 pm)).2
    ≤ Z.to_nat (retries cfg) * picks_per_call pm.
Proof.
  unfold scrape_one.
  destruct (attempts_loop_requested cfg browser url (py_range 1 (retries cfg + 1)) None
              (world0 pm)) as (ops & Ht & Hreq).
  destruct (attempts_loop_run cfg browser url (py_range 1 (retries cfg + 1)) None (world0 pm))
    as (ops' & Ht' & Hle & _).
  simpl in Ht, Ht', Hreq. rewrite Ht in Ht'. subst ops'. rewrite Ht.
  rewrite py_range_length in Hle. split; [lia|].
  etransitivity; [exact Hreq|]. apply Nat.mul_le_mono_r. lia.
Qed.

(** ** The manager [__init__] builds *)

Lemma Forall2_names (declared : list ProxyLayer) (ls : list (pystr * list pystr)) :
  Forall2 (fun d l => l.1 = name d ∧ Permutation (proxies d) l.2) declared ls →
  List.map fst ls = List.map name declared
  ∧ Forall2 (fun d l => Permutation (proxies d) l.2) declared ls.
Proof.
  induction 1 as [|d l ds ls [Hn Hp] _ [IH1 IH2]]; simpl; [done|].
  split; [by rewrite Hn, IH1 | by constructor].
Qed.

(** X18: [__init__] keeps the declared layers, their names and their order,
    and only permutes the endpoints inside each layer, so no endpoint is
    lost, added or moved to another layer; it stores the fallback flag; and
    it creates a counter, at 0, for exactly the declared names, one counter
    for all the layers that share a name. *)
Theorem X18_init_keeps_layers_and_zeroes_counters {rng : Type}
    (shuffle : rng → list pystr → list pystr * rng)
    (declared : list ProxyLayer) (direct : bool) (g : rng) :
  (∀ g l, Permutation l (shuffle g l).1) →
  List.map fst (layers (__init__ shuffle declared direct g).1) = List.map name declared
  ∧ Forall2 (fun d l => Permutation (proxies d) l.2)
            declared (layers (__init__ shuffle declared direct g).1)
  ∧ direct_fallback (__init__ shuffle declared direct g).1 = direct
  ∧ ∀ n, _indices (__init__ shuffle declared direct g).1 !! n
         = if bool_decide (n ∈ List.map name declared) then Some 0 else None.
Proof.
  intros Hperm.
  destruct (init_spec shuffle Hperm declared direct g) as (Hlay & Hdir & _ & _).
  apply Forall2_names in Hlay as [Hnames Hps].
  split_and!; try done.
  intros n. rewrite <- Hnames. unfold __init__.
  destruct (shuffle_layers shuffle g _) as [shuffled g']. simpl.
  rewrite init_indices. by rewrite lookup_empty.
Qed.

Lemma X18_witness :
  List.map fst (layers (__init__ rev_shuffle layers_abc false tt).1)
  = List.map name layers_abc
  ∧ Forall2 (fun d l => Permutation (proxies d) l.2)
            layers_abc (layers (__init__ rev_shuffle layers_abc false tt).1)
  ∧ direct_fallback (__init__ rev_shuffle layers_abc false tt).1 = false
  ∧ ∀ n, _indices (__init__ rev_shuffle layers_abc false tt).1 !! n
         = if bool_decide (n ∈ List.map name layers_abc) then Some 0 else None.
Proof.
  apply (X18_init_keeps_layers_and_zeroes_counters rev_shuffle layers_abc false tt).
  intros g l. simpl. apply Permutation_rev.
Defined.
